(** * sweep: an Emacs dynamic module embedding SWI-Prolog

    A shallow embedding of [sweep.c].  The C functions are translated one
    by one into a state-and-fault monad.  The state carries what the C code
    shares between calls: the host environment's pending non-local exit,
    the C heap (which blocks are live, how many bytes are left), the
    engine's term references and its open query, and the global [o].

    The two runtimes the module links against (the Emacs module API reached
    through [emacs_env], and the SWI-Prolog foreign interface [PL_*]) are
    modelled by the small set of primitives that [sweep.c] calls.

    - Text is a [string] of bytes: the UTF-8 bytes of a Lisp string, the
      bytes of a C buffer, the characters of an engine string or atom.
    - An [emacs_value] is an [option]: [None] is the C [NULL].
    - A [term_t] is a handle into the list of term references.  The two
      converters recurse on the structure of what they convert; where C
      passes the handle of a sub-term, the model allocates and fills the
      same reference and passes the sub-term.
    - Undefined behaviour (a store outside a heap block, a NULL object
      handed to the host, ...) ends a run with a [Fault].
    - What the engine finds when it runs a query is given by the state's
      [program]: the answers in order, and the exception (if any) raised
      when the query is discarded. *)

From Stdlib Require Import ZArith String Ascii List Lia Bool.
From stdpp Require Import gmap list.
Import ListNotations.

Set Warnings "-register-all".

Local Open Scope string_scope.
Local Open Scope list_scope.
Local Open Scope Z_scope.

(** ** Host values *)

(** A Lisp object as the module sees it.  [nil] and [t] are the interned
    symbols of those names, as [enil] and [et] obtain them.  [VFloat]
    stands for a host object of a type the bridge has no case for. *)
Inductive value : Type :=
| VSymbol (name : string)
| VString (text : string)
| VInteger (i : Z)
| VFloat
| VCons (car cdr : value).

(** An [emacs_value] is a pointer; [None] is the C [NULL]. *)
Definition emacs_value : Type := option value.

Definition NULL {A} : option A := None.

(** A pending non-local exit: the signal symbol and its data. *)
Definition signal : Type := (value * value)%type.

(** ** Engine terms *)

Inductive term : Type :=
| TVariable
| TAtom (text : string)
| TString (text : string)
| TInteger (i : Z)
| TFloat
| TNil
| TListPair (head tail : term)
| TCompound (functor : string) (args : list term)
| TDict
| TBlob
| TUnknown (tag : Z).

(** A [term_t] is a handle into the engine's term references; 0 is no term. *)
Definition term_t : Type := nat.

(** What the engine will answer to successive [PL_next_solution] calls. *)
Inductive answer : Type :=
| Raise (e : term)
| Solution (binding : term) (last : bool).

(** The open query: the argument block [a] handed to [PL_open_query], the
    answers still to come, and the exception (if any) that discarding the
    query raises. *)
Record open_query : Type := {
  q_args : term_t;
  q_answers : list answer;
  q_discard : option term
}.

(** ** Program state *)

Record state : Type := {
  pending : option signal;          (* host: pending non-local exit *)
  blocks : gmap positive Z;         (* C heap: live blocks and their sizes *)
  avail : Z;                        (* C heap: bytes malloc can still give *)
  refs : list term;                 (* engine: handle h is entry h - 1 *)
  query : option open_query;        (* engine: the current query *)
  exception_term : term_t;          (* engine: what PL_exception returns *)
  program : string -> string -> string -> term -> list answer * option term;
                                    (* engine: the loaded predicates *)
  o : term_t                        (* sweep.c: term_t o = 0 *)
}.

Definition set_pending (x : option signal) (s : state) : state :=
  {| pending := x; blocks := blocks s; avail := avail s; refs := refs s;
     query := query s; exception_term := exception_term s;
     program := program s; o := o s |}.

Definition set_heap (b : gmap positive Z) (n : Z) (s : state) : state :=
  {| pending := pending s; blocks := b; avail := n; refs := refs s;
     query := query s; exception_term := exception_term s;
     program := program s; o := o s |}.

Definition set_refs (r : list term) (s : state) : state :=
  {| pending := pending s; blocks := blocks s; avail := avail s; refs := r;
     query := query s; exception_term := exception_term s;
     program := program s; o := o s |}.

Definition set_query (q : option open_query) (s : state) : state :=
  {| pending := pending s; blocks := blocks s; avail := avail s;
     refs := refs s; query := q; exception_term := exception_term s;
     program := program s; o := o s |}.

Definition set_exception_term (e : term_t) (s : state) : state :=
  {| pending := pending s; blocks := blocks s; avail := avail s;
     refs := refs s; query := query s; exception_term := e;
     program := program s; o := o s |}.

Definition set_o (h : term_t) (s : state) : state :=
  {| pending := pending s; blocks := blocks s; avail := avail s;
     refs := refs s; query := query s; exception_term := exception_term s;
     program := program s; o := h |}.

(** ** The monad *)

(** Behaviour the C standard or either runtime leaves undefined. *)
Inductive fault : Type :=
| HeapOverflow      (* access outside the bytes of a malloc'ed block *)
| NullValue         (* a NULL emacs_value handed to the host *)
| BadTermRef        (* a term_t that names no term reference *)
| BadFree           (* free of a pointer that is not a live block *)
| BadQuery          (* a qid that names no open query *)
| BadAtom.          (* an atom_t that names no atom *)

Inductive outcome (A : Type) : Type :=
| Ok (a : A) (s : state)
| Fault (f : fault).
Arguments Ok {A} a s.
Arguments Fault {A} f.

Definition M (A : Type) : Type := state -> outcome A.

Definition ret {A} (a : A) : M A := fun s => Ok a s.

Definition bind {A B} (m : M A) (k : A -> M B) : M B :=
  fun s => match m s with
           | Ok a s' => k a s'
           | Fault f => Fault f
           end.

Definition crash {A} (f : fault) : M A := fun _ => Fault f.

Definition modify (f : state -> state) : M unit := fun s => Ok tt (f s).

Declare Scope sweep_scope.
Delimit Scope sweep_scope with sweep.
Notation "x <- m ;; k" := (bind m (fun x => k))
  (at level 100, m at next level, right associativity) : sweep_scope.
Notation "m ;;; k" := (bind m (fun _ => k))
  (at level 100, right associativity) : sweep_scope.
Local Open Scope sweep_scope.

(** ** The host environment ([emacs_env]) *)

(** Every environment function first checks for a pending non-local exit:
    when one is pending it does nothing and returns its failure value. *)
Definition host {A} (dflt : A) (m : M A) : M A :=
  fun s => match pending s with
           | Some _ => Ok dflt s
           | None => m s
           end.

(** Reading an [emacs_value]: the host dereferences it. *)
Definition arg (v : emacs_value) : M value :=
  match v with
  | Some x => ret x
  | None => crash NullValue
  end.

Fixpoint args_of (vs : list emacs_value) : M (list value) :=
  match vs with
  | [] => ret []
  | v :: vs' => x <- arg v ;; xs <- args_of vs' ;; ret (x :: xs)
  end.

(** The host itself signals (wrong type, overflow, ...). *)
Definition host_signal {A} (sym : string) (data : value) (dflt : A) : M A :=
  modify (set_pending (Some (VSymbol sym, data))) ;;; ret dflt.

Definition take_chars (n : Z) (chars : string) : string :=
  substring 0 (Z.to_nat n) chars.

Definition intern (name : string) : M emacs_value :=
  host NULL (ret (Some (VSymbol name))).

Definition make_string (chars : string) (len : Z) : M emacs_value :=
  host NULL (ret (Some (VString (take_chars len chars)))).

Definition make_integer (n : Z) : M emacs_value :=
  host NULL (ret (Some (VInteger n))).

Definition type_name (x : value) : string :=
  match x with
  | VSymbol _ => "symbol"
  | VString _ => "string"
  | VInteger _ => "integer"
  | VFloat => "float"
  | VCons _ _ => "cons"
  end.

Definition type_of (v : emacs_value) : M emacs_value :=
  host NULL (x <- arg v ;; ret (Some (VSymbol (type_name x)))).

Definition is_not_nil (v : emacs_value) : M bool :=
  host false (x <- arg v ;;
              ret match x with
                  | VSymbol name => negb (name =? "nil")%string
                  | _ => true
                  end).

(** [env->eq] is object identity.  Two symbols are identical exactly when
    their names are; sweep.c applies it to symbols only. *)
Definition env_eq (a b : emacs_value) : M bool :=
  host false (x <- arg a ;; y <- arg b ;;
              ret match x, y with
                  | VSymbol n1, VSymbol n2 => (n1 =? n2)%string
                  | _, _ => false
                  end).

Definition INTMAX_MIN : Z := - 2 ^ 63.
Definition INTMAX_MAX : Z := 2 ^ 63 - 1.

Definition fits_int64 (i : Z) : bool := (INTMAX_MIN <=? i) && (i <=? INTMAX_MAX).

Definition extract_integer (v : emacs_value) : M Z :=
  host 0 (x <- arg v ;;
          match x with
          | VInteger i =>
              if fits_int64 i then ret i
              else host_signal "overflow-error" x 0
          | _ => host_signal "wrong-type-argument" x 0
          end).

Definition non_local_exit_signal (sym data : emacs_value) : M unit :=
  host tt (x <- arg sym ;; d <- arg data ;;
           modify (set_pending (Some (x, d)))).

Definition enil_value : value := VSymbol "nil".

Definition list_value (xs : list value) : value :=
  fold_right VCons enil_value xs.

(** The Lisp functions sweep.c reaches through [funcall]. *)
Definition apply_function (fn : value) (xs : list value) : M emacs_value :=
  match fn with
  | VSymbol name =>
      if (name =? "cons")%string then
        match xs with
        | [a; b] => ret (Some (VCons a b))
        | _ => host_signal "wrong-number-of-arguments" fn NULL
        end
      else if (name =? "car")%string then
        match xs with
        | [VCons a _] => ret (Some a)
        | [VSymbol n] =>
            if (n =? "nil")%string then ret (Some enil_value)
            else host_signal "wrong-type-argument" (VSymbol n) NULL
        | [x] => host_signal "wrong-type-argument" x NULL
        | _ => host_signal "wrong-number-of-arguments" fn NULL
        end
      else if (name =? "cdr")%string then
        match xs with
        | [VCons _ d] => ret (Some d)
        | [VSymbol n] =>
            if (n =? "nil")%string then ret (Some enil_value)
            else host_signal "wrong-type-argument" (VSymbol n) NULL
        | [x] => host_signal "wrong-type-argument" x NULL
        | _ => host_signal "wrong-number-of-arguments" fn NULL
        end
      else if (name =? "list")%string then ret (Some (list_value xs))
      else host_signal "void-function" fn NULL
  | _ => host_signal "invalid-function" fn NULL
  end.

Definition funcall (f : emacs_value) (args : list emacs_value) : M emacs_value :=
  host NULL (fn <- arg f ;; xs <- args_of args ;; apply_function fn xs).

(** ** The C heap *)

Definition malloc (n : Z) : M (option positive) :=
  fun s =>
    if n <=? avail s then
      let p := fresh (dom (blocks s)) in
      Ok (Some p) (set_heap (<[p := n]> (blocks s)) (avail s - n) s)
    else Ok NULL s.

Definition free (p : positive) : M unit :=
  fun s =>
    match blocks s !! p with
    | Some n => Ok tt (set_heap (delete p (blocks s)) (avail s + n) s)
    | None => Fault BadFree
    end.

(** A [char *] buffer: the block it lives in and the bytes it holds. *)
Record cbuf : Type := { c_ptr : positive; c_bytes : string }.

Fixpoint zeros (n : nat) : string :=
  match n with
  | O => EmptyString
  | S n' => String Ascii.zero (zeros n')
  end.

(** [memset(buf, 0, len)] on a fresh block of [len] bytes. *)
Definition memset0 (p : positive) (len : Z) : cbuf :=
  {| c_ptr := p; c_bytes := zeros (Z.to_nat len) |}.

(** [copy_string_contents(env, v, buf, &len)]: with a NULL buffer it
    stores the required size, the UTF-8 bytes and one terminating zero, in
    [len]; with a buffer of [len] bytes it copies them, terminator
    included. The result is the success flag, the buffer and [len]. *)
Definition copy_string_contents (v : emacs_value) (buf : option cbuf) (len : Z)
  : M (bool * option cbuf * Z) :=
  host (false, buf, len)
    (x <- arg v ;;
     match x with
     | VString text =>
         let required := Z.of_nat (String.length text) + 1 in
         match buf with
         | None => ret (true, buf, required)
         | Some b =>
             if len <? required then
               host_signal "args-out-of-range" x (false, buf, required)
             else
               ret (true,
                    Some {| c_ptr := c_ptr b;
                            c_bytes := String.append text (zeros 1) |},
                    required)
         end
     | _ => host_signal "wrong-type-argument" x (false, buf, len)
     end).

(** ** The engine ([PL_*]) *)

(** The foreign interface as far as sweep.c uses it.  Terms live in term
    references; a query is opened on a block of two references, the
    input and the output argument; each [PL_next_solution] consumes one
    planned answer. *)

Definition TRUE : Z := 1.
Definition FALSE : Z := 0.

(** Extended status codes of [PL_next_solution] under [PL_Q_EXT_STATUS]. *)
Definition PL_S_EXCEPTION : Z := -1.
Definition PL_S_FALSE : Z := 0.
Definition PL_S_TRUE : Z := 1.
Definition PL_S_LAST : Z := 2.

Inductive term_type : Type :=
| PL_VARIABLE | PL_ATOM | PL_STRING | PL_NIL | PL_LIST_PAIR | PL_INTEGER
| PL_TERM | PL_DICT | PL_BLOB | PL_FLOAT | PL_OTHER (tag : Z).

Definition PL_term_type (t : term) : term_type :=
  match t with
  | TVariable => PL_VARIABLE
  | TAtom _ => PL_ATOM
  | TString _ => PL_STRING
  | TInteger _ => PL_INTEGER
  | TFloat => PL_FLOAT
  | TNil => PL_NIL
  | TListPair _ _ => PL_LIST_PAIR
  | TCompound _ _ => PL_TERM
  | TDict => PL_DICT
  | TBlob => PL_BLOB
  | TUnknown tag => PL_OTHER tag
  end.

Definition deref (s : state) (t : term_t) : option term :=
  match t with
  | O => None
  | S i => refs s !! i
  end.

Definition get_term (t : term_t) : M term :=
  fun s => match deref s t with
           | Some tm => Ok tm s
           | None => Fault BadTermRef
           end.

(** Storing a term in the reference [t]; every [PL_put_*] ends here. *)
Definition put_term (t : term_t) (tm : term) : M Z :=
  fun s => match t with
           | O => Fault BadTermRef
           | S i =>
               if Nat.ltb i (length (refs s))
               then Ok TRUE (set_refs (<[i := tm]> (refs s)) s)
               else Fault BadTermRef
           end.

(** [PL_new_term_refs(n)]: [n] consecutive fresh references, each an
    unbound variable; the handle of the first is returned. *)
Definition PL_new_term_refs (n : nat) : M term_t :=
  fun s => Ok (S (length (refs s)))
              (set_refs (refs s ++ replicate n TVariable) s).

Definition PL_new_term_ref : M term_t := PL_new_term_refs 1.

Definition PL_put_string_nchars (t : term_t) (len : Z) (chars : string) : M Z :=
  put_term t (TString (take_chars len chars)).

Definition PL_put_int64 (t : term_t) (i : Z) : M Z := put_term t (TInteger i).

Definition PL_put_nil (t : term_t) : M Z := put_term t TNil.

Definition PL_cons_list (l h t : term_t) : M Z :=
  hd <- get_term h ;; tl <- get_term t ;; put_term l (TListPair hd tl).

Definition PL_get_int64 (t : term) : option Z :=
  match t with
  | TInteger i => if fits_int64 i then Some i else None
  | _ => None
  end.

Definition PL_get_string_chars (t : term) : option (string * Z) :=
  match t with
  | TString text => Some (text, Z.of_nat (String.length text))
  | _ => None
  end.

(** [PL_get_nchars] with [CVT_ATOM|REP_UTF8]. *)
Definition PL_get_nchars (t : term) : option (Z * string) :=
  match t with
  | TAtom text => Some (Z.of_nat (String.length text), text)
  | _ => None
  end.

Definition PL_current_query : M Z :=
  fun s => Ok (match query s with Some _ => 1 | None => 0 end) s.

Definition PL_exception (d : Z) : M term_t :=
  fun s => Ok (exception_term s) s.

(** The engine raises [e]: the exception term gets a reference of its own. *)
Definition raise_exception (e : term) : M unit :=
  h <- PL_new_term_ref ;; put_term h e ;;; modify (set_exception_term h).

Definition the_program
  : M (string -> string -> string -> term -> list answer * option term) :=
  fun s => Ok (program s) s.

(** A predicate handle, as [PL_predicate(name, arity, module)] finds it. *)
Record predicate_t : Type := {
  p_name : string;
  p_arity : Z;
  p_module : string
}.

Definition PL_new_atom (chars : string) : string := chars.
Definition PL_new_module (name : string) : string := name.
Definition PL_predicate (name : string) (arity : Z) (module : string)
  : predicate_t :=
  {| p_name := name; p_arity := arity; p_module := module |}.

(** [PL_open_query(ctx, flags, p, a)] with the flags sweep.c passes
    ([PL_Q_NODEBUG | PL_Q_EXT_STATUS | PL_Q_CATCH_EXCEPTION]): the engine
    plans the answers of [p] called on the term in [a + 0]. *)
Definition PL_open_query (ctx : string) (p : predicate_t) (a : term_t) : M Z :=
  input <- get_term a ;;
  _ <- get_term (S a) ;;
  prog <- the_program ;;
  let plan := prog ctx (p_module p) (p_name p) input in
  modify (set_exception_term 0%nat) ;;;
  modify (set_query (Some {| q_args := a; q_answers := fst plan;
                             q_discard := snd plan |})) ;;;
  ret 1.

Definition the_query : M open_query :=
  fun s => match query s with
           | Some q => Ok q s
           | None => Fault BadQuery
           end.

Definition set_answers (rest : list answer) (q : open_query) : open_query :=
  {| q_args := q_args q; q_answers := rest; q_discard := q_discard q |}.

(** [PL_next_solution(d)]: the engine consumes the next answer.  A solution
    binds the second argument, [a + 1]; failure undoes the binding. *)
Definition PL_next_solution (d : Z) : M Z :=
  q <- the_query ;;
  match q_answers q with
  | [] => put_term (S (q_args q)) TVariable ;;; ret PL_S_FALSE
  | Raise e :: rest =>
      modify (set_query (Some (set_answers rest q))) ;;;
      raise_exception e ;;; ret PL_S_EXCEPTION
  | Solution binding last :: rest =>
      modify (set_query (Some (set_answers rest q))) ;;;
      put_term (S (q_args q)) binding ;;;
      ret (if last then PL_S_LAST else PL_S_TRUE)
  end.

(** Discarding the query; [keep] tells whether the bindings survive. *)
Definition discard_query (keep : bool) : M Z :=
  q <- the_query ;;
  (if keep then ret TRUE else put_term (S (q_args q)) TVariable) ;;;
  modify (set_query None) ;;;
  match q_discard q with
  | None => ret TRUE
  | Some e => raise_exception e ;;; ret FALSE
  end.

Definition PL_cut_query (d : Z) : M Z := discard_query true.
Definition PL_close_query (d : Z) : M Z := discard_query false.

(** ** sweep.c *)

(** C strings end at the first zero byte. *)
Fixpoint c_str (bytes : string) : string :=
  match bytes with
  | EmptyString => EmptyString
  | String c rest =>
      if Ascii.eqb c Ascii.zero then EmptyString else String c (c_str rest)
  end.

Definition strlen (bytes : string) : Z := Z.of_nat (String.length (c_str bytes)).

Definition econs (car cdr : emacs_value) : M emacs_value :=
  f <- intern "cons" ;; funcall f [car; cdr].

Definition ethrow (message : string) : M unit :=
  let len := strlen message in
  str <- make_string message len ;;
  l <- intern "list" ;;
  arg <- funcall l [str] ;;
  e <- intern "error" ;;
  non_local_exit_signal e arg.

Definition enil : M emacs_value := intern "nil".

Definition et : M emacs_value := intern "t".

(** [estring_to_cstring(eenv, estring, len_p)] returns the buffer (or NULL)
    and the final [*len_p]. *)
Definition estring_to_cstring (estring : emacs_value) : M (option cbuf * Z) :=
  let len := 0 in
  r <- copy_string_contents estring NULL len ;;
  let len := snd r in
  if negb (fst (fst r)) then
    ethrow "Failed to get string length" ;;; ret (NULL, len)
  else
    p <- malloc len ;;
    match p with
    | None => ethrow "malloc failed" ;;; ret (NULL, len)
    | Some p =>
        let buf := memset0 p len in
        r <- copy_string_contents estring (Some buf) len ;;
        let len := snd r in
        if negb (fst (fst r)) then
          ethrow "Failed to copy string contents" ;;;
          free p ;;;
          ret (NULL, len)
        else ret (snd (fst r), len)
    end.

Definition estring_to_pstring (estring : emacs_value) (t : term_t) : M Z :=
  r <- estring_to_cstring estring ;;
  let len := snd r in
  match fst r with
  | None => ret (-1)
  | Some buf =>
      i <- PL_put_string_nchars t (len - 1) (c_bytes buf) ;;
      free (c_ptr buf) ;;;
      ret i
  end.

Definition term_to_value_integer (t : term) : M emacs_value :=
  match PL_get_int64 t with
  | Some l => make_integer l
  | None => ret NULL
  end.

Definition term_to_value_string (t : term) : M emacs_value :=
  match PL_get_string_chars t with
  | Some (chars, l) => make_string chars l
  | None => ret NULL
  end.

Definition term_to_value_atom (t : term) : M emacs_value :=
  match PL_get_nchars t with
  | Some (l, chars) =>
      s <- make_string chars l ;;
      a <- intern "atom" ;;
      econs a s
  | None => ret NULL
  end.

Definition term_to_value_variable (t : term) : M emacs_value := intern "variable".

Definition term_to_value_dict (t : term) : M emacs_value := intern "dict".

Definition term_to_value_blob (t : term) : M emacs_value := intern "blob".

Definition term_to_value_float (t : term) : M emacs_value := intern "float".

(** [sizeof(emacs_value)]: a pointer, eight bytes on the LP64 targets. *)
Definition sizeof_emacs_value : Z := 8.

(** The byte count sweep.c passes to malloc and memset for [vals]:
    [sizeof(emacs_value)*arity + 1]. *)
Definition vals_size (arity : Z) : Z := sizeof_emacs_value * arity + 1.

(** The [vals] array of [term_to_value_compound]: its block, the number of
    bytes malloc was asked for, and the slots that lie wholly inside them. *)
Record varray : Type := {
  va_ptr : positive;
  va_bytes : Z;
  va_slots : list emacs_value
}.

(** [memset(vals, 0, bytes)]: every slot inside the block reads NULL. *)
Definition memset_vals (p : positive) (bytes : Z) : varray :=
  {| va_ptr := p; va_bytes := bytes;
     va_slots := replicate (Z.to_nat (bytes / sizeof_emacs_value)) NULL |}.

Definition in_block (vals : varray) (n : nat) : bool :=
  sizeof_emacs_value * (Z.of_nat n + 1) <=? va_bytes vals.

(** [vals[n] = v]. *)
Definition store_slot (vals : varray) (n : nat) (v : emacs_value) : M varray :=
  if in_block vals n then
    ret {| va_ptr := va_ptr vals; va_bytes := va_bytes vals;
           va_slots := <[n := v]> (va_slots vals) |}
  else crash HeapOverflow.

(** Reading [vals[n]], as [funcall] does for each of its [nargs] arguments. *)
Definition load_slot (vals : varray) (n : nat) : M emacs_value :=
  if in_block vals n then
    match va_slots vals !! n with
    | Some v => ret v
    | None => crash HeapOverflow
    end
  else crash HeapOverflow.

Fixpoint load_slots (vals : varray) (from count : nat) : M (list emacs_value) :=
  match count with
  | O => ret []
  | S count' =>
      v <- load_slot vals from ;;
      vs <- load_slots vals (S from) count' ;;
      ret (v :: vs)
  end.

(** [env->funcall(env, f, nargs, vals)] on a C array: unless an exit is
    pending the host reads [vals[0]] to [vals[nargs - 1]]. *)
Definition funcall_array (f : emacs_value) (nargs : nat) (vals : varray)
  : M emacs_value :=
  host NULL (vs <- load_slots vals 0 nargs ;; funcall f vs).

Section Recursive_calls.

(** The conversion of a sub-term, [term_to_value] itself. *)
Variable term_to_value : term -> M emacs_value.

(** Sub-terms are loaded into fresh references, and the sub-term is
    converted.  C leaves the order of the two argument evaluations open;
    the head goes first here. *)
Definition term_to_value_list (l : term) : M emacs_value :=
  ph <- PL_new_term_ref ;;
  pt <- PL_new_term_ref ;;
  match l with
  | TListPair head tail =>
      put_term ph head ;;; put_term pt tail ;;;
      car <- term_to_value head ;;
      cdr <- term_to_value tail ;;
      econs car cdr
  | _ => ret NULL
  end.

(** The loop [for (n = 1; n <= arity; n++)] over the arguments left. *)
Fixpoint fill_vals (arg : term_t) (args : list term) (n : nat)
    (vals : varray) : M varray :=
  match args with
  | [] => ret vals
  | a :: rest =>
      put_term arg a ;;;
      v <- term_to_value a ;;
      vals' <- store_slot vals n v ;;
      fill_vals arg rest (S n) vals'
  end.

(** [PL_get_compound_name_arity] and [PL_atom_nchars] give the functor's
    name and the arity; on a term that is not compound the first fails,
    its result is ignored, and the atom 0 is looked up. *)
Definition term_to_value_compound (t : term) : M emacs_value :=
  arg <- PL_new_term_ref ;;
  match t with
  | TCompound name args =>
      let arity := Z.of_nat (length args) in
      let chars := name in
      let len := Z.of_nat (String.length name) in
      p <- malloc (vals_size arity) ;;
      match p with
      | None => ethrow "malloc failed" ;;; ret NULL
      | Some p =>
          let vals := memset_vals p (vals_size arity) in
          s <- make_string chars len ;;
          vals <- store_slot vals 0 s ;;
          vals <- fill_vals arg args 1 vals ;;
          c <- intern "compound" ;;
          l <- intern "list" ;;
          lst <- funcall_array l (length args + 1) vals ;;
          econs c lst
      end
  | _ => crash BadAtom
  end.

End Recursive_calls.

(** [term_to_value(env, t)], on the term behind the handle [t]. *)
Fixpoint term_to_value (t : term) : M emacs_value :=
  match PL_term_type t with
  | PL_VARIABLE => term_to_value_variable t
  | PL_ATOM => term_to_value_atom t
  | PL_STRING => term_to_value_string t
  | PL_NIL => enil
  | PL_LIST_PAIR => term_to_value_list term_to_value t
  | PL_INTEGER => term_to_value_integer t
  | PL_TERM => term_to_value_compound term_to_value t
  | PL_DICT => term_to_value_dict t
  | PL_BLOB => term_to_value_blob t
  | PL_FLOAT => term_to_value_blob t
  | PL_OTHER _ => intern "unconvertable"
  end.

(** The handle-level call [term_to_value(env, t)]: the reference is read
    and its term converted. *)
Definition term_to_value_at (t : term_t) : M emacs_value :=
  tm <- get_term t ;; term_to_value tm.

Definition ecar (cons : emacs_value) : M emacs_value :=
  f <- intern "car" ;; funcall f [cons].

Definition ecdr (cons : emacs_value) : M emacs_value :=
  f <- intern "cdr" ;; funcall f [cons].

Definition value_to_term_string (v : emacs_value) (t : term_t) : M Z :=
  estring_to_pstring v t.

Definition value_to_term_integer (v : emacs_value) (t : term_t) : M Z :=
  l <- extract_integer v ;; PL_put_int64 t l.

Section Recursive_calls_back.

Variable value_to_term : value -> term_t -> M Z.

(** [value_to_term] calls this function on a value whose type is [cons]
    while no exit is pending, so [ecar] and [ecdr] return its two
    components, and the recursive calls receive those components.  On
    any other value [ecar] signals and returns NULL, and so does [ecdr];
    [value_to_term] on NULL with the exit pending finds it not
    [is_not_nil] and stores the empty list. *)
Definition value_to_term_list (v : value) (t : term_t) : M Z :=
  head <- PL_new_term_ref ;;
  tail <- PL_new_term_ref ;;
  car <- ecar (Some v) ;;
  cdr <- ecdr (Some v) ;;
  match v with
  | VCons a d =>
      r <- value_to_term a head ;;
      if r <? 0 then ret r
      else
        r <- value_to_term d tail ;;
        if r <? 0 then ret r
        else PL_cons_list t head tail
  | _ =>
      r <- PL_put_nil head ;;
      if r <? 0 then ret r
      else
        r <- PL_put_nil tail ;;
        if r <? 0 then ret r
        else PL_cons_list t head tail
  end.

End Recursive_calls_back.

(** [value_to_term(env, v, t)] on an object [v] of the host. *)
Fixpoint value_to_term (v : value) (t : term_t) : M Z :=
  vt <- type_of (Some v) ;;
  nn <- is_not_nil (Some v) ;;
  if nn then
    ty <- intern "string" ;;
    is_string <- env_eq vt ty ;;
    if is_string then value_to_term_string (Some v) t
    else
      ty <- intern "integer" ;;
      is_integer <- env_eq vt ty ;;
      if is_integer then value_to_term_integer (Some v) t
      else
        ty <- intern "cons" ;;
        is_cons <- env_eq vt ty ;;
        if is_cons then value_to_term_list value_to_term v t
        else ret (-1)
  else PL_put_nil t.

(** The global [o]: [term_t o = 0]. *)
Definition read_o : M term_t := fun s => Ok (o s) s.

Definition write_o (t : term_t) : M unit := modify (set_o t).

Definition sweep_close_query : M emacs_value :=
  d <- PL_current_query ;;
  if d =? 0 then ethrow "No current query" ;;; ret NULL
  else
    rc <- PL_close_query d ;;
    if rc =? FALSE then e <- PL_exception d ;; term_to_value_at e
    else et.

Definition sweep_cut_query : M emacs_value :=
  d <- PL_current_query ;;
  if d =? 0 then ethrow "No current query" ;;; ret NULL
  else
    rc <- PL_cut_query d ;;
    if rc =? FALSE then e <- PL_exception d ;; term_to_value_at e
    else et.

Definition sweep_next_solution : M emacs_value :=
  d <- PL_current_query ;;
  if d =? 0 then ethrow "No current query" ;;; ret NULL
  else
    rc <- PL_next_solution d ;;
    if rc =? PL_S_EXCEPTION then
      tag <- intern "exception" ;;
      e <- PL_exception d ;;
      v <- term_to_value_at e ;;
      econs tag v
    else if rc =? PL_S_FALSE then enil
    else if rc =? PL_S_TRUE then
      tag <- et ;;
      out <- read_o ;;
      v <- term_to_value_at out ;;
      econs tag v
    else if rc =? PL_S_LAST then
      tag <- intern "!" ;;
      out <- read_o ;;
      v <- term_to_value_at out ;;
      econs tag v
    else ret NULL.

(** The label [cleanup:] of [sweep_open_query] and what follows it. *)
Definition cleanup (c m f : option cbuf) : M emacs_value :=
  match c with Some b => free (c_ptr b) | None => ret tt end ;;;
  match m with Some b => free (c_ptr b) | None => ret tt end ;;;
  match f with Some b => free (c_ptr b) | None => ret tt end ;;;
  et.

(** [sweep_open_query(env, 4, args, data)]; the host calls it with exactly
    four objects, [arg0] to [arg3]. *)
Definition sweep_open_query (arg0 arg1 arg2 arg3 : value) : M emacs_value :=
  a <- PL_new_term_refs 2 ;;
  d <- PL_current_query ;;
  if negb (d =? 0) then
    ethrow "Prolog is already executing a query" ;;; cleanup NULL NULL NULL
  else
    r <- estring_to_cstring (Some arg0) ;;
    match fst r with
    | None => cleanup NULL NULL NULL
    | Some c =>
        let n := PL_new_module (PL_new_atom (c_str (c_bytes c))) in
        r <- estring_to_cstring (Some arg1) ;;
        match fst r with
        | None => cleanup (Some c) NULL NULL
        | Some m =>
            r <- estring_to_cstring (Some arg2) ;;
            match fst r with
            | None => cleanup (Some c) (Some m) NULL
            | Some f =>
                let p := PL_predicate (c_str (c_bytes f)) 2
                                      (c_str (c_bytes m)) in
                r <- value_to_term arg3 (a + 0)%nat ;;
                if r <? 0 then cleanup (Some c) (Some m) (Some f)
                else
                  PL_open_query n p a ;;;
                  write_o (a + 1)%nat ;;;
                  cleanup (Some c) (Some m) (Some f)
            end
        end
    end.

(** [sizeof(char * )]: a pointer, eight bytes on the LP64 targets. *)
Definition sizeof_char_ptr : Z := 8.

Section Initialise.

(** [PL_initialise(argc, argv)]: does the engine start on this command
    line?  The strings are what the engine reads at the [argv[i]]. *)
Variable PL_initialise : list string -> bool.

(** The first loop of [sweep_initialize], over the arguments left;
    [filled] holds [argv[0]] to [argv[i - 1]].  When a transfer fails
    [argv] is freed and the function returns NULL. *)
Fixpoint fill_argv (argv : positive) (args : list value) (filled : list cbuf)
  : M (option (list cbuf)) :=
  match args with
  | [] => ret (Some filled)
  | a :: rest =>
      r <- estring_to_cstring (Some a) ;;
      match fst r with
      | None => free argv ;;; ret NULL
      | Some b => fill_argv argv rest (filled ++ [b])
      end
  end.

(** The second loop: [free(argv[i])] for every [i]. *)
Fixpoint free_argv (bufs : list cbuf) : M unit :=
  match bufs with
  | [] => ret tt
  | b :: rest => free (c_ptr b) ;;; free_argv rest
  end.

(** [sweep_initialize(env, nargs, args, data)] on the [nargs] objects the
    host passes. *)
Definition sweep_initialize (args : list value) : M emacs_value :=
  let nargs := Z.of_nat (length args) in
  p <- malloc (sizeof_char_ptr * nargs) ;;
  match p with
  | None => ethrow "malloc failed" ;;; ret NULL
  | Some argv =>
      filled <- fill_argv argv args [] ;;
      match filled with
      | None => ret NULL
      | Some bufs =>
          let r := PL_initialise (map (fun b => c_str (c_bytes b)) bufs) in
          free_argv bufs ;;;
          free argv ;;;
          intern (if r then "t" else "nil")
      end
  end.

End Initialise.

(** ** The host's side of a call *)

Inductive host_result : Type :=
| Returned (v : value)
| Signaled (sg : signal).

(** The host calls a module function with no exit pending.  When the
    function comes back with an exit pending the host raises that signal
    (and the exit is no longer pending); otherwise it takes the returned
    object, which it dereferences. *)
Definition call (f : M emacs_value) : M host_result :=
  fun s =>
    match f s with
    | Ok v s' =>
        match pending s' with
        | Some sg => Ok (Signaled sg) (set_pending None s')
        | None =>
            match v with
            | Some x => Ok (Returned x) s'
            | None => Fault NullValue
            end
        end
    | Fault x => Fault x
    end.

(** The signal [ethrow] raises. *)
Definition error_signal (message : string) : signal :=
  (VSymbol "error", VCons (VString message) (VSymbol "nil")).

(** The four functions of the query interface. *)
Inductive entry_point : M emacs_value -> Prop :=
| entry_open a0 a1 a2 a3 : entry_point (sweep_open_query a0 a1 a2 a3)
| entry_next : entry_point sweep_next_solution
| entry_cut : entry_point sweep_cut_query
| entry_close : entry_point sweep_close_query.

(** ** States used as examples *)

(** The module right after loading: nothing allocated, no term reference,
    no query, [o = 0]; [limit] bytes of heap and the predicates [prog]. *)
Definition loaded (limit : Z)
    (prog : string -> string -> string -> term -> list answer * option term)
  : state :=
  {| pending := None; blocks := ∅; avail := limit; refs := [];
     query := None; exception_term := 0%nat; program := prog; o := 0%nat |}.

(** A predicate base with one predicate, [user:pair/2]: called on [X] it
    answers [[X]] and then, as its last solution, [7]; every other
    predicate is unknown and raises an existence error. *)
Definition pair_program (ctx pred_module pred_name : string) (input : term)
  : list answer * option term :=
  if ((pred_module =? "user") && (pred_name =? "pair"))%string
  then ([Solution (TListPair input TNil) false; Solution (TInteger 7) true],
        None)
  else ([Raise (TAtom "existence_error")], None).

Definition boot : state := loaded 4096 pair_program.

(** A state with a query open: [user:pair/2] called on [1], as
    [sweep_open_query] leaves it. *)
Definition opened : state :=
  {| pending := None; blocks := ∅; avail := 4096;
     refs := [TInteger 1; TVariable];
     query := Some {| q_args := 1%nat;
                      q_answers :=
                        [Solution (TListPair (TInteger 1) TNil) false;
                         Solution (TInteger 7) true];
                      q_discard := None |};
     exception_term := 0%nat; program := pair_program; o := 2%nat |}.


(** What a run delivers, the final state left out. *)
Definition result_of {A} (r : outcome A) : fault + A :=
  match r with
  | Ok a _ => inr a
  | Fault x => inl x
  end.

(** Open [user:pair/2] on [1], then call the functions of [rest] in turn;
    the results of those calls, the last one first. *)
Fixpoint session (rest : list (M emacs_value)) (acc : list host_result)
  : M (list host_result) :=
  match rest with
  | [] => ret acc
  | f :: rest' => r <- call f ;; session rest' (r :: acc)
  end.

Definition open_pair : M emacs_value :=
  sweep_open_query (VString "user") (VString "user") (VString "pair")
                   (VInteger 1).



(** * Vocabulary of the statements *)

(** ** Term references and the states the module can be in *)

Definition valid_ref (s : state) (t : term_t) : Prop :=
  (1 <= t <= length (refs s))%nat.

(** While a query is open, [o] is the handle of its second argument and
    names a term reference. *)
Definition recorded (s : state) : Prop :=
  match query s with
  | Some q => o s = S (q_args q) /\ valid_ref s (o s)
  | None => True
  end.

(** The states reached from the freshly loaded module by calls of the
    query interface. *)
Inductive reachable : state -> Prop :=
| reach_loaded limit prog : reachable (loaded limit prog)
| reach_call f s r s' :
    reachable s -> entry_point f -> call f s = Ok r s' -> reachable s'.

(** ** The values both sides can represent *)

(** The values of the overlapping subset: strings, 64-bit integers, [nil]
    and pairs of such values. *)
Fixpoint representable (v : value) : bool :=
  match v with
  | VSymbol name => (name =? "nil")%string
  | VString _ => true
  | VInteger i => fits_int64 i
  | VFloat => false
  | VCons a d => representable a && representable d
  end.

(** The term a representable value is turned into. *)
Fixpoint term_of_value (v : value) : term :=
  match v with
  | VString text => TString text
  | VInteger i => TInteger i
  | VCons a d => TListPair (term_of_value a) (term_of_value d)
  | _ => TNil
  end.

(** The largest buffer [estring_to_cstring] asks for while [v] is
    converted; buffers are freed before the next one is requested. *)
Fixpoint string_room (v : value) : Z :=
  match v with
  | VString text => Z.of_nat (String.length text) + 1
  | VCons a d => Z.max (string_room a) (string_room d)
  | _ => 0
  end.

Definition is_string (v : value) : bool :=
  match v with
  | VString _ => true
  | _ => false
  end.

(** ** The terms the conversion handles *)

(** Terms without a compound sub-term whose integers fit 64 bits. *)
Fixpoint plain (t : term) : bool :=
  match t with
  | TInteger i => fits_int64 i
  | TListPair head tail => plain head && plain tail
  | TCompound _ _ => false
  | _ => true
  end.

(** What [term_to_value] makes of a plain term. *)
Fixpoint value_of_term (t : term) : value :=
  match t with
  | TVariable => VSymbol "variable"
  | TAtom text => VCons (VSymbol "atom") (VString text)
  | TString text => VString text
  | TInteger i => VInteger i
  | TFloat => VSymbol "blob"
  | TNil => VSymbol "nil"
  | TListPair head tail => VCons (value_of_term head) (value_of_term tail)
  | TCompound _ _ => VSymbol "nil"
  | TDict => VSymbol "dict"
  | TBlob => VSymbol "blob"
  | TUnknown _ => VSymbol "unconvertable"
  end.

(** Does a conversion deliver a host value (a non-NULL [emacs_value])? *)
Definition returns_value (r : outcome emacs_value) : bool :=
  match r with
  | Ok (Some _) _ => true
  | _ => false
  end.

(** ** Computations that leave a part of the state alone *)

Definition omap {A} (f : state -> state) (r : outcome A) : outcome A :=
  match r with
  | Ok a s => Ok a (f s)
  | Fault x => Fault x
  end.

(** [m] commutes with the update [upd]: it neither reads nor writes what
    [upd] changes. *)
Definition commutes {A} (upd : state -> state) (m : M A) : Prop :=
  forall s, m (upd s) = omap upd (m s).

(** Updates that leave the host environment, the heap and the term
    references alone. *)
Class Foreign (upd : state -> state) : Prop := {
  foreign_pending : forall s, pending (upd s) = pending s;
  foreign_blocks : forall s, blocks (upd s) = blocks s;
  foreign_avail : forall s, avail (upd s) = avail s;
  foreign_refs : forall s, refs (upd s) = refs s;
  foreign_set_pending :
    forall x s, upd (set_pending x s) = set_pending x (upd s);
  foreign_set_heap :
    forall b n s, upd (set_heap b n s) = set_heap b n (upd s);
  foreign_set_refs :
    forall r s, upd (set_refs r s) = set_refs r (upd s)
}.

#[export] Instance set_o_foreign h : Foreign (set_o h).
Proof. split; reflexivity. Qed.

#[export] Instance set_query_foreign q : Foreign (set_query q).
Proof. split; reflexivity. Qed.

(** [m] leaves at least as many term references as it found. *)
Definition grows {A} (m : M A) : Prop :=
  forall s a s', m s = Ok a s' -> (length (refs s) <= length (refs s'))%nat.

(** ** Reading and writing [o] *)

(** Two states that differ at most in [o]. *)
Definition same_but_o (s1 s2 : state) : Prop := set_o 0%nat s1 = set_o 0%nat s2.

(** Two outcomes that differ at most in the [o] of their final states. *)
Definition same_outcome {A} (r1 r2 : outcome A) : Prop :=
  match r1, r2 with
  | Ok a s1, Ok b s2 => a = b /\ same_but_o s1 s2
  | Fault f, Fault g => f = g
  | _, _ => False
  end.

(** [m] does not read [o]: what it does is the same whatever [o] holds. *)
Definition blind {A} (m : M A) : Prop :=
  forall s1 s2, same_but_o s1 s2 -> same_outcome (m s1) (m s2).

(** [m] does not write [o]. *)
Definition keeps_o {A} (m : M A) : Prop :=
  forall s a s', m s = Ok a s' -> o s' = o s.

(** ** Parts of the state a computation leaves alone *)

(** [m] leaves the part [proj] of the state as it found it. *)
Definition keeps {A X} (proj : state -> X) (m : M A) : Prop :=
  forall s a s', m s = Ok a s' -> proj s' = proj s.

(** The C heap: the live blocks and the bytes left. *)
Definition heap (s : state) : gmap positive Z * Z := (blocks s, avail s).

(** Every term reference of [s] holds the same term in [s']. *)
Definition same_refs (s s' : state) : Prop :=
  forall i tm, refs s !! i = Some tm -> refs s' !! i = Some tm.

(** The same, but for the reference [t]. *)
Definition same_refs_except (t : term_t) (s s' : state) : Prop :=
  forall i tm, refs s !! i = Some tm -> S i <> t -> refs s' !! i = Some tm.

(** ** The terms that survive the way to the host and back *)

(** The terms of the overlapping subset: strings, 64-bit integers, the
    empty list and list pairs of such terms. *)
Fixpoint common_term (t : term) : bool :=
  match t with
  | TString _ => true
  | TNil => true
  | TInteger i => fits_int64 i
  | TListPair head tail => common_term head && common_term tail
  | _ => false
  end.

(** ** String transfers that fail *)

(** The signal [estring_to_cstring] raises on [v] when [room] bytes of
    heap are left, if it raises one. *)
Definition transfer_failure (room : Z) (v : value) : option signal :=
  match v with
  | VString text =>
      if room <? Z.of_nat (String.length text) + 1
      then Some (error_signal "malloc failed")
      else None
  | _ => Some (VSymbol "wrong-type-argument", v)
  end.

(** ** The buffers of [sweep_initialize] *)

(** The bytes the transfer of [texts] takes from the heap. *)
Definition total_size (texts : list string) : Z :=
  fold_right (fun t acc => Z.of_nat (String.length t) + 1 + acc) 0 texts.

(** The block table after [estring_to_cstring] has been called on each of
    [texts] in turn, and the buffers it returned. *)
Fixpoint alloc_texts (B : gmap positive Z) (texts : list string)
  : gmap positive Z * list cbuf :=
  match texts with
  | [] => (B, [])
  | t :: rest =>
      let p := fresh (dom B) in
      let r := alloc_texts (<[p := Z.of_nat (String.length t) + 1]> B) rest in
      (fst r, {| c_ptr := p; c_bytes := String.append t (zeros 1) |} :: snd r)
  end.

(** The bytes a buffer holds, terminator included. *)
Definition buf_size (b : cbuf) : Z := Z.of_nat (String.length (c_bytes b)).

(** The block table once each of [bufs] has been freed. *)
Definition drop_blocks (bufs : list cbuf) (B : gmap positive Z)
  : gmap positive Z :=
  fold_right (fun b acc => delete (c_ptr b) acc) B bufs.

(** * Proofs *)

(** ** Running the monad *)

Lemma bind_ok {A B} (m : M A) (k : A -> M B) s a s' :
  m s = Ok a s' -> bind m k s = k a s'.
Proof. intros H. unfold bind. now rewrite H. Qed.

Lemma bind_fault {A B} (m : M A) (k : A -> M B) s f :
  m s = Fault f -> bind m k s = Fault f.
Proof. intros H. unfold bind. now rewrite H. Qed.

Lemma host_idle {A} (d : A) (m : M A) s :
  pending s = None -> host d m s = m s.
Proof. intros H. unfold host. now rewrite H. Qed.

Lemma host_busy {A} (d : A) (m : M A) s :
  pending s <> None -> host d m s = Ok d s.
Proof. intros H. unfold host. destruct (pending s); congruence. Qed.

(** Record eta for states, in the shapes the updates produce. *)
Lemma set_heap_same s : set_heap (blocks s) (avail s) s = s.
Proof. now destruct s. Qed.

Lemma set_refs_same s : set_refs (refs s) s = s.
Proof. now destruct s. Qed.

Lemma set_o_same s : set_o (o s) s = s.
Proof. now destruct s. Qed.

Lemma string_length_append a b :
  String.length (String.append a b) = (String.length a + String.length b)%nat.
Proof. induction a as [|c a IH]; simpl; [reflexivity | now rewrite IH]. Qed.

Lemma substring_prefix a b :
  substring 0 (String.length a) (String.append a b) = a.
Proof.
  induction a as [|c a IH]; simpl.
  - now destruct b.
  - now rewrite IH.
Qed.

Lemma take_chars_all text :
  take_chars (Z.of_nat (String.length text)) text = text.
Proof.
  unfold take_chars. rewrite Nat2Z.id.
  induction text as [|c a IH]; simpl; [reflexivity | now rewrite IH].
Qed.

Lemma take_chars_terminated text :
  take_chars (Z.of_nat (String.length text) + 1 - 1)
             (String.append text (zeros 1)) = text.
Proof.
  unfold take_chars.
  replace (Z.of_nat (String.length text) + 1 - 1)
    with (Z.of_nat (String.length text)) by lia.
  rewrite Nat2Z.id. apply substring_prefix.
Qed.

(** ** Host primitives while no exit is pending *)

Section Idle.

Variable s : state.
Hypothesis idle : pending s = None.

Lemma intern_idle name : intern name s = Ok (Some (VSymbol name)) s.
Proof. unfold intern. now rewrite host_idle. Qed.

Lemma make_string_idle chars len :
  make_string chars len s = Ok (Some (VString (take_chars len chars))) s.
Proof. unfold make_string. now rewrite host_idle. Qed.

Lemma make_integer_idle n : make_integer n s = Ok (Some (VInteger n)) s.
Proof. unfold make_integer. now rewrite host_idle. Qed.

Lemma type_of_idle x :
  type_of (Some x) s = Ok (Some (VSymbol (type_name x))) s.
Proof. unfold type_of. now rewrite host_idle. Qed.

Lemma eq_idle n1 n2 :
  env_eq (Some (VSymbol n1)) (Some (VSymbol n2)) s = Ok (n1 =? n2)%string s.
Proof. unfold env_eq. now rewrite host_idle. Qed.

Lemma econs_idle a d : econs (Some a) (Some d) s = Ok (Some (VCons a d)) s.
Proof.
  unfold econs. rewrite (bind_ok _ _ _ _ _ (intern_idle "cons")).
  unfold funcall. now rewrite host_idle.
Qed.

Lemma ecar_idle a d : ecar (Some (VCons a d)) s = Ok (Some a) s.
Proof.
  unfold ecar. rewrite (bind_ok _ _ _ _ _ (intern_idle "car")).
  unfold funcall. now rewrite host_idle.
Qed.

Lemma ecdr_idle a d : ecdr (Some (VCons a d)) s = Ok (Some d) s.
Proof.
  unfold ecdr. rewrite (bind_ok _ _ _ _ _ (intern_idle "cdr")).
  unfold funcall. now rewrite host_idle.
Qed.

Lemma ethrow_idle message :
  ethrow message s =
  Ok tt (set_pending
           (Some (VSymbol "error",
                  VCons (VString (take_chars (strlen message) message))
                        enil_value)) s).
Proof.
  unfold ethrow.
  rewrite (bind_ok _ _ _ _ _ (make_string_idle _ _)).
  rewrite (bind_ok _ _ _ _ _ (intern_idle "list")).
  unfold funcall at 1. unfold bind at 1. rewrite host_idle by exact idle.
  cbn -[take_chars strlen].
  rewrite (bind_ok _ _ _ _ _ (intern_idle "error")).
  unfold non_local_exit_signal. now rewrite host_idle.
Qed.

Lemma probe_idle text :
  copy_string_contents (Some (VString text)) NULL 0 s =
  Ok (true, NULL, Z.of_nat (String.length text) + 1) s.
Proof. unfold copy_string_contents. now rewrite host_idle. Qed.

End Idle.

(** ** States are equal when their fields are *)

Lemma state_ext (s1 s2 : state) :
  pending s1 = pending s2 -> blocks s1 = blocks s2 -> avail s1 = avail s2 ->
  refs s1 = refs s2 -> query s1 = query s2 ->
  exception_term s1 = exception_term s2 -> program s1 = program s2 ->
  o s1 = o s2 -> s1 = s2.
Proof. destruct s1, s2; simpl; intros; subst; reflexivity. Qed.

Ltac state_eq := apply state_ext; simpl; try reflexivity; try lia.

(** ** The heap *)

Lemma fresh_block (b : gmap positive Z) : b !! fresh (dom b) = None.
Proof. apply not_elem_of_dom, is_fresh. Qed.

Lemma malloc_fits n s :
  n <= avail s ->
  malloc n s =
  Ok (Some (fresh (dom (blocks s))))
     (set_heap (<[fresh (dom (blocks s)) := n]> (blocks s)) (avail s - n) s).
Proof.
  intros H. unfold malloc.
  destruct (Z.leb_spec n (avail s)); [reflexivity | lia].
Qed.

Lemma malloc_full n s : avail s < n -> malloc n s = Ok NULL s.
Proof.
  intros H. unfold malloc.
  destruct (Z.leb_spec n (avail s)); [lia | reflexivity].
Qed.

Lemma free_live p n s :
  blocks s !! p = Some n ->
  free p s = Ok tt (set_heap (delete p (blocks s)) (avail s + n) s).
Proof. intros H. unfold free. now rewrite H. Qed.

(** ** Term references *)

Lemma put_term_valid s t tm :
  valid_ref s t ->
  put_term t tm s = Ok TRUE (set_refs (<[pred t := tm]> (refs s)) s).
Proof.
  intros [H1 H2]. destruct t as [|i]; [lia|]. simpl.
  destruct (Nat.ltb_spec i (length (refs s))); [reflexivity | lia].
Qed.

Lemma get_term_valid s t tm :
  deref s t = Some tm -> get_term t s = Ok tm s.
Proof. intros H. unfold get_term. now rewrite H. Qed.

Lemma new_term_ref_run s :
  PL_new_term_ref s =
  Ok (S (length (refs s))) (set_refs (refs s ++ [TVariable]) s).
Proof. reflexivity. Qed.

(** ** String transfer *)

Lemma estring_to_cstring_string s text :
  pending s = None ->
  Z.of_nat (String.length text) + 1 <= avail s ->
  let len := Z.of_nat (String.length text) + 1 in
  let p := fresh (dom (blocks s)) in
  estring_to_cstring (Some (VString text)) s =
  Ok (Some {| c_ptr := p; c_bytes := String.append text (zeros 1) |}, len)
     (set_heap (<[p := len]> (blocks s)) (avail s - len) s).
Proof.
  intros idle room len p. unfold estring_to_cstring.
  rewrite (bind_ok _ _ _ _ _ (probe_idle s idle text)). cbn [fst snd negb].
  rewrite (bind_ok _ _ _ _ _ (malloc_fits _ s room)).
  fold len p. unfold copy_string_contents.
  unfold bind at 1. rewrite host_idle by exact idle.
  cbn [bind arg ret memset0 c_ptr]. fold len.
  rewrite Z.ltb_irrefl. reflexivity.
Qed.

Lemma estring_to_pstring_string s text t :
  pending s = None ->
  Z.of_nat (String.length text) + 1 <= avail s ->
  valid_ref s t ->
  estring_to_pstring (Some (VString text)) t s =
  Ok TRUE (set_refs (<[pred t := TString text]> (refs s)) s).
Proof.
  intros idle room valid. unfold estring_to_pstring.
  rewrite (bind_ok _ _ _ _ _ (estring_to_cstring_string s text idle room)).
  cbn [fst snd c_bytes c_ptr]. unfold PL_put_string_nchars.
  rewrite take_chars_terminated.
  erewrite bind_ok; [| apply put_term_valid; exact valid].
  erewrite bind_ok; [| apply free_live; simpl; apply lookup_insert_eq].
  unfold ret. f_equal. state_eq.
  apply delete_insert_id, fresh_block.
Qed.

(** ** Value to term *)

Lemma value_to_term_eq v t :
  value_to_term v t =
  (vt <- type_of (Some v) ;;
   nn <- is_not_nil (Some v) ;;
   if nn then
     ty <- intern "string" ;;
     is_string <- env_eq vt ty ;;
     if is_string then value_to_term_string (Some v) t
     else
       ty <- intern "integer" ;;
       is_integer <- env_eq vt ty ;;
       if is_integer then value_to_term_integer (Some v) t
       else
         ty <- intern "cons" ;;
         is_cons <- env_eq vt ty ;;
         if is_cons then value_to_term_list value_to_term v t
         else ret (-1)
   else PL_put_nil t).
Proof. destruct v; reflexivity. Qed.

Lemma is_not_nil_idle s x :
  pending s = None ->
  is_not_nil (Some x) s =
  Ok match x with
     | VSymbol name => negb (name =? "nil")%string
     | _ => true
     end s.
Proof. intros idle. unfold is_not_nil. now rewrite host_idle. Qed.

(** One test of the type symbol against an interned name. *)
Ltac type_test s idle name :=
  rewrite (bind_ok _ _ _ _ _ (intern_idle s idle name));
  rewrite (bind_ok _ _ _ _ _ (eq_idle s idle _ _));
  match goal with
  | |- context [String.eqb ?a ?b] =>
      let r := eval vm_compute in (String.eqb a b) in
      change (String.eqb a b) with r
  end;
  cbv iota.

(** The dispatch of [value_to_term] on the type symbol, once for all. *)
Lemma value_to_term_dispatch s v t :
  pending s = None ->
  value_to_term v t s =
  match v with
  | VSymbol name => if (name =? "nil")%string then PL_put_nil t s else Ok (-1) s
  | VString _ => value_to_term_string (Some v) t s
  | VInteger _ => value_to_term_integer (Some v) t s
  | VFloat => Ok (-1) s
  | VCons _ _ => value_to_term_list value_to_term v t s
  end.
Proof.
  intros idle. rewrite value_to_term_eq.
  rewrite (bind_ok _ _ _ _ _ (type_of_idle s idle v)).
  rewrite (bind_ok _ _ _ _ _ (is_not_nil_idle s v idle)).
  destruct v as [name | text | i | | a d]; simpl type_name.
  - destruct (name =? "nil")%string; [reflexivity|]. cbn [negb].
    type_test s idle "string". type_test s idle "integer".
    type_test s idle "cons". reflexivity.
  - type_test s idle "string". reflexivity.
  - type_test s idle "string". type_test s idle "integer". reflexivity.
  - type_test s idle "string". type_test s idle "integer".
    type_test s idle "cons". reflexivity.
  - type_test s idle "string". type_test s idle "integer".
    type_test s idle "cons". reflexivity.
Qed.

Lemma set_refs_twice r1 r2 s : set_refs r1 (set_refs r2 s) = set_refs r1 s.
Proof. reflexivity. Qed.

(** The references after a pair has been converted: the two fresh
    references hold the components, the rest of the old ones is as before. *)
Lemma cons_refs_shape (R e1 e2 : list term) (ta td : term) :
  <[length (R ++ [TVariable]) := td]>
    (<[length R := ta]> ((R ++ [TVariable]) ++ [TVariable]) ++ e1) ++ e2
  = R ++ [ta; td] ++ e1 ++ e2.
Proof.
  rewrite <- (app_assoc R [TVariable] [TVariable]).
  rewrite (insert_app_r_alt R _ (length R)) by lia.
  rewrite Nat.sub_diag. cbn [app].
  rewrite <- (app_assoc R _ e1).
  rewrite length_app. cbn [length].
  rewrite (insert_app_r_alt R _ (length R + 1)) by lia.
  replace (length R + 1 - length R)%nat with 1%nat by lia.
  cbn. rewrite <- app_assoc. reflexivity.
Qed.

Lemma value_to_term_representable v :
  representable v = true ->
  forall s t,
    pending s = None ->
    string_room v <= avail s ->
    valid_ref s t ->
    exists extra,
      value_to_term v t s =
      Ok TRUE (set_refs (<[pred t := term_of_value v]> (refs s) ++ extra) s).
Proof.
  induction v as [name | text | i | | a IHa d IHd]; simpl representable;
    intros rep s t idle room valid;
    rewrite (value_to_term_dispatch s _ t idle).
  - rewrite rep. exists []. unfold PL_put_nil.
    rewrite (put_term_valid s t _ valid). now rewrite app_nil_r.
  - exists []. unfold value_to_term_string.
    rewrite (estring_to_pstring_string s text t idle room valid).
    now rewrite app_nil_r.
  - exists []. unfold value_to_term_integer, extract_integer.
    unfold bind at 1. rewrite host_idle by exact idle.
    cbn [bind arg ret]. rewrite rep. unfold PL_put_int64, ret.
    rewrite (put_term_valid s t _ valid). now rewrite app_nil_r.
  - discriminate.
  - apply andb_true_iff in rep as [repa repd].
    simpl in room.
    unfold value_to_term_list.
    rewrite (bind_ok _ _ _ _ _ (new_term_ref_run s)).
    rewrite (bind_ok _ _ _ _ _ (new_term_ref_run _)).
    cbn [refs set_refs]. rewrite (set_refs_twice _ _ s).
    set (R := refs s).
    set (s2 := set_refs ((R ++ [TVariable]) ++ [TVariable]) s).
    assert (idle2 : pending s2 = None) by exact idle.
    rewrite (bind_ok _ _ _ _ _ (ecar_idle s2 idle2 a d)).
    rewrite (bind_ok _ _ _ _ _ (ecdr_idle s2 idle2 a d)).
    destruct (IHa repa s2 (S (length R))) as [e1 Ha];
      [exact idle2 | simpl; lia | |].
    { unfold valid_ref, s2. simpl. rewrite !length_app. simpl. lia. }
    rewrite (bind_ok _ _ _ _ _ Ha).
    change (TRUE <? 0) with false. cbv iota.
    unfold s2. cbn [pred refs set_refs]. rewrite (set_refs_twice _ _ s).
    set (s3 := set_refs _ s).
    destruct (IHd repd s3 (S (length (R ++ [TVariable])))) as [e2 Hd];
      [exact idle | simpl; lia | |].
    { unfold valid_ref, s3. simpl.
      rewrite !length_app, length_insert, !length_app. simpl. lia. }
    rewrite (bind_ok _ _ _ _ _ Hd).
    change (TRUE <? 0) with false. cbv iota.
    unfold s3. cbn [pred refs set_refs]. rewrite (set_refs_twice _ _ s).
    rewrite cons_refs_shape.
    unfold PL_cons_list.
    erewrite bind_ok; cycle 1.
    { apply get_term_valid. simpl.
      rewrite lookup_app_r by lia. rewrite Nat.sub_diag. reflexivity. }
    erewrite bind_ok; cycle 1.
    { apply get_term_valid. simpl.
      rewrite lookup_app_r by (rewrite length_app; simpl; lia).
      rewrite length_app. simpl.
      replace (length R + 1 - length R)%nat with 1%nat by lia. reflexivity. }
    rewrite put_term_valid; cycle 1.
    { destruct valid. unfold valid_ref. simpl. rewrite length_app. fold R in H0. lia. }
    exists ([term_of_value a; term_of_value d] ++ e1 ++ e2).
    f_equal. simpl refs.
    rewrite (set_refs_twice _ _ s). f_equal.
    destruct valid. fold R in H0.
    rewrite insert_app_l by lia. reflexivity.
Qed.

(** ** Term to value *)

Lemma list_refs_shape (R : list term) (a b : term) :
  <[length (R ++ [TVariable]) := b]>
    (<[length R := a]> ((R ++ [TVariable]) ++ [TVariable]))
  = R ++ [a; b].
Proof.
  rewrite <- (app_assoc R [TVariable] [TVariable]).
  rewrite (insert_app_r_alt R _ (length R)) by lia.
  rewrite Nat.sub_diag. cbn [app].
  rewrite length_app. cbn [length].
  rewrite (insert_app_r_alt R _ (length R + 1)) by lia.
  replace (length R + 1 - length R)%nat with 1%nat by lia.
  reflexivity.
Qed.

Lemma term_to_value_plain t :
  plain t = true ->
  forall s,
    pending s = None ->
    exists extra,
      term_to_value t s =
      Ok (Some (value_of_term t)) (set_refs (refs s ++ extra) s).
Proof.
  induction t as [ | text | text | i | | | head IHh tail IHt | name args | | | tag];
    simpl plain; intros Hplain s idle;
    try (exists []; rewrite app_nil_r, set_refs_same; simpl;
         first [ apply intern_idle; exact idle ]).
  - (* atom *)
    exists []. rewrite app_nil_r, set_refs_same.
    simpl. unfold term_to_value_atom. simpl.
    rewrite (bind_ok _ _ _ _ _ (make_string_idle s idle _ _)).
    rewrite (bind_ok _ _ _ _ _ (intern_idle s idle "atom")).
    rewrite take_chars_all. apply econs_idle, idle.
  - (* string *)
    exists []. rewrite app_nil_r, set_refs_same.
    simpl. unfold term_to_value_string. simpl.
    rewrite make_string_idle by exact idle. now rewrite take_chars_all.
  - (* integer *)
    exists []. rewrite app_nil_r, set_refs_same.
    simpl. unfold term_to_value_integer. simpl. rewrite Hplain.
    apply make_integer_idle, idle.
  - (* list pair *)
    apply andb_true_iff in Hplain as [Hh Ht].
    change (term_to_value (TListPair head tail))
      with (term_to_value_list term_to_value (TListPair head tail)).
    unfold term_to_value_list.
    rewrite (bind_ok _ _ _ _ _ (new_term_ref_run s)).
    rewrite (bind_ok _ _ _ _ _ (new_term_ref_run _)).
    cbn [refs set_refs]. rewrite (set_refs_twice _ _ s).
    set (R := refs s).
    erewrite bind_ok; cycle 1.
    { apply put_term_valid. unfold valid_ref. simpl.
      rewrite !length_app. simpl. lia. }
    cbn [pred refs set_refs]. rewrite (set_refs_twice _ _ s).
    erewrite bind_ok; cycle 1.
    { apply put_term_valid. unfold valid_ref. simpl.
      rewrite length_insert, !length_app. simpl. lia. }
    cbn [pred refs set_refs]. rewrite (set_refs_twice _ _ s).
    rewrite list_refs_shape.
    destruct (IHh Hh (set_refs (R ++ [head; tail]) s) idle) as [e1 H1].
    rewrite (bind_ok _ _ _ _ _ H1).
    cbn [refs set_refs]. rewrite (set_refs_twice _ _ s).
    destruct (IHt Ht (set_refs ((R ++ [head; tail]) ++ e1) s) idle) as [e2 H2].
    rewrite (bind_ok _ _ _ _ _ H2).
    cbn [refs set_refs]. rewrite (set_refs_twice _ _ s).
    rewrite econs_idle by exact idle.
    exists ([head; tail] ++ e1 ++ e2). simpl value_of_term.
    rewrite <- !app_assoc. reflexivity.
  - discriminate.
Qed.



(** ** The round trip over the common subset *)



(** ** The length convention of string transfer *)

(** C8. For a host string of [n] bytes the length probe reports [n + 1]:
    the bytes and one terminator slot.  [estring_to_cstring] returns that
    length with a buffer holding the bytes followed by a zero, and
    [estring_to_pstring] builds the string term from [length - 1]
    characters of the buffer, which are exactly the bytes of the string. *)
Theorem string_length_convention s text t :
  pending s = None ->
  Z.of_nat (String.length text) + 1 <= avail s ->
  valid_ref s t ->
  exists buf len s1 s2,
    copy_string_contents (Some (VString text)) NULL 0 s = Ok (true, NULL, len) s /\
    len = Z.of_nat (String.length text) + 1 /\
    estring_to_cstring (Some (VString text)) s = Ok (Some buf, len) s1 /\
    c_bytes buf = String.append text (String Ascii.zero EmptyString) /\
    estring_to_pstring (Some (VString text)) t s = Ok TRUE s2 /\
    deref s2 t = Some (TString (take_chars (len - 1) (c_bytes buf))) /\
    Z.of_nat (String.length (take_chars (len - 1) (c_bytes buf))) = len - 1 /\
    take_chars (len - 1) (c_bytes buf) = text.
Proof.
  intros idle room valid.
  pose proof (estring_to_cstring_string s text idle room) as Hc.
  cbv zeta in Hc.
  eexists _, _, _, _.
  split; [apply probe_idle; exact idle|].
  split; [reflexivity|].
  split; [exact Hc|].
  split; [reflexivity|].
  split; [apply estring_to_pstring_string; assumption|].
  cbn [c_bytes]. rewrite take_chars_terminated.
  split; [| split; [lia | reflexivity]].
  destruct valid as [H1 H2]. destruct t as [|i]; [lia|]. simpl.
  apply list_lookup_insert_eq. lia.
Qed.

Lemma string_length_convention_witness :
  exists buf len s1 s2,
    copy_string_contents (Some (VString "ab")) NULL 0
      (set_refs [TVariable] boot) = Ok (true, NULL, len) (set_refs [TVariable] boot) /\
    len = 3 /\
    estring_to_cstring (Some (VString "ab")) (set_refs [TVariable] boot)
      = Ok (Some buf, len) s1 /\
    c_bytes buf = String.append "ab" (String Ascii.zero EmptyString) /\
    estring_to_pstring (Some (VString "ab")) 1%nat (set_refs [TVariable] boot)
      = Ok TRUE s2 /\
    deref s2 1%nat = Some (TString (take_chars (len - 1) (c_bytes buf))) /\
    Z.of_nat (String.length (take_chars (len - 1) (c_bytes buf))) = len - 1 /\
    take_chars (len - 1) (c_bytes buf) = "ab".
Proof.
  apply (string_length_convention (set_refs [TVariable] boot) "ab" 1%nat).
  - reflexivity.
  - vm_compute. discriminate.
  - unfold valid_ref. simpl. lia.
Defined.

(** ** Compound terms *)

Lemma make_string_total chars len s :
  exists v, make_string chars len s = Ok v s.
Proof.
  unfold make_string, host. destruct (pending s); eexists; reflexivity.
Qed.

Lemma store_slot_bytes vals n v vals' s s' :
  store_slot vals n v s = Ok vals' s' -> va_bytes vals' = va_bytes vals.
Proof.
  unfold store_slot. destruct (in_block vals n); [|discriminate].
  unfold ret. intros H. injection H as <- _. reflexivity.
Qed.

Lemma store_slot_outside vals n v s :
  va_bytes vals < sizeof_emacs_value * (Z.of_nat n + 1) ->
  store_slot vals n v s = Fault HeapOverflow.
Proof.
  intros H. unfold store_slot, in_block.
  destruct (Z.leb_spec (sizeof_emacs_value * (Z.of_nat n + 1)) (va_bytes vals));
    [lia | reflexivity].
Qed.

(** The loop stores its last value in the slot of index [arity]; with
    fewer than [sizeof(emacs_value) * (arity + 1)] bytes in the block that
    store is outside it, so the loop never runs to completion. *)
Lemma fill_vals_overflows (conv : term -> M emacs_value) arg args :
  args <> [] ->
  forall n vals s,
    va_bytes vals
      < sizeof_emacs_value * (Z.of_nat n + Z.of_nat (length args)) ->
    exists f, fill_vals conv arg args n vals s = Fault f.
Proof.
  induction args as [|a rest IH]; [congruence|].
  intros _ n vals s Hsmall. cbn [fill_vals].
  destruct (put_term arg a s) as [r1 s1|f1] eqn:Hput;
    [rewrite (bind_ok _ _ _ _ _ Hput)
    | rewrite (bind_fault _ _ _ _ Hput); eauto].
  destruct (conv a s1) as [v s2|f2] eqn:Hconv;
    [rewrite (bind_ok _ _ _ _ _ Hconv)
    | rewrite (bind_fault _ _ _ _ Hconv); eauto].
  destruct (store_slot vals n v s2) as [vals' s3|f3] eqn:Hstore;
    [rewrite (bind_ok _ _ _ _ _ Hstore)
    | rewrite (bind_fault _ _ _ _ Hstore); eauto].
  destruct rest as [|b rest'].
  - rewrite store_slot_outside in Hstore; [discriminate|].
    cbn [length] in Hsmall. lia.
  - apply IH; [congruence|].
    rewrite (store_slot_bytes _ _ _ _ _ _ Hstore).
    cbn [length] in *. lia.
Qed.

Lemma term_to_value_compound_eq name args :
  term_to_value (TCompound name args) =
  term_to_value_compound term_to_value (TCompound name args).
Proof. reflexivity. Qed.

Lemma compound_no_value name args s :
  returns_value (term_to_value (TCompound name args) s) = false.
Proof.
  rewrite term_to_value_compound_eq. unfold term_to_value_compound.
  rewrite (bind_ok _ _ _ _ _ (new_term_ref_run s)).
  set (s1 := set_refs _ s).
  unfold malloc at 1. unfold bind at 1.
  destruct (vals_size (Z.of_nat (length args)) <=? avail s1).
  - set (s2 := set_heap _ _ s1). set (p := fresh _).
    destruct (make_string_total name (Z.of_nat (String.length name)) s2)
      as [str Hstr].
    rewrite (bind_ok _ _ _ _ _ Hstr).
    destruct (store_slot (memset_vals p (vals_size (Z.of_nat (length args))))
                0 str s2) as [vals s3|f] eqn:Hstore;
      [rewrite (bind_ok _ _ _ _ _ Hstore)
      | rewrite (bind_fault _ _ _ _ Hstore); reflexivity].
    destruct args as [|a rest].
    + rewrite store_slot_outside in Hstore; [discriminate|].
      vm_compute. reflexivity.
    + destruct (fill_vals_overflows term_to_value (S (length (refs s)))
                  (a :: rest) ltac:(congruence) 1%nat vals s3) as [f Hf].
      { rewrite (store_slot_bytes _ _ _ _ _ _ Hstore).
        cbn [memset_vals va_bytes]. unfold vals_size, sizeof_emacs_value. lia. }
      rewrite (bind_fault _ _ _ _ Hf). reflexivity.
  - unfold NULL. cbv beta iota.
    destruct (ethrow "malloc failed" s1) as [u s2|f] eqn:Hthrow;
      [rewrite (bind_ok _ _ _ _ _ Hthrow)
      | rewrite (bind_fault _ _ _ _ Hthrow)]; reflexivity.
Qed.

(** C6. On a compound term of arity N the conversion does not return the
    list of N + 1 elements: the array it fills has room for N elements
    and one byte, the store into the slot of index N lies outside the
    block, and so no compound term is ever converted to a host value; on
    [f(1)] the conversion stops at that store. *)
Theorem compound_never_converted :
  (forall name args s,
      returns_value (term_to_value (TCompound name args) s) = false) /\
  term_to_value (TCompound "f" [TInteger 1]) boot = Fault HeapOverflow.
Proof.
  split.
  - apply compound_no_value.
  - vm_compute. reflexivity.
Qed.

(** C7. The block of [vals] is asked for with
    [sizeof(emacs_value)*arity + 1] bytes, one byte more than [arity]
    elements and not [arity + 1] elements: the zero fill covers [arity]
    whole slots, the slot of index [arity] is not inside the block, and
    for [f(1)] a heap with 9 free bytes serves the request (the
    conversion then overruns the block) while one with 8 does not. *)
Theorem vals_block_too_small :
  (forall p (arity : nat),
      let vals := memset_vals p (vals_size (Z.of_nat arity)) in
      va_bytes vals < sizeof_emacs_value * (Z.of_nat arity + 1) /\
      va_slots vals = replicate arity NULL /\
      in_block vals arity = false) /\
  term_to_value (TCompound "f" [TInteger 1]) (loaded 9 pair_program)
    = Fault HeapOverflow /\
  term_to_value (TCompound "f" [TInteger 1]) (loaded 8 pair_program)
    = Ok NULL
        (set_pending
           (Some (VSymbol "error",
                  VCons (VString "malloc failed") (VSymbol "nil")))
           (set_refs [TVariable] (loaded 8 pair_program))).
Proof.
  split; [| split; vm_compute; reflexivity].
  intros p arity vals. unfold vals, memset_vals, in_block, vals_size,
    sizeof_emacs_value. cbn [va_bytes va_slots].
  split; [lia|]. split.
  - f_equal. rewrite Z.mul_comm, Z.div_add_l by lia.
    change (1 / 8) with 0. lia.
  - destruct (Z.leb_spec (8 * (Z.of_nat arity + 1)) (8 * Z.of_nat arity + 1));
      [lia | reflexivity].
Qed.

(** C5. A float term is converted by the blob case: it comes out as the
    symbol [blob], the same value a blob term gives, not as [float]. *)
Theorem float_converts_to_blob :
  term_to_value TFloat boot = Ok (Some (VSymbol "blob")) boot /\
  term_to_value TBlob boot = Ok (Some (VSymbol "blob")) boot /\
  (forall s, term_to_value TFloat s = term_to_value TBlob s).
Proof. repeat split. Qed.

(** ** Integers beyond 64 bits *)

(** C9, the claim as stated fails: an integer term that does not fit 64
    bits is converted to NULL, no host value, and nothing is signalled. *)
Lemma big_integer_not_converted :
  term_to_value (TInteger (2 ^ 63)) boot = Ok NULL boot /\
  returns_value (term_to_value (TInteger (2 ^ 63)) boot) = false.
Proof. split; vm_compute; reflexivity. Qed.

(** C9, amended. The conversion is a function of the term: every term
    that has no compound sub-term and whose integers fit 64 bits has one
    host value that [term_to_value] returns from every state without a
    pending exit, leaving none pending, so that converting the term
    again gives an equal value; for a term of unknown type that value
    is the symbol [unconvertable].  An integer term that does not fit 64
    bits is converted to NULL: no value, and no error. *)
Theorem plain_terms_converted t :
  (plain t = true ->
   exists v,
     (forall s, pending s = None ->
                exists s', term_to_value t s = Ok (Some v) s' /\
                           pending s' = None) /\
     (forall tag, t = TUnknown tag -> v = VSymbol "unconvertable")) /\
  (forall i, t = TInteger i -> fits_int64 i = false ->
             forall s, term_to_value t s = Ok NULL s).
Proof.
  split.
  - intros Hplain. exists (value_of_term t). split.
    + intros s idle.
      destruct (term_to_value_plain t Hplain s idle) as [extra H].
      eexists. split; [exact H | exact idle].
    + intros tag ->. reflexivity.
  - intros i -> Hbig s. cbn [term_to_value PL_term_type].
    unfold term_to_value_integer, PL_get_int64. now rewrite Hbig.
Qed.

Lemma plain_terms_converted_witness :
  exists v,
    (forall s, pending s = None ->
               exists s',
                 term_to_value (TListPair (TUnknown 42) (TAtom "a")) s
                 = Ok (Some v) s' /\
                 pending s' = None) /\
    (forall tag, TListPair (TUnknown 42) (TAtom "a") = TUnknown tag ->
                 v = VSymbol "unconvertable").
Proof.
  apply (plain_terms_converted (TListPair (TUnknown 42) (TAtom "a"))).
  reflexivity.
Defined.

(** ** Computations that leave a part of the state alone *)

Lemma commutes_ret {A} upd (a : A) : commutes upd (ret a).
Proof. intros s. reflexivity. Qed.

Lemma commutes_crash {A} upd f : commutes upd (@crash A f).
Proof. intros s. reflexivity. Qed.

Lemma commutes_bind {A B} upd (m : M A) (k : A -> M B) :
  commutes upd m -> (forall a, commutes upd (k a)) -> commutes upd (bind m k).
Proof.
  intros Hm Hk s. unfold bind. rewrite Hm.
  destruct (m s) as [a s'|f]; simpl; [apply Hk | reflexivity].
Qed.

Create HintDb commute.

Ltac commute_step :=
  first
    [ solve [auto with commute]
    | apply commutes_ret
    | apply commutes_crash
    | apply commutes_bind; [| intro]
    | match goal with
      | |- commutes _ (match ?x with _ => _ end) => destruct x
      | |- commutes _ (let _ := _ in _) => cbv zeta
      end ].

Ltac commute := repeat commute_step.

Section Foreign_updates.

Context (upd : state -> state) `{!Foreign upd}.

Lemma commutes_host {A} (d : A) (m : M A) :
  commutes upd m -> commutes upd (host d m).
Proof.
  intros Hm s. unfold host. rewrite foreign_pending.
  destruct (pending s); [reflexivity | apply Hm].
Qed.

Lemma commutes_set_pending x : commutes upd (modify (set_pending x)).
Proof. intros s. unfold modify. simpl. now rewrite foreign_set_pending. Qed.

Lemma commutes_arg v : commutes upd (arg v).
Proof. destruct v; simpl; commute. Qed.

Hint Resolve commutes_host commutes_set_pending commutes_arg : commute.

Lemma commutes_args_of vs : commutes upd (args_of vs).
Proof. induction vs; simpl; commute. Qed.

Lemma commutes_host_signal {A} sym data (d : A) :
  commutes upd (host_signal sym data d).
Proof. unfold host_signal. commute. Qed.

Hint Resolve commutes_args_of commutes_host_signal : commute.

Lemma commutes_intern name : commutes upd (intern name).
Proof. unfold intern. apply commutes_host. commute. Qed.

Lemma commutes_make_string chars len : commutes upd (make_string chars len).
Proof. unfold make_string. apply commutes_host. commute. Qed.

Lemma commutes_make_integer n : commutes upd (make_integer n).
Proof. unfold make_integer. apply commutes_host. commute. Qed.

Lemma commutes_type_of v : commutes upd (type_of v).
Proof. unfold type_of. apply commutes_host. commute. Qed.

Lemma commutes_is_not_nil v : commutes upd (is_not_nil v).
Proof. unfold is_not_nil. apply commutes_host. commute. Qed.

Lemma commutes_eq a b : commutes upd (env_eq a b).
Proof. unfold env_eq. apply commutes_host. commute. Qed.

Lemma commutes_extract_integer v : commutes upd (extract_integer v).
Proof. unfold extract_integer. apply commutes_host. commute. Qed.

Lemma commutes_non_local_exit_signal sym data :
  commutes upd (non_local_exit_signal sym data).
Proof. unfold non_local_exit_signal. apply commutes_host. commute. Qed.

Lemma commutes_apply_function fn xs : commutes upd (apply_function fn xs).
Proof. unfold apply_function. commute. Qed.

Hint Resolve commutes_intern commutes_make_string commutes_make_integer
  commutes_type_of commutes_is_not_nil commutes_eq commutes_extract_integer
  commutes_non_local_exit_signal commutes_apply_function : commute.

Lemma commutes_funcall f args : commutes upd (funcall f args).
Proof. unfold funcall. apply commutes_host. commute. Qed.

Hint Resolve commutes_funcall : commute.

Lemma commutes_econs a d : commutes upd (econs a d).
Proof. unfold econs. commute. Qed.

Lemma commutes_ecar v : commutes upd (ecar v).
Proof. unfold ecar. commute. Qed.

Lemma commutes_ecdr v : commutes upd (ecdr v).
Proof. unfold ecdr. commute. Qed.

Lemma commutes_ethrow message : commutes upd (ethrow message).
Proof. unfold ethrow. commute. Qed.

Lemma commutes_enil : commutes upd enil.
Proof. unfold enil. commute. Qed.

Lemma commutes_et : commutes upd et.
Proof. unfold et. commute. Qed.

Lemma commutes_malloc n : commutes upd (malloc n).
Proof.
  intros s. unfold malloc. rewrite foreign_avail, foreign_blocks.
  destruct (n <=? avail s); simpl; [|reflexivity].
  now rewrite foreign_set_heap.
Qed.

Lemma commutes_free p : commutes upd (free p).
Proof.
  intros s. unfold free. rewrite foreign_avail, foreign_blocks.
  destruct (blocks s !! p); simpl; [|reflexivity].
  now rewrite foreign_set_heap.
Qed.

Lemma commutes_copy_string_contents v buf len :
  commutes upd (copy_string_contents v buf len).
Proof. unfold copy_string_contents. apply commutes_host. commute. Qed.

Lemma commutes_get_term t : commutes upd (get_term t).
Proof.
  intros s. unfold get_term, deref. destruct t as [|i]; [reflexivity|].
  rewrite foreign_refs. destruct (refs s !! i); reflexivity.
Qed.

Lemma commutes_put_term t tm : commutes upd (put_term t tm).
Proof.
  intros s. unfold put_term. destruct t as [|i]; [reflexivity|].
  rewrite foreign_refs. destruct (Nat.ltb i (length (refs s))); simpl;
    [|reflexivity].
  now rewrite foreign_set_refs.
Qed.

Lemma commutes_new_term_refs n : commutes upd (PL_new_term_refs n).
Proof.
  intros s. unfold PL_new_term_refs. rewrite foreign_refs. simpl.
  now rewrite foreign_set_refs.
Qed.

Hint Resolve commutes_econs commutes_ecar commutes_ecdr commutes_ethrow
  commutes_enil commutes_et commutes_malloc commutes_free
  commutes_copy_string_contents commutes_get_term commutes_put_term
  commutes_new_term_refs : commute.

Lemma commutes_new_term_ref : commutes upd PL_new_term_ref.
Proof. apply commutes_new_term_refs. Qed.

Lemma commutes_cons_list l h t : commutes upd (PL_cons_list l h t).
Proof. unfold PL_cons_list. commute. Qed.

Lemma commutes_estring_to_cstring v : commutes upd (estring_to_cstring v).
Proof. unfold estring_to_cstring. commute. Qed.

Hint Resolve commutes_new_term_ref commutes_cons_list
  commutes_estring_to_cstring : commute.

Lemma commutes_estring_to_pstring v t : commutes upd (estring_to_pstring v t).
Proof.
  unfold estring_to_pstring, PL_put_string_nchars. commute.
Qed.

Lemma commutes_put_string_nchars t len chars :
  commutes upd (PL_put_string_nchars t len chars).
Proof. apply commutes_put_term. Qed.

Lemma commutes_put_int64 t i : commutes upd (PL_put_int64 t i).
Proof. apply commutes_put_term. Qed.

Lemma commutes_put_nil t : commutes upd (PL_put_nil t).
Proof. apply commutes_put_term. Qed.

Lemma commutes_store_slot vals n v : commutes upd (store_slot vals n v).
Proof. unfold store_slot. commute. Qed.

Lemma commutes_load_slot vals n : commutes upd (load_slot vals n).
Proof. unfold load_slot. commute. Qed.

Hint Resolve commutes_estring_to_pstring commutes_store_slot
  commutes_load_slot : commute.

Lemma commutes_load_slots vals count :
  forall from, commutes upd (load_slots vals from count).
Proof. induction count; intros from; simpl; commute. Qed.

Hint Resolve commutes_load_slots : commute.

Lemma commutes_funcall_array f nargs vals :
  commutes upd (funcall_array f nargs vals).
Proof. unfold funcall_array. apply commutes_host. commute. Qed.

Hint Resolve commutes_funcall_array : commute.

Lemma commutes_fill_vals (conv : term -> M emacs_value) arg args :
  Forall (fun a => commutes upd (conv a)) args ->
  forall n vals, commutes upd (fill_vals conv arg args n vals).
Proof.
  induction 1 as [|a rest Ha Hrest IH]; intros n vals; simpl; commute.
Qed.

End Foreign_updates.

#[export] Hint Resolve commutes_host commutes_set_pending commutes_arg
  commutes_args_of commutes_host_signal commutes_intern commutes_make_string
  commutes_make_integer commutes_type_of commutes_is_not_nil commutes_eq
  commutes_extract_integer commutes_non_local_exit_signal
  commutes_apply_function commutes_funcall commutes_econs commutes_ecar
  commutes_ecdr commutes_ethrow commutes_enil commutes_et commutes_malloc
  commutes_free commutes_copy_string_contents commutes_get_term
  commutes_put_term commutes_new_term_refs commutes_new_term_ref
  commutes_cons_list commutes_estring_to_cstring commutes_estring_to_pstring
  commutes_store_slot commutes_load_slot commutes_load_slots
  commutes_funcall_array commutes_put_string_nchars commutes_put_int64
  commutes_put_nil : commute.

#[export] Hint Extern 1 (Foreign _) => typeclasses eauto : commute.

(** Induction on terms that reaches the arguments of compound terms. *)
Lemma term_ind_nested (P : term -> Prop) :
  P TVariable ->
  (forall text, P (TAtom text)) ->
  (forall text, P (TString text)) ->
  (forall i, P (TInteger i)) ->
  P TFloat ->
  P TNil ->
  (forall head tail, P head -> P tail -> P (TListPair head tail)) ->
  (forall name args, Forall P args -> P (TCompound name args)) ->
  P TDict ->
  P TBlob ->
  (forall tag, P (TUnknown tag)) ->
  forall t, P t.
Proof.
  intros Hvar Hatom Hstring Hint Hfloat Hnil Hpair Hcompound Hdict Hblob Hother.
  fix IH 1. intros [ | text | text | i | | | head tail | name args | | | tag].
  - exact Hvar.
  - apply Hatom.
  - apply Hstring.
  - apply Hint.
  - exact Hfloat.
  - exact Hnil.
  - apply Hpair; apply IH.
  - apply Hcompound. revert args. fix IHargs 1. intros [|a rest].
    + constructor.
    + constructor; [apply IH | apply IHargs].
  - exact Hdict.
  - exact Hblob.
  - apply Hother.
Qed.

Section Foreign_conversions.

Context (upd : state -> state) `{!Foreign upd}.

Lemma commutes_term_to_value t : commutes upd (term_to_value t).
Proof.
  induction t as [ | text | text | i | | | head tail IHh IHt
                   | name args IHargs | | | tag] using term_ind_nested;
    try (cbn [term_to_value PL_term_type];
         unfold term_to_value_variable, term_to_value_atom,
           term_to_value_string, term_to_value_integer,
           term_to_value_blob, term_to_value_dict,
           PL_get_nchars, PL_get_string_chars, PL_get_int64;
         commute; fail).
  rewrite term_to_value_compound_eq. unfold term_to_value_compound.
  commute. apply commutes_fill_vals; assumption.
Qed.

Lemma commutes_term_to_value_at t : commutes upd (term_to_value_at t).
Proof.
  unfold term_to_value_at. commute. apply commutes_term_to_value.
Qed.

Lemma commutes_value_to_term v : forall t, commutes upd (value_to_term v t).
Proof.
  induction v as [name | text | i | | a IHa d IHd]; intros t;
    rewrite value_to_term_eq;
    unfold value_to_term_string, value_to_term_integer, value_to_term_list;
    commute.
Qed.

Lemma commutes_cleanup c m f : commutes upd (cleanup c m f).
Proof. unfold cleanup. commute. Qed.

End Foreign_conversions.

#[export] Hint Resolve commutes_term_to_value commutes_term_to_value_at
  commutes_value_to_term commutes_cleanup : commute.

(** ** Query sequencing *)

Lemma current_query_run s :
  PL_current_query s = Ok (match query s with Some _ => 1 | None => 0 end) s.
Proof. reflexivity. Qed.

Lemma set_pending_twice x y s :
  set_pending x (set_pending y s) = set_pending x s.
Proof. reflexivity. Qed.

Lemma set_pending_same s : set_pending (pending s) s = s.
Proof. now destruct s. Qed.

Lemma no_query_throw s :
  pending s = None ->
  call (ethrow "No current query" ;;; ret NULL) s =
  Ok (Signaled (error_signal "No current query")) s.
Proof.
  intros idle. unfold call.
  rewrite (bind_ok _ _ _ _ _ (ethrow_idle s idle _)).
  cbn. f_equal. state_eq. now rewrite idle.
Qed.

Lemma next_solution_no_query s :
  query s = None ->
  sweep_next_solution s = (ethrow "No current query" ;;; ret NULL) s.
Proof.
  intros Hq. unfold sweep_next_solution.
  rewrite (bind_ok _ _ _ _ _ (current_query_run s)). now rewrite Hq.
Qed.

Lemma cut_query_no_query s :
  query s = None ->
  sweep_cut_query s = (ethrow "No current query" ;;; ret NULL) s.
Proof.
  intros Hq. unfold sweep_cut_query.
  rewrite (bind_ok _ _ _ _ _ (current_query_run s)). now rewrite Hq.
Qed.

Lemma close_query_no_query s :
  query s = None ->
  sweep_close_query s = (ethrow "No current query" ;;; ret NULL) s.
Proof.
  intros Hq. unfold sweep_close_query.
  rewrite (bind_ok _ _ _ _ _ (current_query_run s)). now rewrite Hq.
Qed.

Lemma call_ext (f g : M emacs_value) s : f s = g s -> call f s = call g s.
Proof. intros H. unfold call. now rewrite H. Qed.

Lemma open_query_rejected s q a0 a1 a2 a3 :
  pending s = None ->
  query s = Some q ->
  call (sweep_open_query a0 a1 a2 a3) s =
  Ok (Signaled (error_signal "Prolog is already executing a query"))
     (set_refs (refs s ++ [TVariable; TVariable]) s).
Proof.
  intros idle Hq. unfold call, sweep_open_query.
  unfold PL_new_term_refs at 1. unfold bind at 1.
  set (s1 := set_refs _ s).
  rewrite (bind_ok _ _ _ _ _ (current_query_run s1)).
  change (query s1) with (query s). rewrite Hq. cbn [Z.eqb negb].
  rewrite (bind_ok _ _ _ _ _ (ethrow_idle s1 idle _)).
  cbn. f_equal. state_eq. now rewrite idle.
Qed.

Lemma set_query_same s : set_query (query s) s = s.
Proof. now destruct s. Qed.

Lemma commutes_keeps_query {A} (m : M A) :
  (forall q, commutes (set_query q) m) ->
  forall s a s', m s = Ok a s' -> query s' = query s.
Proof.
  intros Hm s a s' Hrun.
  pose proof (Hm (query s) s) as H. rewrite set_query_same, Hrun in H.
  simpl in H. injection H as H. rewrite H. reflexivity.
Qed.

Lemma commutes_keeps_o {A} (m : M A) :
  (forall h, commutes (set_o h) m) ->
  forall s a s', m s = Ok a s' -> o s' = o s.
Proof.
  intros Hm s a s' Hrun.
  pose proof (Hm (o s) s) as H. rewrite set_o_same, Hrun in H.
  simpl in H. injection H as H. rewrite H. reflexivity.
Qed.

(** Splitting a run of [bind] that came back. *)
Lemma bind_inv {A B} (m : M A) (k : A -> M B) s b s' :
  bind m k s = Ok b s' ->
  exists a s1, m s = Ok a s1 /\ k a s1 = Ok b s'.
Proof.
  unfold bind. destruct (m s) as [a s1|f]; [eauto | discriminate].
Qed.

Lemma raise_exception_query e s u s' :
  raise_exception e s = Ok u s' -> query s' = query s.
Proof.
  unfold raise_exception. intros H.
  apply bind_inv in H as (h & s1 & H1 & H).
  apply bind_inv in H as (r & s2 & H2 & H).
  injection H1 as <- <-.
  unfold put_term in H2. cbn [refs set_refs] in H2.
  destruct (Nat.ltb _ _); [|discriminate]. injection H2 as <- <-.
  unfold modify in H. injection H as <- <-. reflexivity.
Qed.

Lemma discard_query_closes keep s rc s' :
  discard_query keep s = Ok rc s' -> query s' = None.
Proof.
  unfold discard_query. intros H.
  apply bind_inv in H as (q & s1 & H1 & H).
  apply bind_inv in H as (r & s2 & H2 & H).
  apply bind_inv in H as (u & s3 & H3 & H).
  unfold modify in H3. injection H3 as <- <-.
  destruct (q_discard q) as [e|].
  - apply bind_inv in H as (u' & s4 & H4 & H).
    injection H as <- <-.
    now rewrite (raise_exception_query _ _ _ _ H4).
  - injection H as <- <-. reflexivity.
Qed.

(** Whatever a finalizing call does after the engine call, the query
    stays closed. *)
Lemma after_discard_closed rc d s v s' :
  query s = None ->
  (if rc =? FALSE then e <- PL_exception d ;; term_to_value_at e else et) s
  = Ok v s' ->
  query s' = None.
Proof.
  intros Hq H. rewrite <- Hq.
  destruct (rc =? FALSE).
  - apply bind_inv in H as (e & s1 & H1 & H). injection H1 as <- <-.
    eapply commutes_keeps_query; [|exact H].
    intros q. apply commutes_term_to_value_at. typeclasses eauto.
  - eapply commutes_keeps_query; [|exact H].
    intros q. apply commutes_et. typeclasses eauto.
Qed.

Lemma cut_query_closes s v s' :
  query s <> None -> sweep_cut_query s = Ok v s' -> query s' = None.
Proof.
  intros Hq H. unfold sweep_cut_query in H.
  rewrite (bind_ok _ _ _ _ _ (current_query_run s)) in H.
  destruct (query s) as [q|] eqn:Eq; [|congruence]. cbn [Z.eqb] in H.
  apply bind_inv in H as (rc & s1 & H1 & H).
  apply discard_query_closes in H1.
  eapply after_discard_closed; eassumption.
Qed.

Lemma close_query_closes s v s' :
  query s <> None -> sweep_close_query s = Ok v s' -> query s' = None.
Proof.
  intros Hq H. unfold sweep_close_query in H.
  rewrite (bind_ok _ _ _ _ _ (current_query_run s)) in H.
  destruct (query s) as [q|] eqn:Eq; [|congruence]. cbn [Z.eqb] in H.
  apply bind_inv in H as (rc & s1 & H1 & H).
  apply discard_query_closes in H1.
  eapply after_discard_closed; eassumption.
Qed.

(** After any call the host is idle again; the query field is the one the
    function left. *)
Lemma call_inv (f : M emacs_value) s r s' :
  call f s = Ok r s' ->
  pending s' = None /\
  exists v s1, f s = Ok v s1 /\ query s' = query s1 /\ o s' = o s1 /\
               blocks s' = blocks s1 /\ avail s' = avail s1 /\
               refs s' = refs s1.
Proof.
  unfold call. destruct (f s) as [v s1|x]; [|discriminate].
  destruct (pending s1) as [sg|] eqn:Ep.
  - intros H. injection H as <- <-. split; [reflexivity|].
    exists v, s1. repeat split.
  - destruct v as [x|]; [|discriminate].
    intros H. injection H as <- <-. split; [exact Ep|].
    exists (Some x), s1. repeat split.
Qed.

Lemma the_query_run s q : query s = Some q -> the_query s = Ok q s.
Proof. intros H. unfold the_query. now rewrite H. Qed.

Lemma cut_query_clean s q :
  pending s = None ->
  query s = Some q ->
  q_discard q = None ->
  call sweep_cut_query s = Ok (Returned (VSymbol "t")) (set_query None s).
Proof.
  intros idle Hq Hd. unfold call, sweep_cut_query.
  rewrite (bind_ok _ _ _ _ _ (current_query_run s)). rewrite Hq.
  cbn [Z.eqb]. unfold PL_cut_query, discard_query.
  erewrite bind_ok; cycle 1.
  { rewrite (bind_ok _ _ _ _ _ (the_query_run s q Hq)).
    cbn [bind ret modify]. rewrite Hd. reflexivity. }
  change (TRUE =? FALSE) with false. cbv iota.
  unfold et. rewrite intern_idle by exact idle. cbn [pending set_query].
  now rewrite idle.
Qed.

Lemma close_query_clean s q :
  pending s = None ->
  query s = Some q ->
  q_discard q = None ->
  valid_ref s (S (q_args q)) ->
  call sweep_close_query s =
  Ok (Returned (VSymbol "t"))
     (set_query None (set_refs (<[q_args q := TVariable]> (refs s)) s)).
Proof.
  intros idle Hq Hd valid. unfold call, sweep_close_query.
  rewrite (bind_ok _ _ _ _ _ (current_query_run s)). rewrite Hq.
  cbn [Z.eqb]. unfold PL_close_query, discard_query.
  erewrite bind_ok; cycle 1.
  { rewrite (bind_ok _ _ _ _ _ (the_query_run s q Hq)).
    rewrite (bind_ok _ _ _ _ _ (put_term_valid s _ _ valid)).
    cbn [bind ret modify]. rewrite Hd. reflexivity. }
  change (TRUE =? FALSE) with false. cbv iota.
  unfold et. rewrite intern_idle by exact idle. cbn [pending set_query set_refs].
  now rewrite idle.
Qed.

(** ** A successful Open *)

Lemma c_str_terminated text :
  c_str (String.append text (zeros 1)) = c_str text.
Proof.
  induction text as [|c rest IH]; [reflexivity|].
  change (c_str (String.append (String c rest) (zeros 1)))
    with (if Ascii.eqb c Ascii.zero then EmptyString
          else String c (c_str (String.append rest (zeros 1)))).
  rewrite IH. reflexivity.
Qed.

(** Three buffers allocated one after the other and freed in the same
    order leave the block table as it was. *)
Lemma three_blocks (B : gmap positive Z) (n1 n2 n3 : Z) :
  let p1 := fresh (dom B) in
  let B1 := <[p1 := n1]> B in
  let p2 := fresh (dom B1) in
  let B2 := <[p2 := n2]> B1 in
  let p3 := fresh (dom B2) in
  let B3 := <[p3 := n3]> B2 in
  B3 !! p1 = Some n1 /\
  delete p1 B3 !! p2 = Some n2 /\
  delete p2 (delete p1 B3) !! p3 = Some n3 /\
  delete p3 (delete p2 (delete p1 B3)) = B.
Proof.
  intros p1 B1 p2 B2 p3 B3.
  pose proof (fresh_block B) as F1. fold p1 in F1.
  pose proof (fresh_block B1) as F2. fold p2 in F2.
  pose proof (fresh_block B2) as F3. fold p3 in F3.
  assert (p2 <> p1) as N21.
  { intros E. unfold B1 in F2. rewrite E, lookup_insert_eq in F2. discriminate. }
  assert (p3 <> p2) as N32.
  { intros E. unfold B2 in F3. rewrite E, lookup_insert_eq in F3. discriminate. }
  assert (p3 <> p1) as N31.
  { intros E. unfold B2, B1 in F3.
    rewrite lookup_insert_ne, E, lookup_insert_eq in F3 by congruence.
    discriminate. }
  assert (B !! p2 = None) as G2.
  { unfold B1 in F2. now rewrite lookup_insert_ne in F2 by congruence. }
  assert (B !! p3 = None) as G3.
  { unfold B2, B1 in F3. now rewrite !lookup_insert_ne in F3 by congruence. }
  unfold B3, B2, B1. repeat split.
  - rewrite !lookup_insert_ne by congruence. apply lookup_insert_eq.
  - rewrite lookup_delete_ne by congruence.
    rewrite lookup_insert_ne by congruence. apply lookup_insert_eq.
  - rewrite !lookup_delete_ne by congruence. apply lookup_insert_eq.
  - apply map_eq. intros i.
    destruct (decide (i = p3)) as [->|D3];
      [now rewrite lookup_delete_eq, G3|].
    rewrite lookup_delete_ne by congruence.
    destruct (decide (i = p2)) as [->|D2];
      [now rewrite lookup_delete_eq, G2|].
    rewrite lookup_delete_ne by congruence.
    destruct (decide (i = p1)) as [->|D1];
      [now rewrite lookup_delete_eq, F1|].
    rewrite lookup_delete_ne by congruence.
    now rewrite !lookup_insert_ne by congruence.
Qed.

Lemma string_room_nonneg v : 0 <= string_room v.
Proof. induction v; simpl; lia. Qed.

Lemma set_heap_twice b1 n1 b2 n2 s :
  set_heap b1 n1 (set_heap b2 n2 s) = set_heap b1 n1 s.
Proof. reflexivity. Qed.

Lemma open_query_succeeds s c m f v :
  pending s = None ->
  query s = None ->
  representable v = true ->
  (Z.of_nat (String.length c) + 1) + (Z.of_nat (String.length m) + 1)
    + (Z.of_nat (String.length f) + 1) + string_room v <= avail s ->
  exists s',
    sweep_open_query (VString c) (VString m) (VString f) v s
    = Ok (Some (VSymbol "t")) s' /\
    pending s' = None /\
    query s' =
      Some {| q_args := S (length (refs s));
              q_answers :=
                fst (program s (c_str c) (c_str m) (c_str f) (term_of_value v));
              q_discard :=
                snd (program s (c_str c) (c_str m) (c_str f) (term_of_value v))
           |} /\
    o s' = S (S (length (refs s))) /\
    blocks s' = blocks s /\
    avail s' = avail s /\
    exists extra, refs s' = refs s ++ [term_of_value v; TVariable] ++ extra.
Proof.
  intros idle Hq rep room.
  pose proof (string_room_nonneg v) as Hv.
  unfold sweep_open_query.
  unfold PL_new_term_refs at 1. unfold bind at 1.
  cbn [replicate].
  set (R := refs s). set (s1 := set_refs (R ++ [TVariable; TVariable]) s).
  rewrite (bind_ok _ _ _ _ _ (current_query_run s1)).
  change (query s1) with (query s). rewrite Hq. cbn [Z.eqb negb].
  (* the three names *)
  rewrite (bind_ok _ _ _ _ _
             (estring_to_cstring_string s1 c idle ltac:(simpl; lia))).
  cbn [fst snd c_bytes c_ptr].
  set (s2 := set_heap _ _ s1).
  rewrite (bind_ok _ _ _ _ _
             (estring_to_cstring_string s2 m idle ltac:(simpl; lia))).
  cbn [fst snd c_bytes c_ptr].
  set (s3 := set_heap _ _ s2).
  rewrite (bind_ok _ _ _ _ _
             (estring_to_cstring_string s3 f idle ltac:(simpl; lia))).
  cbn [fst snd c_bytes c_ptr].
  set (s4 := set_heap _ _ s3).
  (* the input value *)
  rewrite Nat.add_0_r.
  destruct (value_to_term_representable v rep s4 (S (length R)))
    as [extra Hv2]; [exact idle | simpl; lia | |].
  { unfold valid_ref. simpl. fold R. rewrite length_app. simpl. lia. }
  rewrite (bind_ok _ _ _ _ _ Hv2). change (TRUE <? 0) with false. cbv iota.
  cbn [pred refs s4 s3 s2 s1 set_heap set_refs] in *.
  set (s5 := set_refs _ s4).
  assert (Href : refs s5 = R ++ [term_of_value v; TVariable] ++ extra).
  { unfold s5. cbn [refs set_refs].
    rewrite (insert_app_r_alt R _ (length R)) by lia.
    rewrite Nat.sub_diag. cbn. now rewrite <- app_assoc. }
  (* the engine opens the query *)
  unfold PL_open_query.
  erewrite bind_ok; cycle 1.
  { erewrite bind_ok; cycle 1.
    { apply get_term_valid. unfold deref. rewrite Href.
      rewrite lookup_app_r by lia. rewrite Nat.sub_diag. reflexivity. }
    erewrite bind_ok; cycle 1.
    { apply get_term_valid. unfold deref. rewrite Href.
      rewrite lookup_app_r by lia.
      replace (S (length R) - length R)%nat with 1%nat by lia. reflexivity. }
    reflexivity. }
  rewrite Nat.add_1_r.
  unfold write_o, modify at 1. unfold bind at 1.
  (* cleanup *)
  rewrite !c_str_terminated.
  destruct (three_blocks (blocks s)
              (Z.of_nat (String.length c) + 1)
              (Z.of_nat (String.length m) + 1)
              (Z.of_nat (String.length f) + 1))
    as (L1 & L2 & L3 & Lall).
  unfold cleanup.
  erewrite bind_ok; [| apply free_live; exact L1].
  erewrite bind_ok; [| apply free_live; exact L2].
  erewrite bind_ok; [| apply free_live; exact L3].
  unfold et. rewrite intern_idle by exact idle.
  eexists. split; [reflexivity|].
  cbn [pending blocks avail refs query o set_heap set_o set_query
       set_exception_term set_refs s5 s4 s3 s2 s1 program].
  split; [exact idle|]. split; [reflexivity|]. split; [reflexivity|].
  split; [exact Lall|]. split; [lia|].
  exists extra. exact Href.
Qed.

(** C3. Query sequencing.  With no query open, Step, Cut and Close each
    signal the error "No current query".  With a query open, Open signals
    "Prolog is already executing a query" and leaves that query as it is
    (two unbound term references are all it adds); whenever Cut or Close
    comes back the query reads as closed, and an Open that follows with
    three strings, a convertible value and room for them succeeds and
    opens a query; when the engine discards the query without an
    exception Cut and Close return [t]. *)
Theorem query_protocol s :
  pending s = None ->
  match query s with
  | None =>
      call sweep_next_solution s
        = Ok (Signaled (error_signal "No current query")) s /\
      call sweep_cut_query s
        = Ok (Signaled (error_signal "No current query")) s /\
      call sweep_close_query s
        = Ok (Signaled (error_signal "No current query")) s
  | Some q =>
      (forall a0 a1 a2 a3,
          call (sweep_open_query a0 a1 a2 a3) s
          = Ok (Signaled (error_signal "Prolog is already executing a query"))
               (set_refs (refs s ++ [TVariable; TVariable]) s)) /\
      (forall r s',
          call sweep_cut_query s = Ok r s' \/
          call sweep_close_query s = Ok r s' ->
          query s' = None /\ pending s' = None /\
          forall c m f v,
            representable v = true ->
            (Z.of_nat (String.length c) + 1)
              + (Z.of_nat (String.length m) + 1)
              + (Z.of_nat (String.length f) + 1) + string_room v
              <= avail s' ->
            exists s'',
              call (sweep_open_query (VString c) (VString m) (VString f) v) s'
              = Ok (Returned (VSymbol "t")) s'' /\
              query s'' <> None) /\
      (q_discard q = None ->
       call sweep_cut_query s
       = Ok (Returned (VSymbol "t")) (set_query None s)) /\
      (q_discard q = None ->
       valid_ref s (S (q_args q)) ->
       call sweep_close_query s
       = Ok (Returned (VSymbol "t"))
            (set_query None
               (set_refs (<[q_args q := TVariable]> (refs s)) s)))
  end.
Proof.
  intros idle. destruct (query s) as [q|] eqn:Hq.
  - split; [| split; [| split]].
    + intros a0 a1 a2 a3. now apply (open_query_rejected s q).
    + intros r s' Hcall.
      assert (Hclosed : pending s' = None /\ query s' = None).
      { destruct Hcall as [Hcall|Hcall];
          apply call_inv in Hcall as (Hidle & v & s1 & Hrun & Hquery & _);
          (split; [exact Hidle|]); rewrite Hquery.
        - apply (cut_query_closes s v s1); [congruence | exact Hrun].
        - apply (close_query_closes s v s1); [congruence | exact Hrun]. }
      destruct Hclosed as [Hidle Hclosed].
      split; [exact Hclosed|]. split; [exact Hidle|].
      intros c m f v rep room.
      destruct (open_query_succeeds s' c m f v Hidle Hclosed rep room)
        as (s'' & Hopen & Hidle'' & Hquery'' & _).
      exists s''. split.
      * unfold call. now rewrite Hopen, Hidle''.
      * now rewrite Hquery''.
    + intros Hd. now apply (cut_query_clean s q).
    + intros Hd valid. now apply (close_query_clean s q).
  - split; [| split].
    + rewrite <- (no_query_throw s idle).
      apply call_ext, next_solution_no_query, Hq.
    + rewrite <- (no_query_throw s idle).
      apply call_ext, cut_query_no_query, Hq.
    + rewrite <- (no_query_throw s idle).
      apply call_ext, close_query_no_query, Hq.
Qed.

Lemma query_protocol_witness :
  (call sweep_next_solution boot
   = Ok (Signaled (error_signal "No current query")) boot) /\
  (call sweep_cut_query opened
   = Ok (Returned (VSymbol "t")) (set_query None opened)).
Proof.
  split.
  - destruct (query_protocol boot eq_refl) as (H & _). exact H.
  - destruct (query_protocol opened eq_refl) as (_ & _ & H & _).
    apply H. reflexivity.
Defined.

(** ** Step *)

(** A conversion that delivers a value leaves no exit pending. *)
Lemma host_value_idle (m : M emacs_value) s x s' :
  host NULL m s = Ok (Some x) s' -> pending s = None.
Proof.
  unfold host. destruct (pending s); [discriminate | reflexivity].
Qed.

Lemma funcall_cons_state a d s x s' :
  funcall (Some (VSymbol "cons")) [a; d] s = Ok (Some x) s' ->
  pending s' = None.
Proof.
  intros H. pose proof (host_value_idle _ _ _ _ H) as idle.
  unfold funcall in H. rewrite host_idle in H by exact idle.
  destruct a as [a|]; [|discriminate]. destruct d as [d|]; [|discriminate].
  cbn in H. injection H as _ <-. exact idle.
Qed.

Lemma econs_value_idle a d s x s' :
  econs a d s = Ok (Some x) s' -> pending s' = None.
Proof.
  unfold econs. intros H. apply bind_inv in H as (f & s1 & H1 & H).
  unfold intern, host in H1. destruct (pending s) eqn:Ep.
  - injection H1 as <- <-. unfold funcall, host in H. rewrite Ep in H.
    discriminate.
  - injection H1 as <- <-. eapply funcall_cons_state, H.
Qed.

Lemma intern_value_idle name s x s' :
  intern name s = Ok (Some x) s' -> pending s' = None.
Proof.
  unfold intern, host. destruct (pending s) eqn:Ep; [discriminate|].
  intros H. injection H as _ <-. exact Ep.
Qed.

Lemma make_value_idle (v : value) s x s' :
  host NULL (ret (Some v)) s = Ok (Some x) s' -> pending s' = None.
Proof.
  unfold host. destruct (pending s) eqn:Ep; [discriminate|].
  intros H. injection H as _ <-. exact Ep.
Qed.

Lemma term_to_value_value_idle t s x s' :
  term_to_value t s = Ok (Some x) s' -> pending s' = None.
Proof.
  destruct t as [ | text | text | i | | | head tail | name args | | | tag];
    intros H;
    try (eapply intern_value_idle; exact H).
  - (* atom *)
    cbn [term_to_value PL_term_type] in H. unfold term_to_value_atom in H.
    cbn [PL_get_nchars] in H.
    apply bind_inv in H as (str & s1 & _ & H).
    apply bind_inv in H as (a & s2 & _ & H).
    eapply econs_value_idle, H.
  - (* string *)
    eapply make_value_idle. exact H.
  - (* integer *)
    cbn [term_to_value PL_term_type] in H. unfold term_to_value_integer in H.
    destruct (PL_get_int64 (TInteger i)); [|discriminate].
    eapply make_value_idle. exact H.
  - (* list pair *)
    change (term_to_value (TListPair head tail))
      with (term_to_value_list term_to_value (TListPair head tail)) in H.
    unfold term_to_value_list in H.
    apply bind_inv in H as (ph & s1 & _ & H).
    apply bind_inv in H as (pt & s2 & _ & H).
    apply bind_inv in H as (r1 & s3 & _ & H).
    apply bind_inv in H as (r2 & s4 & _ & H).
    apply bind_inv in H as (car & s5 & _ & H).
    apply bind_inv in H as (cdr & s6 & _ & H).
    eapply econs_value_idle, H.
  - (* compound *)
    pose proof (compound_no_value name args s) as Hno.
    rewrite H in Hno. discriminate.
Qed.

Lemma next_solution_binding s q binding last rest :
  query s = Some q ->
  q_answers q = Solution binding last :: rest ->
  valid_ref s (S (q_args q)) ->
  PL_next_solution 1 s =
  Ok (if last then PL_S_LAST else PL_S_TRUE)
     (set_refs (<[q_args q := binding]> (refs s))
        (set_query (Some (set_answers rest q)) s)).
Proof.
  intros Hq Ha valid. unfold PL_next_solution.
  rewrite (bind_ok _ _ _ _ _ (the_query_run s q Hq)). rewrite Ha.
  unfold modify at 1. unfold bind at 1.
  erewrite bind_ok; [| apply put_term_valid; exact valid].
  reflexivity.
Qed.



Lemma term_to_value_at_plain s t tm :
  deref s t = Some tm ->
  plain tm = true ->
  pending s = None ->
  exists s2, term_to_value_at t s = Ok (Some (value_of_term tm)) s2.
Proof.
  intros Hd Hp idle. unfold term_to_value_at.
  rewrite (bind_ok _ _ _ _ _ (get_term_valid s t tm Hd)).
  destruct (term_to_value_plain tm Hp s idle) as [extra H]. eauto.
Qed.





(** ** Term references are never taken away *)

Lemma grows_ret {A} (a : A) : grows (ret a).
Proof. intros s b s' H. injection H as _ <-. lia. Qed.

Lemma grows_crash {A} f : grows (@crash A f).
Proof. intros s b s' H. discriminate. Qed.

Lemma grows_bind {A B} (m : M A) (k : A -> M B) :
  grows m -> (forall a, grows (k a)) -> grows (bind m k).
Proof.
  intros Hm Hk s b s' H. apply bind_inv in H as (a & s1 & H1 & H).
  specialize (Hm _ _ _ H1). specialize (Hk _ _ _ _ H). lia.
Qed.

Lemma grows_host {A} (d : A) (m : M A) : grows m -> grows (host d m).
Proof.
  intros Hm s a s' H. unfold host in H.
  destruct (pending s); [injection H as _ <-; lia | eapply Hm, H].
Qed.

(** Updates of anything but the term references. *)
Lemma grows_modify (f : state -> state) :
  (forall s, refs (f s) = refs s) -> grows (modify f).
Proof. intros Hf s a s' H. injection H as _ <-. rewrite Hf. lia. Qed.

Lemma grows_malloc n : grows (malloc n).
Proof.
  intros s a s' H. unfold malloc in H.
  destruct (n <=? avail s); injection H as _ <-; simpl; lia.
Qed.

Lemma grows_free p : grows (free p).
Proof.
  intros s a s' H. unfold free in H.
  destruct (blocks s !! p); [injection H as _ <-; simpl; lia | discriminate].
Qed.

Lemma grows_get_term t : grows (get_term t).
Proof.
  intros s a s' H. unfold get_term in H.
  destruct (deref s t); [injection H as _ <-; lia | discriminate].
Qed.

Lemma grows_put_term t tm : grows (put_term t tm).
Proof.
  intros s a s' H. unfold put_term in H. destruct t as [|i]; [discriminate|].
  destruct (Nat.ltb i (length (refs s))); [|discriminate].
  injection H as _ <-. simpl. rewrite length_insert. lia.
Qed.

Lemma grows_new_term_refs n : grows (PL_new_term_refs n).
Proof.
  intros s a s' H. injection H as _ <-. simpl. rewrite length_app. lia.
Qed.

Lemma grows_reader {A} (f : state -> A) : grows (fun s => Ok (f s) s).
Proof. intros s a s' H. injection H as _ <-. lia. Qed.

Lemma grows_the_query : grows the_query.
Proof.
  intros s a s' H. unfold the_query in H.
  destruct (query s); [injection H as _ <-; lia | discriminate].
Qed.

Create HintDb grows.

#[export] Hint Resolve grows_malloc grows_free grows_get_term grows_put_term
  grows_new_term_refs grows_the_query : grows.

Ltac grows_step :=
  first
    [ solve [auto with grows]
    | apply grows_ret
    | apply grows_crash
    | apply grows_reader
    | apply grows_modify; reflexivity
    | apply grows_host
    | apply grows_bind; [| intro]
    | match goal with
      | |- grows (match ?x with _ => _ end) => destruct x
      | |- grows (let _ := _ in _) => cbv zeta
      end ].

Ltac grows_tac := repeat grows_step.

Lemma grows_arg v : grows (arg v).
Proof. destruct v; simpl; grows_tac. Qed.

#[export] Hint Resolve grows_arg : grows.

Lemma grows_args_of vs : grows (args_of vs).
Proof. induction vs; simpl; grows_tac. Qed.

#[export] Hint Resolve grows_args_of : grows.

Lemma grows_funcall f args : grows (funcall f args).
Proof. unfold funcall, apply_function, host_signal. grows_tac. Qed.

Lemma grows_intern name : grows (intern name).
Proof. unfold intern. grows_tac. Qed.

Lemma grows_ethrow message : grows (ethrow message).
Proof.
  unfold ethrow, make_string, non_local_exit_signal.
  pose proof grows_funcall. pose proof grows_intern. grows_tac.
Qed.

#[export] Hint Resolve grows_funcall grows_intern grows_ethrow : grows.

Lemma grows_econs a d : grows (econs a d).
Proof. unfold econs. grows_tac. Qed.

Lemma grows_estring_to_cstring v : grows (estring_to_cstring v).
Proof.
  unfold estring_to_cstring, copy_string_contents, host_signal. grows_tac.
Qed.

#[export] Hint Resolve grows_econs grows_estring_to_cstring : grows.

Lemma grows_load_slots vals count :
  forall from, grows (load_slots vals from count).
Proof.
  induction count; intros from; simpl; unfold load_slot; grows_tac.
Qed.

#[export] Hint Resolve grows_load_slots : grows.

Lemma grows_fill_vals (conv : term -> M emacs_value) arg args :
  Forall (fun a => grows (conv a)) args ->
  forall n vals, grows (fill_vals conv arg args n vals).
Proof.
  induction 1 as [|a rest Ha Hrest IH]; intros n vals; simpl;
    unfold store_slot; grows_tac.
Qed.

Lemma grows_term_to_value t : grows (term_to_value t).
Proof.
  induction t as [ | text | text | i | | | head tail IHh IHt
                   | name args IHargs | | | tag] using term_ind_nested;
    try (cbn [term_to_value PL_term_type];
         unfold term_to_value_variable, term_to_value_atom,
           term_to_value_string, term_to_value_integer,
           term_to_value_blob, term_to_value_dict, enil,
           PL_get_nchars, PL_get_string_chars, PL_get_int64,
           make_string, make_integer, term_to_value_list, PL_new_term_ref;
         grows_tac; fail).
  rewrite term_to_value_compound_eq.
  unfold term_to_value_compound, PL_new_term_ref, make_string, store_slot,
    funcall_array.
  pose proof (grows_fill_vals term_to_value) as Hfill.
  grows_tac.
Qed.

#[export] Hint Resolve grows_term_to_value : grows.

Lemma grows_term_to_value_at t : grows (term_to_value_at t).
Proof. unfold term_to_value_at. grows_tac. Qed.

Lemma grows_value_to_term v : forall t, grows (value_to_term v t).
Proof.
  induction v as [name | text | i | | a IHa d IHd]; intros t;
    rewrite value_to_term_eq;
    unfold type_of, is_not_nil, env_eq, value_to_term_string,
      value_to_term_integer, value_to_term_list, estring_to_pstring,
      extract_integer, host_signal, PL_put_string_nchars, PL_put_int64,
      PL_put_nil, PL_cons_list, PL_new_term_ref, ecar, ecdr;
    grows_tac.
Qed.

Lemma grows_cleanup c m f : grows (cleanup c m f).
Proof. unfold cleanup, et. grows_tac. Qed.

#[export] Hint Resolve grows_term_to_value_at grows_value_to_term
  grows_cleanup : grows.

Lemma grows_raise_exception e : grows (raise_exception e).
Proof. unfold raise_exception, PL_new_term_ref. grows_tac. Qed.

#[export] Hint Resolve grows_raise_exception : grows.

Lemma grows_next_solution d : grows (PL_next_solution d).
Proof. unfold PL_next_solution. grows_tac. Qed.

Lemma grows_discard_query keep : grows (discard_query keep).
Proof. unfold discard_query. grows_tac. Qed.

Lemma grows_open_query ctx p a : grows (PL_open_query ctx p a).
Proof. unfold PL_open_query, the_program. grows_tac. Qed.

#[export] Hint Resolve grows_next_solution grows_discard_query
  grows_open_query : grows.

Lemma grows_sweep_next_solution : grows sweep_next_solution.
Proof.
  unfold sweep_next_solution, PL_current_query, PL_exception, read_o, et, enil.
  grows_tac.
Qed.

Lemma grows_sweep_cut_query : grows sweep_cut_query.
Proof.
  unfold sweep_cut_query, PL_cut_query, PL_current_query, PL_exception, et.
  grows_tac.
Qed.

Lemma grows_sweep_close_query : grows sweep_close_query.
Proof.
  unfold sweep_close_query, PL_close_query, PL_current_query, PL_exception, et.
  grows_tac.
Qed.

Lemma grows_sweep_open_query a0 a1 a2 a3 :
  grows (sweep_open_query a0 a1 a2 a3).
Proof.
  unfold sweep_open_query, PL_current_query, write_o. grows_tac.
Qed.

(** ** Who reads and who writes [o] *)

Lemma same_but_o_set s1 s2 : same_but_o s1 s2 -> s2 = set_o (o s2) s1.
Proof.
  unfold same_but_o. intros H.
  apply state_ext; simpl; try reflexivity;
    [ change (pending s2) with (pending (set_o 0%nat s2))
    | change (blocks s2) with (blocks (set_o 0%nat s2))
    | change (avail s2) with (avail (set_o 0%nat s2))
    | change (refs s2) with (refs (set_o 0%nat s2))
    | change (query s2) with (query (set_o 0%nat s2))
    | change (exception_term s2) with (exception_term (set_o 0%nat s2))
    | change (program s2) with (program (set_o 0%nat s2)) ];
    rewrite <- H; reflexivity.
Qed.

Lemma same_but_o_refl s : same_but_o s s.
Proof. reflexivity. Qed.

Lemma same_but_o_set_o h s : same_but_o (set_o h s) s.
Proof. reflexivity. Qed.

Lemma blind_of_commutes {A} (m : M A) :
  (forall h, commutes (set_o h) m) -> blind m.
Proof.
  intros Hm s1 s2 Hs. rewrite (same_but_o_set s1 s2 Hs), Hm.
  destruct (m s1) as [a s|f]; simpl; [|reflexivity].
  split; reflexivity.
Qed.

Lemma blind_ret {A} (a : A) : blind (ret a).
Proof. intros s1 s2 Hs. simpl. auto. Qed.

Lemma blind_bind {A B} (m : M A) (k : A -> M B) :
  blind m -> (forall a, blind (k a)) -> blind (bind m k).
Proof.
  intros Hm Hk s1 s2 Hs. unfold bind. specialize (Hm s1 s2 Hs).
  destruct (m s1) as [a t1|f], (m s2) as [b t2|g]; simpl in Hm;
    try contradiction.
  - destruct Hm as [<- Ht]. now apply Hk.
  - exact Hm.
Qed.

Lemma blind_write_o t : blind (write_o t).
Proof.
  intros s1 s2 Hs. simpl. split; [reflexivity|].
  unfold same_but_o in *. exact Hs.
Qed.

Lemma keeps_o_of_commutes {A} (m : M A) :
  (forall h, commutes (set_o h) m) -> keeps_o m.
Proof. intros Hm s a s'. now apply commutes_keeps_o. Qed.

Lemma keeps_o_ret {A} (a : A) : keeps_o (ret a).
Proof. intros s b s' H. now injection H as _ <-. Qed.

Lemma keeps_o_bind {A B} (m : M A) (k : A -> M B) :
  keeps_o m -> (forall a, keeps_o (k a)) -> keeps_o (bind m k).
Proof.
  intros Hm Hk s b s' H. apply bind_inv in H as (a & s1 & H1 & H).
  rewrite (Hk a _ _ _ H). now apply (Hm s a).
Qed.

Lemma keeps_o_read_o : keeps_o read_o.
Proof. intros s a s' H. now injection H as _ <-. Qed.

(** The engine's query operations commute with a change of [o]. *)
Section Engine_and_o.

Variable h : term_t.

Lemma commutes_current_query : commutes (set_o h) PL_current_query.
Proof. intros s. reflexivity. Qed.

Lemma commutes_exception d : commutes (set_o h) (PL_exception d).
Proof. intros s. reflexivity. Qed.

Lemma commutes_the_query : commutes (set_o h) the_query.
Proof. intros s. unfold the_query. simpl. now destruct (query s). Qed.

Lemma commutes_the_program : commutes (set_o h) the_program.
Proof. intros s. reflexivity. Qed.

Lemma commutes_set_query q : commutes (set_o h) (modify (set_query q)).
Proof. intros s. reflexivity. Qed.

Lemma commutes_set_exception_term e :
  commutes (set_o h) (modify (set_exception_term e)).
Proof. intros s. reflexivity. Qed.

Hint Resolve commutes_current_query commutes_exception commutes_the_query
  commutes_the_program commutes_set_query commutes_set_exception_term
  : commute.

Lemma commutes_raise_exception e : commutes (set_o h) (raise_exception e).
Proof. unfold raise_exception. commute. Qed.

Hint Resolve commutes_raise_exception : commute.

Lemma commutes_discard_query keep : commutes (set_o h) (discard_query keep).
Proof. unfold discard_query. commute. Qed.

Lemma commutes_next_solution d : commutes (set_o h) (PL_next_solution d).
Proof. unfold PL_next_solution. commute. Qed.

Lemma commutes_open_query ctx p a : commutes (set_o h) (PL_open_query ctx p a).
Proof. unfold PL_open_query. commute. Qed.

Hint Resolve commutes_discard_query commutes_next_solution
  commutes_open_query : commute.

Lemma commutes_sweep_cut_query : commutes (set_o h) sweep_cut_query.
Proof. unfold sweep_cut_query, PL_cut_query. commute. Qed.

Lemma commutes_sweep_close_query : commutes (set_o h) sweep_close_query.
Proof. unfold sweep_close_query, PL_close_query. commute. Qed.

End Engine_and_o.

#[export] Hint Resolve commutes_current_query commutes_exception
  commutes_the_query commutes_the_program commutes_set_query
  commutes_set_exception_term commutes_raise_exception commutes_discard_query
  commutes_next_solution commutes_open_query : commute.

Ltac blind_step :=
  first
    [ solve [apply blind_of_commutes; intro; auto with commute]
    | apply blind_ret
    | apply blind_write_o
    | apply blind_bind; [| intro]
    | match goal with
      | |- blind (match ?x with _ => _ end) => destruct x
      | |- blind (let _ := _ in _) => cbv zeta
      end ].

Ltac keeps_o_step :=
  first
    [ solve [apply keeps_o_of_commutes; intro; auto with commute]
    | apply keeps_o_ret
    | apply keeps_o_read_o
    | apply keeps_o_bind; [| intro]
    | match goal with
      | |- keeps_o (match ?x with _ => _ end) => destruct x
      end ].

Lemma blind_sweep_open_query a0 a1 a2 a3 :
  blind (sweep_open_query a0 a1 a2 a3).
Proof. unfold sweep_open_query. repeat blind_step. Qed.

Lemma keeps_o_sweep_next_solution : keeps_o sweep_next_solution.
Proof. unfold sweep_next_solution. repeat keeps_o_step. Qed.

Lemma same_but_o_query s1 s2 : same_but_o s1 s2 -> query s1 = query s2.
Proof.
  intros H. change (query s1) with (query (set_o 0%nat s1)). now rewrite H.
Qed.

Lemma blind_step_without_query s1 s2 :
  same_but_o s1 s2 ->
  query s1 = None ->
  same_outcome (sweep_next_solution s1) (sweep_next_solution s2).
Proof.
  intros Hs Hq.
  rewrite (next_solution_no_query s1 Hq).
  rewrite (next_solution_no_query s2)
    by (now rewrite <- (same_but_o_query s1 s2 Hs)).
  revert s1 s2 Hs Hq. intros s1 s2 Hs _. revert s1 s2 Hs.
  change (blind (ethrow "No current query" ;;; ret (@NULL value))).
  repeat blind_step.
Qed.

(** Both properties for every computation that commutes with the
    updates of [o] and of the query. *)
Lemma frame_keeps {A} (m : M A) :
  (forall upd, Foreign upd -> commutes upd m) ->
  forall s a s', m s = Ok a s' -> o s' = o s /\ query s' = query s.
Proof.
  intros Hm s a s' H. split.
  - eapply commutes_keeps_o; [|exact H]. intros h. apply Hm. typeclasses eauto.
  - eapply commutes_keeps_query; [|exact H]. intros q. apply Hm.
    typeclasses eauto.
Qed.

Ltac frame H :=
  apply frame_keeps in H; [| intros; solve [commute]].

(** Open writes [o] only when it opens the query, and then [o] is the
    handle of the query's second argument, a term reference; otherwise it
    leaves both [o] and the query as they are. *)
Lemma open_query_writes_o a0 a1 a2 a3 s v s' :
  sweep_open_query a0 a1 a2 a3 s = Ok v s' ->
  (o s' = o s /\ query s' = query s) \/
  (query s = None /\
   exists q, query s' = Some q /\ o s' = S (q_args q) /\ valid_ref s' (o s')).
Proof.
  unfold sweep_open_query. intros H.
  apply bind_inv in H as (a & s1 & H1 & H). frame H1.
  destruct H1 as [Ho1 Hq1].
  apply bind_inv in H as (d & s1' & Hd & H).
  injection Hd as <- <-. rewrite Hq1 in H.
  destruct (query s) as [q|] eqn:Hq; cbn [Z.eqb negb] in H.
  { left. apply bind_inv in H as (u & s2 & H2 & H). frame H2. frame H.
    destruct H2, H. split; congruence. }
  apply bind_inv in H as (r1 & s2 & H2 & H). frame H2. destruct H2 as [Ho2 Hq2].
  destruct (fst r1) as [c|];
    [| left; frame H; destruct H; split; congruence].
  apply bind_inv in H as (r2 & s3 & H3 & H). frame H3. destruct H3 as [Ho3 Hq3].
  destruct (fst r2) as [m|];
    [| left; frame H; destruct H; split; congruence].
  apply bind_inv in H as (r3 & s4 & H4 & H). frame H4. destruct H4 as [Ho4 Hq4].
  destruct (fst r3) as [f|];
    [| left; frame H; destruct H; split; congruence].
  apply bind_inv in H as (r & s5 & H5 & H). frame H5. destruct H5 as [Ho5 Hq5].
  destruct (r <? 0); [left; frame H; destruct H; split; congruence|].
  right. split; [reflexivity|].
  apply bind_inv in H as (qid & s6 & H6 & H).
  apply bind_inv in H as (u & s7 & H7 & H).
  pose proof (grows_cleanup _ _ _ _ _ _ H) as Hgrow.
  frame H. destruct H as [Ho Hq'].
  unfold write_o, modify in H7. injection H7 as _ <-.
  unfold PL_open_query in H6.
  apply bind_inv in H6 as (input & t1 & G1 & H6).
  apply bind_inv in H6 as (out & t2 & G2 & H6).
  apply bind_inv in H6 as (prog & t3 & G3 & H6).
  unfold get_term in G1, G2.
  destruct (deref s5 a) as [tm1|]; [|discriminate]. injection G1 as _ <-.
  destruct (deref s5 (S a)) as [tm2|] eqn:Hout; [|discriminate].
  injection G2 as _ <-. injection G3 as _ <-.
  cbn in H6. injection H6 as _ <-.
  eexists. split; [rewrite Hq'; reflexivity|].
  rewrite Ho. cbn. split; [lia|].
  unfold valid_ref. cbn in Hgrow. rewrite Nat.add_1_r.
  apply lookup_lt_Some in Hout. lia.
Qed.

(** C10. The global [o].  Cut, Close and Open never read it, and Step
    does not read it while no query is open: run from two states that
    differ only in [o], they do the same.  Step, Cut and Close never
    write it.  Open writes it only when it opens the query, and then [o]
    is the handle of that query's second argument, a term reference; an
    Open that opens no query leaves [o] and the query as they were.  So
    while no query is open, as after Cut or Close, no function of the
    query interface depends on the reference left in [o]. *)
Theorem o_discipline :
  blind sweep_cut_query /\
  blind sweep_close_query /\
  (forall a0 a1 a2 a3, blind (sweep_open_query a0 a1 a2 a3)) /\
  (forall s1 s2,
      same_but_o s1 s2 ->
      query s1 = None ->
      same_outcome (sweep_next_solution s1) (sweep_next_solution s2)) /\
  keeps_o sweep_next_solution /\
  keeps_o sweep_cut_query /\
  keeps_o sweep_close_query /\
  (forall a0 a1 a2 a3 s v s',
      sweep_open_query a0 a1 a2 a3 s = Ok v s' ->
      (o s' = o s /\ query s' = query s) \/
      (query s = None /\
       exists q, query s' = Some q /\ o s' = S (q_args q) /\
                 valid_ref s' (o s'))) /\
  (forall f s1 s2,
      entry_point f ->
      same_but_o s1 s2 ->
      query s1 = None ->
      same_outcome (f s1) (f s2)).
Proof.
  split; [apply blind_of_commutes, commutes_sweep_cut_query|].
  split; [apply blind_of_commutes, commutes_sweep_close_query|].
  split; [exact blind_sweep_open_query|].
  split; [exact blind_step_without_query|].
  split; [exact keeps_o_sweep_next_solution|].
  split; [apply keeps_o_of_commutes, commutes_sweep_cut_query|].
  split; [apply keeps_o_of_commutes, commutes_sweep_close_query|].
  split; [exact open_query_writes_o|].
  intros f s1 s2 [a0 a1 a2 a3 | | |] Hsame Hq.
  - now apply blind_sweep_open_query.
  - now apply blind_step_without_query.
  - now apply (blind_of_commutes _ commutes_sweep_cut_query).
  - now apply (blind_of_commutes _ commutes_sweep_close_query).
Qed.

Lemma o_discipline_witness :
  same_outcome (sweep_next_solution (set_o 5%nat boot))
               (sweep_next_solution boot).
Proof.
  destruct o_discipline as (_ & _ & _ & H & _).
  apply H; reflexivity.
Defined.

(** ** Open on an input it cannot convert *)

(** C4. When the three names decode and the input value is of a type
    [value_to_term] has no case for, Open frees the three buffers and
    opens no query, but it does not report the failure: nothing is
    signalled and the host receives [t], the value of a successful Open.
    The state after the call is the state before it plus the two unbound
    term references. *)
Theorem open_query_unsupported_input s c m f :
  pending s = None ->
  query s = None ->
  (Z.of_nat (String.length c) + 1) + (Z.of_nat (String.length m) + 1)
    + (Z.of_nat (String.length f) + 1) <= avail s ->
  call (sweep_open_query (VString c) (VString m) (VString f) VFloat) s
  = Ok (Returned (VSymbol "t"))
       (set_refs (refs s ++ [TVariable; TVariable]) s).
Proof.
  intros idle Hq room.
  unfold call, sweep_open_query.
  unfold PL_new_term_refs at 1. unfold bind at 1.
  cbn [replicate].
  set (s1 := set_refs (refs s ++ [TVariable; TVariable]) s).
  rewrite (bind_ok _ _ _ _ _ (current_query_run s1)).
  change (query s1) with (query s). rewrite Hq. cbn [Z.eqb negb].
  rewrite (bind_ok _ _ _ _ _
             (estring_to_cstring_string s1 c idle ltac:(simpl; lia))).
  cbn [fst snd c_bytes c_ptr].
  set (s2 := set_heap _ _ s1).
  rewrite (bind_ok _ _ _ _ _
             (estring_to_cstring_string s2 m idle ltac:(simpl; lia))).
  cbn [fst snd c_bytes c_ptr].
  set (s3 := set_heap _ _ s2).
  rewrite (bind_ok _ _ _ _ _
             (estring_to_cstring_string s3 f idle ltac:(simpl; lia))).
  cbn [fst snd c_bytes c_ptr].
  set (s4 := set_heap _ _ s3).
  erewrite bind_ok; [| apply (value_to_term_dispatch s4 VFloat); exact idle].
  change (-1 <? 0) with true. cbv iota.
  cbn [blocks avail s4 s3 s2 s1 set_heap set_refs] in *.
  destruct (three_blocks (blocks s)
              (Z.of_nat (String.length c) + 1)
              (Z.of_nat (String.length m) + 1)
              (Z.of_nat (String.length f) + 1))
    as (L1 & L2 & L3 & Lall).
  unfold cleanup.
  erewrite bind_ok; [| apply free_live; exact L1].
  erewrite bind_ok; [| apply free_live; exact L2].
  erewrite bind_ok; [| apply free_live; exact L3].
  unfold et. rewrite intern_idle by exact idle.
  cbn [pending set_heap set_refs s4 s3 s2 s1]. rewrite idle.
  f_equal. state_eq. exact Lall.
Qed.

Lemma open_query_unsupported_input_witness :
  call (sweep_open_query (VString "user") (VString "user") (VString "pair")
          VFloat) boot
  = Ok (Returned (VSymbol "t"))
       (set_refs (refs boot ++ [TVariable; TVariable]) boot).
Proof.
  apply (open_query_unsupported_input boot "user" "user" "pair").
  - reflexivity.
  - reflexivity.
  - vm_compute. discriminate.
Defined.

(** ** Open on a name that is not a string *)

Lemma estring_to_cstring_not_string s v :
  pending s = None ->
  is_string v = false ->
  estring_to_cstring (Some v) s =
  Ok (NULL, 0) (set_pending (Some (VSymbol "wrong-type-argument", v)) s).
Proof.
  intros idle Hv. unfold estring_to_cstring.
  erewrite bind_ok; cycle 1.
  { unfold copy_string_contents. rewrite host_idle by exact idle.
    cbn [bind arg ret]. destruct v; try discriminate; reflexivity. }
  cbn [fst snd negb].
  erewrite bind_ok; cycle 1.
  { unfold ethrow.
    erewrite bind_ok; [| unfold make_string; apply host_busy; discriminate].
    erewrite bind_ok; [| unfold intern; apply host_busy; discriminate].
    erewrite bind_ok; [| unfold funcall; apply host_busy; discriminate].
    erewrite bind_ok; [| unfold intern; apply host_busy; discriminate].
    unfold non_local_exit_signal. apply host_busy. discriminate. }
  reflexivity.
Qed.

Lemma two_blocks (B : gmap positive Z) (n1 n2 : Z) :
  let p1 := fresh (dom B) in
  let B1 := <[p1 := n1]> B in
  let p2 := fresh (dom B1) in
  let B2 := <[p2 := n2]> B1 in
  B2 !! p1 = Some n1 /\
  delete p1 B2 !! p2 = Some n2 /\
  delete p2 (delete p1 B2) = B.
Proof.
  intros p1 B1 p2 B2.
  pose proof (fresh_block B) as F1. fold p1 in F1.
  pose proof (fresh_block B1) as F2. fold p2 in F2.
  assert (p2 <> p1) as N21.
  { intros E. unfold B1 in F2. rewrite E, lookup_insert_eq in F2. discriminate. }
  assert (B !! p2 = None) as G2.
  { unfold B1 in F2. now rewrite lookup_insert_ne in F2 by congruence. }
  unfold B2, B1. repeat split.
  - rewrite lookup_insert_ne by congruence. apply lookup_insert_eq.
  - rewrite lookup_delete_ne by congruence. apply lookup_insert_eq.
  - apply map_eq. intros i.
    destruct (decide (i = p2)) as [->|D2];
      [now rewrite lookup_delete_eq, G2|].
    rewrite lookup_delete_ne by congruence.
    destruct (decide (i = p1)) as [->|D1];
      [now rewrite lookup_delete_eq, F1|].
    rewrite lookup_delete_ne by congruence.
    now rewrite !lookup_insert_ne by congruence.
Qed.

Lemma et_busy s : pending s <> None -> et s = Ok NULL s.
Proof. intros H. unfold et, intern. now apply host_busy. Qed.

(** The context module is not a string: the host's wrong-type signal is
    what the caller gets, and no query is opened. *)
Lemma open_query_bad_context s a0 a1 a2 a3 :
  pending s = None ->
  query s = None ->
  is_string a0 = false ->
  call (sweep_open_query a0 a1 a2 a3) s
  = Ok (Signaled (VSymbol "wrong-type-argument", a0))
       (set_refs (refs s ++ [TVariable; TVariable]) s).
Proof.
  intros idle Hq Hbad. unfold call, sweep_open_query.
  unfold PL_new_term_refs at 1. unfold bind at 1. cbn [replicate].
  set (s1 := set_refs (refs s ++ [TVariable; TVariable]) s).
  rewrite (bind_ok _ _ _ _ _ (current_query_run s1)).
  change (query s1) with (query s). rewrite Hq. cbn [Z.eqb negb].
  rewrite (bind_ok _ _ _ _ _ (estring_to_cstring_not_string s1 a0 idle Hbad)).
  cbn [fst]. unfold cleanup. cbn [bind ret].
  rewrite et_busy by discriminate.
  cbn [pending set_pending]. f_equal. state_eq. now rewrite idle.
Qed.

(** The predicate's module is not a string: the buffer of the context
    module is freed, the signal reaches the caller, no query is opened. *)
Lemma open_query_bad_module s c a1 a2 a3 :
  pending s = None ->
  query s = None ->
  is_string a1 = false ->
  Z.of_nat (String.length c) + 1 <= avail s ->
  call (sweep_open_query (VString c) a1 a2 a3) s
  = Ok (Signaled (VSymbol "wrong-type-argument", a1))
       (set_refs (refs s ++ [TVariable; TVariable]) s).
Proof.
  intros idle Hq Hbad room. unfold call, sweep_open_query.
  unfold PL_new_term_refs at 1. unfold bind at 1. cbn [replicate].
  set (s1 := set_refs (refs s ++ [TVariable; TVariable]) s).
  rewrite (bind_ok _ _ _ _ _ (current_query_run s1)).
  change (query s1) with (query s). rewrite Hq. cbn [Z.eqb negb].
  rewrite (bind_ok _ _ _ _ _
             (estring_to_cstring_string s1 c idle ltac:(simpl; lia))).
  cbn [fst snd c_bytes c_ptr].
  set (s2 := set_heap _ _ s1).
  rewrite (bind_ok _ _ _ _ _ (estring_to_cstring_not_string s2 a1 idle Hbad)).
  cbn [fst]. unfold cleanup, NULL. cbv beta iota. cbn [c_ptr].
  erewrite bind_ok; [| apply free_live; simpl; apply lookup_insert_eq].
  cbn [bind ret].
  rewrite et_busy by discriminate.
  cbn [pending set_pending set_heap s2 s1]. f_equal. state_eq.
  - now rewrite idle.
  - apply delete_insert_id, fresh_block.
Qed.

(** The predicate's name is not a string: both buffers are freed, the
    signal reaches the caller, no query is opened. *)
Lemma open_query_bad_name s c m a2 a3 :
  pending s = None ->
  query s = None ->
  is_string a2 = false ->
  (Z.of_nat (String.length c) + 1) + (Z.of_nat (String.length m) + 1)
    <= avail s ->
  call (sweep_open_query (VString c) (VString m) a2 a3) s
  = Ok (Signaled (VSymbol "wrong-type-argument", a2))
       (set_refs (refs s ++ [TVariable; TVariable]) s).
Proof.
  intros idle Hq Hbad room. unfold call, sweep_open_query.
  unfold PL_new_term_refs at 1. unfold bind at 1. cbn [replicate].
  set (s1 := set_refs (refs s ++ [TVariable; TVariable]) s).
  rewrite (bind_ok _ _ _ _ _ (current_query_run s1)).
  change (query s1) with (query s). rewrite Hq. cbn [Z.eqb negb].
  rewrite (bind_ok _ _ _ _ _
             (estring_to_cstring_string s1 c idle ltac:(simpl; lia))).
  cbn [fst snd c_bytes c_ptr].
  set (s2 := set_heap _ _ s1).
  rewrite (bind_ok _ _ _ _ _
             (estring_to_cstring_string s2 m idle ltac:(simpl; lia))).
  cbn [fst snd c_bytes c_ptr].
  set (s3 := set_heap _ _ s2).
  rewrite (bind_ok _ _ _ _ _ (estring_to_cstring_not_string s3 a2 idle Hbad)).
  cbn [fst]. unfold cleanup, NULL. cbv beta iota. cbn [c_ptr].
  cbn [blocks avail s3 s2 s1 set_heap set_refs] in *.
  destruct (two_blocks (blocks s)
              (Z.of_nat (String.length c) + 1)
              (Z.of_nat (String.length m) + 1))
    as (L1 & L2 & Lall).
  erewrite bind_ok; [| apply free_live; exact L1].
  erewrite bind_ok; [| apply free_live; exact L2].
  cbn [bind ret].
  rewrite et_busy by discriminate.
  cbn [pending set_pending set_heap s3 s2 s1]. f_equal. state_eq.
  - now rewrite idle.
  - exact Lall.
Qed.

(** ** The states the module can be in *)

Lemma commutes_exception_query q d : commutes (set_query q) (PL_exception d).
Proof. intros s. reflexivity. Qed.

Lemma commutes_read_o_query q : commutes (set_query q) read_o.
Proof. intros s. reflexivity. Qed.

Lemma put_term_query t tm s r s' :
  put_term t tm s = Ok r s' -> query s' = query s.
Proof.
  unfold put_term. destruct t as [|i]; [discriminate|].
  destruct (Nat.ltb i (length (refs s))); [|discriminate].
  intros H. injection H as _ <-. reflexivity.
Qed.

Lemma next_solution_query d s rc s1 q :
  PL_next_solution d s = Ok rc s1 ->
  query s = Some q ->
  exists q', query s1 = Some q' /\ q_args q' = q_args q.
Proof.
  unfold PL_next_solution. intros H Hq.
  rewrite (bind_ok _ _ _ _ _ (the_query_run s q Hq)) in H.
  destruct (q_answers q) as [|[e|binding last] rest].
  - apply bind_inv in H as (r & s2 & H2 & H). injection H as _ <-.
    exists q. split; [|reflexivity].
    now rewrite (put_term_query _ _ _ _ _ H2).
  - apply bind_inv in H as (u & s2 & H2 & H). injection H2 as _ <-.
    apply bind_inv in H as (u' & s3 & H3 & H). injection H as _ <-.
    exists (set_answers rest q). split; [|reflexivity].
    now rewrite (raise_exception_query _ _ _ _ H3).
  - apply bind_inv in H as (u & s2 & H2 & H). injection H2 as _ <-.
    apply bind_inv in H as (r & s3 & H3 & H). injection H as _ <-.
    exists (set_answers rest q). split; [|reflexivity].
    now rewrite (put_term_query _ _ _ _ _ H3).
Qed.

Lemma step_keeps_query_args s v s' q :
  sweep_next_solution s = Ok v s' ->
  query s = Some q ->
  exists q', query s' = Some q' /\ q_args q' = q_args q.
Proof.
  unfold sweep_next_solution. intros H Hq.
  rewrite (bind_ok _ _ _ _ _ (current_query_run s)) in H. rewrite Hq in H.
  cbn [Z.eqb] in H.
  apply bind_inv in H as (rc & s1 & H1 & H).
  destruct (next_solution_query _ _ _ _ _ H1 Hq) as (q' & Hq' & Hargs).
  exists q'. split; [|exact Hargs]. rewrite <- Hq'.
  eapply commutes_keeps_query; [|exact H].
  intros q0.
  pose proof (commutes_exception_query q0).
  pose proof (commutes_read_o_query q0).
  repeat first
    [ match goal with
      | |- commutes _ (if ?b then _ else _) => destruct b
      end
    | commute_step ].
Qed.

Lemma valid_ref_grows s s' t :
  valid_ref s t -> (length (refs s) <= length (refs s'))%nat -> valid_ref s' t.
Proof. unfold valid_ref. lia. Qed.

Lemma recorded_next s v s' :
  recorded s -> sweep_next_solution s = Ok v s' -> recorded s'.
Proof.
  unfold recorded. intros Hrec H.
  pose proof (keeps_o_sweep_next_solution _ _ _ H) as Ho.
  pose proof (grows_sweep_next_solution _ _ _ H) as Hgrow.
  destruct (query s) as [q|] eqn:Hq.
  - destruct (step_keeps_query_args _ _ _ _ H Hq) as (q' & -> & Hargs).
    rewrite Ho, Hargs. destruct Hrec as [Hrec Hvalid].
    split; [exact Hrec | eapply valid_ref_grows; eassumption].
  - rewrite (next_solution_no_query s Hq) in H.
    frame H. destruct H as [_ ->]. now rewrite Hq.
Qed.

Lemma recorded_cut s v s' :
  sweep_cut_query s = Ok v s' -> recorded s'.
Proof.
  unfold recorded. intros H.
  destruct (query s) as [q|] eqn:Hq.
  - rewrite (cut_query_closes s v s'); [exact I | congruence | exact H].
  - rewrite (cut_query_no_query s Hq) in H.
    frame H. destruct H as [_ ->]. now rewrite Hq.
Qed.

Lemma recorded_close s v s' :
  sweep_close_query s = Ok v s' -> recorded s'.
Proof.
  unfold recorded. intros H.
  destruct (query s) as [q|] eqn:Hq.
  - rewrite (close_query_closes s v s'); [exact I | congruence | exact H].
  - rewrite (close_query_no_query s Hq) in H.
    frame H. destruct H as [_ ->]. now rewrite Hq.
Qed.

Lemma recorded_open a0 a1 a2 a3 s v s' :
  recorded s -> sweep_open_query a0 a1 a2 a3 s = Ok v s' -> recorded s'.
Proof.
  unfold recorded. intros Hrec H.
  pose proof (grows_sweep_open_query _ _ _ _ _ _ _ H) as Hgrow.
  destruct (open_query_writes_o _ _ _ _ _ _ _ H)
    as [[Ho Hq] | (_ & q & -> & Ho & Hvalid)].
  - rewrite Hq, Ho. destruct (query s); [|exact I].
    destruct Hrec as [Hrec Hvalid].
    split; [exact Hrec | eapply valid_ref_grows; eassumption].
  - split; assumption.
Qed.

(** X18. Every state reached from the loaded module by calls of the query
    interface has no exit pending, and while a query is open its [o] is
    the handle recorded for that query and names a term reference. *)
Lemma reachable_recorded s : reachable s -> pending s = None /\ recorded s.
Proof.
  induction 1 as [limit prog | f s r s' Hreach [Hidle Hrec] Hentry Hcall].
  - split; [reflexivity | exact I].
  - apply call_inv in Hcall
      as (Hidle' & v & s1 & Hrun & Hq & Ho & _ & _ & Hrefs).
    split; [exact Hidle'|].
    assert (Hrec1 : recorded s1).
    { destruct Hentry.
      - eapply recorded_open; eassumption.
      - eapply recorded_next; eassumption.
      - eapply recorded_cut; eassumption.
      - eapply recorded_close; eassumption. }
    unfold recorded, valid_ref in *. now rewrite Hq, Ho, Hrefs.
Qed.


(** [opened] is the state the first Open leaves: it is reachable. *)
Lemma opened_reachable : reachable opened.
Proof.
  apply (reach_call
           (sweep_open_query (VString "user") (VString "user")
              (VString "pair") (VInteger 1))
           boot (Returned (VSymbol "t")) opened).
  - apply reach_loaded.
  - apply entry_open.
  - vm_compute. reflexivity.
Qed.


(** ** Computations that leave the heap or the term references alone *)

Lemma keeps_ret {A X} (proj : state -> X) (a : A) : keeps proj (ret a).
Proof. intros s b s' H. now injection H as _ <-. Qed.

Lemma keeps_crash {A X} (proj : state -> X) f : keeps proj (@crash A f).
Proof. intros s b s' H. discriminate. Qed.

Lemma keeps_bind {A B X} (proj : state -> X) (m : M A) (k : A -> M B) :
  keeps proj m -> (forall a, keeps proj (k a)) -> keeps proj (bind m k).
Proof.
  intros Hm Hk s b s' H. apply bind_inv in H as (a & s1 & H1 & H).
  rewrite (Hk _ _ _ _ H). exact (Hm _ _ _ H1).
Qed.

Lemma keeps_host {A X} (proj : state -> X) (d : A) (m : M A) :
  keeps proj m -> keeps proj (host d m).
Proof.
  intros Hm s a s' H. unfold host in H.
  destruct (pending s); [now injection H as _ <- | eapply Hm, H].
Qed.

Lemma keeps_modify {X} (proj : state -> X) (f : state -> state) :
  (forall s, proj (f s) = proj s) -> keeps proj (modify f).
Proof. intros Hf s a s' H. injection H as _ <-. apply Hf. Qed.

Lemma keeps_reader {A X} (proj : state -> X) (f : state -> A) :
  keeps proj (fun s => Ok (f s) s).
Proof. intros s a s' H. now injection H as _ <-. Qed.

Lemma keeps_get_term {X} (proj : state -> X) t : keeps proj (get_term t).
Proof.
  intros s a s' H. unfold get_term in H.
  destruct (deref s t); [now injection H as _ <- | discriminate].
Qed.

Lemma keeps_the_query {X} (proj : state -> X) : keeps proj the_query.
Proof.
  intros s a s' H. unfold the_query in H.
  destruct (query s); [now injection H as _ <- | discriminate].
Qed.

Lemma keeps_malloc {X} (proj : state -> X) n :
  (forall b k s, proj (set_heap b k s) = proj s) -> keeps proj (malloc n).
Proof.
  intros Hp s a s' H. unfold malloc in H.
  destruct (n <=? avail s); injection H as _ <-; [apply Hp | reflexivity].
Qed.

Lemma keeps_free {X} (proj : state -> X) p :
  (forall b k s, proj (set_heap b k s) = proj s) -> keeps proj (free p).
Proof.
  intros Hp s a s' H. unfold free in H.
  destruct (blocks s !! p); [injection H as _ <-; apply Hp | discriminate].
Qed.

Lemma keeps_put_term {X} (proj : state -> X) t tm :
  (forall r s, proj (set_refs r s) = proj s) -> keeps proj (put_term t tm).
Proof.
  intros Hp s a s' H. unfold put_term in H. destruct t as [|i]; [discriminate|].
  destruct (Nat.ltb i (length (refs s))); [|discriminate].
  injection H as _ <-. apply Hp.
Qed.

Lemma keeps_new_term_refs {X} (proj : state -> X) n :
  (forall r s, proj (set_refs r s) = proj s) -> keeps proj (PL_new_term_refs n).
Proof. intros Hp s a s' H. injection H as _ <-. apply Hp. Qed.

Create HintDb keeps.

Ltac keeps_step :=
  first
    [ solve [auto with keeps]
    | apply keeps_ret
    | apply keeps_crash
    | apply keeps_reader
    | apply keeps_get_term
    | apply keeps_the_query
    | apply keeps_modify; reflexivity
    | apply keeps_malloc; reflexivity
    | apply keeps_free; reflexivity
    | apply keeps_put_term; reflexivity
    | apply keeps_new_term_refs; reflexivity
    | apply keeps_host
    | apply keeps_bind; [| intro]
    | match goal with
      | |- keeps _ (match ?x with _ => _ end) => destruct x
      | |- keeps _ (let _ := _ in _) => cbv zeta
      end ].

Ltac keeps_tac := repeat keeps_step.

Lemma keeps_arg {X} (proj : state -> X) v : keeps proj (arg v).
Proof. destruct v; simpl; keeps_tac. Qed.

#[export] Hint Resolve keeps_arg : keeps.

Lemma keeps_args_of {X} (proj : state -> X) vs : keeps proj (args_of vs).
Proof. induction vs; simpl; keeps_tac. Qed.

#[export] Hint Resolve keeps_args_of : keeps.

(** The host functions change nothing but the pending exit. *)
Section Keeps_host.

Context {X : Type} (proj : state -> X).
Hypothesis proj_pending : forall x s, proj (set_pending x s) = proj s.

Lemma keeps_funcall f args : keeps proj (funcall f args).
Proof.
  unfold funcall, apply_function, host_signal.
  pose proof (keeps_modify proj) as Hm. keeps_tac; apply Hm; intro; apply proj_pending.
Qed.

Lemma keeps_intern name : keeps proj (intern name).
Proof. unfold intern. keeps_tac. Qed.

Lemma keeps_ethrow message : keeps proj (ethrow message).
Proof.
  unfold ethrow, make_string, non_local_exit_signal.
  pose proof keeps_funcall. pose proof keeps_intern.
  keeps_tac. apply keeps_modify. intro. apply proj_pending.
Qed.

Lemma keeps_econs a d : keeps proj (econs a d).
Proof. unfold econs. pose proof keeps_funcall. pose proof keeps_intern. keeps_tac. Qed.

Lemma keeps_ecar a : keeps proj (ecar a).
Proof. unfold ecar. pose proof keeps_funcall. pose proof keeps_intern. keeps_tac. Qed.

Lemma keeps_ecdr a : keeps proj (ecdr a).
Proof. unfold ecdr. pose proof keeps_funcall. pose proof keeps_intern. keeps_tac. Qed.

Lemma keeps_type_of v : keeps proj (type_of v).
Proof. unfold type_of. keeps_tac. Qed.

Lemma keeps_is_not_nil v : keeps proj (is_not_nil v).
Proof. unfold is_not_nil. keeps_tac. Qed.

Lemma keeps_env_eq a b : keeps proj (env_eq a b).
Proof. unfold env_eq. keeps_tac. Qed.

Lemma keeps_extract_integer v : keeps proj (extract_integer v).
Proof.
  unfold extract_integer, host_signal.
  keeps_tac; apply keeps_modify; intro; apply proj_pending.
Qed.

Lemma keeps_copy_string_contents v buf len :
  keeps proj (copy_string_contents v buf len).
Proof.
  unfold copy_string_contents, host_signal.
  keeps_tac; apply keeps_modify; intro; apply proj_pending.
Qed.

End Keeps_host.

#[export] Hint Extern 1 (keeps _ (funcall _ _)) =>
  (apply keeps_funcall; intros; reflexivity) : keeps.
#[export] Hint Extern 1 (keeps _ (intern _)) => apply keeps_intern : keeps.
#[export] Hint Extern 1 (keeps _ (ethrow _)) =>
  (apply keeps_ethrow; intros; reflexivity) : keeps.
#[export] Hint Extern 1 (keeps _ (econs _ _)) =>
  (apply keeps_econs; intros; reflexivity) : keeps.
#[export] Hint Extern 1 (keeps _ (ecar _)) =>
  (apply keeps_ecar; intros; reflexivity) : keeps.
#[export] Hint Extern 1 (keeps _ (ecdr _)) =>
  (apply keeps_ecdr; intros; reflexivity) : keeps.
#[export] Hint Extern 1 (keeps _ (type_of _)) => apply keeps_type_of : keeps.
#[export] Hint Extern 1 (keeps _ (is_not_nil _)) =>
  apply keeps_is_not_nil : keeps.
#[export] Hint Extern 1 (keeps _ (env_eq _ _)) => apply keeps_env_eq : keeps.
#[export] Hint Extern 1 (keeps _ (extract_integer _)) =>
  (apply keeps_extract_integer; intros; reflexivity) : keeps.
#[export] Hint Extern 1 (keeps _ (copy_string_contents _ _ _)) =>
  (apply keeps_copy_string_contents; intros; reflexivity) : keeps.

(** ** String transfer, every way it can end *)

Lemma ethrow_busy message s : pending s <> None -> ethrow message s = Ok tt s.
Proof.
  intros H. unfold ethrow.
  erewrite bind_ok; [| unfold make_string; now apply host_busy].
  erewrite bind_ok; [| unfold intern; now apply host_busy].
  erewrite bind_ok; [| unfold funcall; now apply host_busy].
  erewrite bind_ok; [| unfold intern; now apply host_busy].
  unfold non_local_exit_signal. now apply host_busy.
Qed.


(** [estring_to_cstring] from any state: either it hands out a buffer,
    which happens on a string from an idle state with room for it, or it
    returns NULL and has changed at most the pending exit. *)
Lemma estring_to_cstring_cases v s b len s' :
  estring_to_cstring v s = Ok (b, len) s' ->
  (b = None /\ exists p, s' = set_pending p s) \/
  (exists text,
     v = Some (VString text) /\ pending s = None /\
     Z.of_nat (String.length text) + 1 <= avail s /\
     b = Some {| c_ptr := fresh (dom (blocks s));
                 c_bytes := String.append text (zeros 1) |} /\
     len = Z.of_nat (String.length text) + 1 /\
     s' = set_heap (<[fresh (dom (blocks s)) := len]> (blocks s))
                   (avail s - len) s).
Proof.
  intros H. destruct (pending s) as [sg|] eqn:Hp.
  - left. unfold estring_to_cstring in H.
    erewrite bind_ok in H;
      [| unfold copy_string_contents; apply host_busy; congruence].
    cbn [fst snd negb] in H.
    erewrite bind_ok in H; [| apply ethrow_busy; congruence].
    injection H as <- _ <-. split; [reflexivity|].
    exists (pending s). now rewrite set_pending_same.
  - destruct v as [x|].
    + destruct (is_string x) eqn:Hs.
      * destruct x as [| text | | |]; try discriminate.
        destruct (Z_le_gt_dec (Z.of_nat (String.length text) + 1) (avail s))
          as [Hfit|Hfull].
        -- right. exists text.
           rewrite (estring_to_cstring_string s text Hp Hfit) in H.
           injection H as <- <- <-. now repeat split.
        -- left. unfold estring_to_cstring in H.
           rewrite (bind_ok _ _ _ _ _ (probe_idle s Hp text)) in H.
           cbn [fst snd negb] in H.
           assert (Hlt : avail s < Z.of_nat (String.length text) + 1) by lia.
      rewrite (bind_ok _ _ _ _ _ (malloc_full _ s Hlt)) in H.
           unfold NULL in H. cbv beta iota in H.
           rewrite (bind_ok _ _ _ _ _ (ethrow_idle s Hp _)) in H.
           injection H as <- _ <-. split; [reflexivity|]. eauto.
      * left. rewrite (estring_to_cstring_not_string s x Hp Hs) in H.
        injection H as <- _ <-. split; [reflexivity|]. eauto.
    + unfold estring_to_cstring, copy_string_contents in H.
      unfold bind at 1 in H. rewrite host_idle in H by exact Hp.
      discriminate.
Qed.

(** X1. [estring_to_cstring] called with no exit pending.  When it returns
    a buffer, the object was a string, the buffer is a fresh block of the
    string's byte count plus one, it holds the bytes followed by a zero,
    and nothing else has changed.  When it returns NULL an exit is pending
    and no block is held: the host's wrong-type signal when the object is
    not a string, [(error "malloc failed")] when the heap has no room. *)
Theorem estring_to_cstring_contract v s b len s' :
  pending s = None ->
  estring_to_cstring (Some v) s = Ok (b, len) s' ->
  match b with
  | Some buf =>
      exists text,
        v = VString text /\
        c_bytes buf = String.append text (zeros 1) /\
        len = Z.of_nat (String.length text) + 1 /\
        blocks s !! c_ptr buf = None /\
        s' = set_heap (<[c_ptr buf := len]> (blocks s)) (avail s - len) s
  | None =>
      (is_string v = false /\
       s' = set_pending (Some (VSymbol "wrong-type-argument", v)) s) \/
      (exists text,
         v = VString text /\
         avail s < Z.of_nat (String.length text) + 1 /\
         s' = set_pending (Some (error_signal "malloc failed")) s)
  end.
Proof.
  intros Hp H. destruct (is_string v) eqn:Hs.
  - destruct v as [| text | | |]; try discriminate.
    destruct (Z_le_gt_dec (Z.of_nat (String.length text) + 1) (avail s))
      as [Hfit|Hfull].
    + rewrite (estring_to_cstring_string s text Hp Hfit) in H.
      injection H as <- <- <-. exists text. cbn [c_ptr c_bytes].
      repeat split. apply fresh_block.
    + unfold estring_to_cstring in H.
      rewrite (bind_ok _ _ _ _ _ (probe_idle s Hp text)) in H.
      cbn [fst snd negb] in H.
      assert (Hlt : avail s < Z.of_nat (String.length text) + 1) by lia.
      rewrite (bind_ok _ _ _ _ _ (malloc_full _ s Hlt)) in H.
      unfold NULL in H. cbv beta iota in H.
      rewrite (bind_ok _ _ _ _ _ (ethrow_idle s Hp _)) in H.
      injection H as <- _ <-. right. exists text. repeat split. lia.
  - rewrite (estring_to_cstring_not_string s v Hp Hs) in H.
    injection H as <- _ <-. now left.
Qed.

Lemma estring_to_cstring_contract_witness :
  exists text,
    VString "user" = VString text /\
    String.append "user" (zeros 1) = String.append text (zeros 1) /\
    5 = Z.of_nat (String.length text) + 1 /\
    blocks boot !! 1%positive = None /\
    set_heap (<[1%positive := 5]> ∅) 4091 boot
    = set_heap (<[1%positive := 5]> (blocks boot)) (avail boot - 5) boot.
Proof.
  apply (estring_to_cstring_contract (VString "user") boot
           (Some {| c_ptr := 1%positive;
                    c_bytes := String.append "user" (zeros 1) |})
           5 (set_heap (<[1%positive := 5]> ∅) 4091 boot)).
  - reflexivity.
  - vm_compute. reflexivity.
Defined.

(** ** What a conversion into a term reference leaves alone *)

Lemma put_term_inv t tm s r s' :
  put_term t tm s = Ok r s' ->
  valid_ref s t /\ r = TRUE /\
  s' = set_refs (<[pred t := tm]> (refs s)) s.
Proof.
  intros H. unfold put_term in H. destruct t as [|i]; [discriminate|].
  destruct (Nat.ltb i (length (refs s))) eqn:Hi; [|discriminate].
  apply Nat.ltb_lt in Hi. injection H as <- <-.
  repeat split; unfold valid_ref; lia.
Qed.

Lemma estring_to_pstring_cases v t s r s' :
  estring_to_pstring v t s = Ok r s' ->
  (r = -1 /\ exists p, s' = set_pending p s) \/
  (r = TRUE /\ exists text,
     v = Some (VString text) /\ valid_ref s t /\
     s' = set_refs (<[pred t := TString text]> (refs s)) s).
Proof.
  intros H. pose proof H as H0. unfold estring_to_pstring in H.
  apply bind_inv in H as ([b len] & s1 & Hc & H). cbn [fst snd] in H.
  apply estring_to_cstring_cases in Hc
    as [(-> & p & ->) | (text & -> & Hp & Hfit & -> & -> & ->)].
  - left. injection H as <- <-. eauto.
  - right. apply bind_inv in H as (i & s2 & Hput & _).
    apply put_term_inv in Hput as (Hv & _ & _).
    assert (Hv' : valid_ref s t) by exact Hv.
    rewrite (estring_to_pstring_string s text t Hp Hfit Hv') in H0.
    injection H0 as <- <-. eauto.
Qed.

Lemma same_refs_refl s s' : refs s' = refs s -> same_refs s s'.
Proof. intros E i tm H. now rewrite E. Qed.

Lemma same_refs_trans s1 s2 s3 :
  same_refs s1 s2 -> same_refs s2 s3 -> same_refs s1 s3.
Proof. intros H1 H2 i tm H. eauto. Qed.

Lemma same_refs_weaken t s s' : same_refs s s' -> same_refs_except t s s'.
Proof. intros H i tm Hi _. eauto. Qed.

Lemma same_refs_new s h s' :
  PL_new_term_ref s = Ok h s' ->
  same_refs s s' /\ (length (refs s) < h)%nat /\
  (length (refs s) <= length (refs s'))%nat.
Proof.
  rewrite new_term_ref_run. intros H. injection H as <- <-. simpl.
  repeat split; [| lia | rewrite length_app; lia].
  intros i tm Hi. simpl. now apply lookup_app_l_Some.
Qed.

(** A write through a handle beyond the references of [s0] leaves the
    references of [s0] alone. *)
Lemma same_refs_fresh s0 h s s' :
  same_refs s0 s -> (length (refs s0) < h)%nat ->
  same_refs_except h s s' -> same_refs s0 s'.
Proof.
  intros H0 Hh H i tm Hi. apply H; [now apply H0|].
  apply lookup_lt_Some in Hi. lia.
Qed.

Lemma same_refs_put t tm s r s' :
  put_term t tm s = Ok r s' -> same_refs_except t s s' /\ r = TRUE.
Proof.
  intros H. apply put_term_inv in H as (Hv & -> & ->). split; [|reflexivity].
  intros i x Hi Hne. simpl. rewrite list_lookup_insert_ne; [exact Hi|].
  destruct t; simpl in *; [unfold valid_ref in Hv; lia | congruence].
Qed.

Lemma same_refs_keeps {A} (m : M A) s a s' :
  keeps refs m -> m s = Ok a s' -> same_refs s s'.
Proof. intros K H. apply same_refs_refl. exact (K _ _ _ H). Qed.

Lemma same_refs_cons_list l h t s r s' :
  PL_cons_list l h t s = Ok r s' -> same_refs_except l s s' /\ r = TRUE.
Proof.
  intros H. unfold PL_cons_list in H.
  apply bind_inv in H as (x & s1 & H1 & H).
  apply bind_inv in H as (y & s2 & H2 & H).
  pose proof (keeps_get_term (fun s => s) _ _ _ _ H1) as E1.
  pose proof (keeps_get_term (fun s => s) _ _ _ _ H2) as E2.
  simpl in E1, E2. subst s1 s2. eapply same_refs_put, H.
Qed.

(** The branch [value_to_term] takes, whatever the state. *)
Lemma value_to_term_branches v t s r s' :
  value_to_term v t s = Ok r s' ->
  value_to_term_string (Some v) t s = Ok r s' \/
  value_to_term_integer (Some v) t s = Ok r s' \/
  value_to_term_list value_to_term v t s = Ok r s' \/
  (r = -1 /\ s' = s) \/
  PL_put_nil t s = Ok r s'.
Proof.
  intros H. rewrite value_to_term_eq in H.
  apply bind_inv in H as (vt & s1 & H1 & H).
  pose proof (keeps_type_of (fun s => s) _ _ _ _ H1) as E. simpl in E. subst s1.
  apply bind_inv in H as (nn & s1 & H2 & H).
  pose proof (keeps_is_not_nil (fun s => s) _ _ _ _ H2) as E. simpl in E.
  subst s1. destruct nn; [|tauto].
  apply bind_inv in H as (ty & s1 & H3 & H).
  pose proof (keeps_intern (fun s => s) _ _ _ _ H3) as E. simpl in E. subst s1.
  apply bind_inv in H as (b & s1 & H4 & H).
  pose proof (keeps_env_eq (fun s => s) _ _ _ _ _ H4) as E. simpl in E.
  subst s1. destruct b; [tauto|].
  clear H3 H4 ty.
  apply bind_inv in H as (ty & s1 & H3 & H).
  pose proof (keeps_intern (fun s => s) _ _ _ _ H3) as E. simpl in E. subst s1.
  apply bind_inv in H as (b & s1 & H4 & H).
  pose proof (keeps_env_eq (fun s => s) _ _ _ _ _ H4) as E. simpl in E.
  subst s1. destruct b; [tauto|].
  clear H3 H4 ty.
  apply bind_inv in H as (ty & s1 & H3 & H).
  pose proof (keeps_intern (fun s => s) _ _ _ _ H3) as E. simpl in E. subst s1.
  apply bind_inv in H as (b & s1 & H4 & H).
  pose proof (keeps_env_eq (fun s => s) _ _ _ _ _ H4) as E. simpl in E.
  subst s1. destruct b; [tauto|].
  injection H as <- <-. tauto.
Qed.

Lemma value_to_term_refs v :
  forall t s r s',
    value_to_term v t s = Ok r s' ->
    same_refs_except t s s' /\ (r < 0 -> same_refs s s').
Proof.
  assert (Hstr : forall v t s r s',
             value_to_term_string (Some v) t s = Ok r s' ->
             same_refs_except t s s' /\ (r < 0 -> same_refs s s')).
  { intros x t s r s' H. unfold value_to_term_string in H.
    apply estring_to_pstring_cases in H
      as [(-> & p & ->) | (-> & text & _ & Hv & ->)].
    - split; [apply same_refs_weaken|intros _]; now apply same_refs_refl.
    - split; [|unfold TRUE; lia].
      eapply same_refs_put. now apply put_term_valid. }
  assert (Hint : forall v t s r s',
             value_to_term_integer (Some v) t s = Ok r s' ->
             same_refs_except t s s' /\ (r < 0 -> same_refs s s')).
  { intros x t s r s' H. unfold value_to_term_integer in H.
    apply bind_inv in H as (l & s1 & H1 & H).
    assert (K : keeps refs (extract_integer (Some x))) by keeps_tac.
    apply same_refs_put in H as (H & ->). split; [|unfold TRUE; lia].
    intros i tm Hi Hne. apply H; [|exact Hne]. now rewrite (K _ _ _ H1). }
  assert (Hnil : forall t s r s',
             PL_put_nil t s = Ok r s' ->
             same_refs_except t s s' /\ (r < 0 -> same_refs s s')).
  { intros t s r s' H. apply same_refs_put in H as (H & ->).
    split; [exact H | unfold TRUE; lia]. }
  assert (Hlist : forall (conv : value -> term_t -> M Z) x,
             (forall a d, x = VCons a d ->
                (forall t s r s', conv a t s = Ok r s' ->
                                  same_refs_except t s s') /\
                (forall t s r s', conv d t s = Ok r s' ->
                                  same_refs_except t s s')) ->
             forall t s r s',
               value_to_term_list conv x t s = Ok r s' ->
               same_refs_except t s s' /\ (r < 0 -> same_refs s s')).
  { intros conv x IH t s r s' H. unfold value_to_term_list in H.
    apply bind_inv in H as (head & s1 & Hh & H).
    apply bind_inv in H as (tail & s2 & Ht & H).
    apply bind_inv in H as (car & s3 & Hcar & H).
    apply bind_inv in H as (cdr & s4 & Hcdr & H).
    apply same_refs_new in Hh as (R1 & L1 & G1).
    apply same_refs_new in Ht as (R2 & L2 & G2).
    assert (R3 : same_refs s2 s3)
      by (eapply same_refs_keeps; [|exact Hcar]; keeps_tac).
    assert (R4 : same_refs s3 s4)
      by (eapply same_refs_keeps; [|exact Hcdr]; keeps_tac).
    assert (R : same_refs s s4) by eauto using same_refs_trans.
    assert (Lh : (length (refs s) < head)%nat) by lia.
    assert (Lt : (length (refs s) < tail)%nat) by lia.
    clear R1 R2 R3 R4 L1 L2 G1 G2 Hcar Hcdr.
    assert (Hend : forall s5 s6 r1 r2,
               same_refs_except head s4 s5 ->
               same_refs_except tail s5 s6 ->
               (if r1 <? 0 then ret r1
                else fun _ =>
                  (if r2 <? 0 then ret r2 else PL_cons_list t head tail) s6)
                 s5 = Ok r s' ->
               same_refs_except t s s' /\ (r < 0 -> same_refs s s')).
    { intros s5 s6 r1 r2 F1 F2 E.
      pose proof (same_refs_fresh _ _ _ _ R Lh F1) as R5.
      pose proof (same_refs_fresh _ _ _ _ R5 Lt F2) as R6.
      destruct (r1 <? 0).
      - injection E as <- <-.
        split; [apply same_refs_weaken|intros _]; exact R5.
      - destruct (r2 <? 0).
        + injection E as <- <-.
          split; [apply same_refs_weaken|intros _]; exact R6.
        + apply same_refs_cons_list in E as (E & ->).
          split; [|unfold TRUE; lia].
          intros i tm Hi Hne. apply E; [now apply R6 | exact Hne]. }
    destruct x as [| | | | a d].
    1-4: apply bind_inv in H as (r1 & s5 & H5 & H);
         apply same_refs_put in H5 as (F1 & ->);
         change (TRUE <? 0) with false in H; cbv iota in H;
         apply bind_inv in H as (r2 & s6 & H6 & H);
         apply same_refs_put in H6 as (F2 & ->);
         apply (Hend s5 s6 TRUE TRUE F1 F2);
         change (TRUE <? 0) with false; cbv iota;
         change (TRUE <? 0) with false in H; exact H.
    destruct (IH a d eq_refl) as (IHa & IHd).
    apply bind_inv in H as (r1 & s5 & H5 & H).
    pose proof (IHa _ _ _ _ H5) as F1.
    destruct (r1 <? 0) eqn:E1.
    - injection H as <- <-.
      pose proof (same_refs_fresh _ _ _ _ R Lh F1) as R5.
      split; [apply same_refs_weaken|intros _]; exact R5.
    - apply bind_inv in H as (r2 & s6 & H6 & H).
      pose proof (IHd _ _ _ _ H6) as F2.
      apply (Hend s5 s6 r1 r2 F1 F2). rewrite E1. exact H. }
  induction v as [name | text | i | | a IHa d IHd]; intros t s r s' H;
    apply value_to_term_branches in H
      as [H | [H | [H | [(-> & ->) | H]]]];
    eauto;
    try (split; [apply same_refs_weaken|intros _]; now apply same_refs_refl);
    try (eapply Hlist; [|exact H]; intros ? ? [=]; fail).
  eapply Hlist; [|exact H]. intros ? ? [= <- <-].
  split; intros; [eapply IHa | eapply IHd]; eassumption.
Qed.

(** X2. [value_to_term] writes no term reference that existed before the
    call other than its target [t], and when it fails (a negative result)
    it has not written [t] either: the sub-terms of a list go into
    references created during the call. *)
Theorem value_to_term_frame v t s r s' i tm :
  value_to_term v t s = Ok r s' ->
  refs s !! i = Some tm ->
  S i <> t \/ r < 0 ->
  refs s' !! i = Some tm.
Proof.
  intros H Hi [Hne | Hr]; destruct (value_to_term_refs v _ _ _ _ H) as (F & G).
  - now apply F.
  - now apply G.
Qed.

Lemma value_to_term_frame_witness :
  refs (set_refs [TAtom "kept"; TVariable; TInteger 1; TVariable] boot)
    !! 1%nat = Some TVariable.
Proof.
  apply (value_to_term_frame (VCons (VInteger 1) VFloat) 2%nat
           (set_refs [TAtom "kept"; TVariable] boot) (-1)).
  - vm_compute. reflexivity.
  - reflexivity.
  - right. lia.
Defined.

(** ** The heap across a call *)

Lemma keeps_heap_estring_to_pstring v t : keeps heap (estring_to_pstring v t).
Proof.
  intros s r s' H.
  apply estring_to_pstring_cases in H
    as [(_ & p & ->) | (_ & text & _ & _ & ->)]; reflexivity.
Qed.

#[export] Hint Resolve keeps_heap_estring_to_pstring : keeps.

Lemma keeps_heap_value_to_term v : forall t, keeps heap (value_to_term v t).
Proof.
  induction v as [name | text | i | | a IHa d IHd]; intros t;
    rewrite value_to_term_eq;
    unfold value_to_term_string, value_to_term_integer, value_to_term_list,
      PL_put_int64, PL_put_nil, PL_cons_list, PL_new_term_ref;
    keeps_tac.
Qed.

#[export] Hint Resolve keeps_heap_value_to_term : keeps.

(** X3. Whenever [value_to_term] returns, the heap is as it was: every
    buffer [estring_to_pstring] obtained has been freed, whether the
    conversion succeeded or not. *)
Theorem value_to_term_heap v t s r s' :
  value_to_term v t s = Ok r s' ->
  blocks s' = blocks s /\ avail s' = avail s.
Proof.
  intros H. pose proof (keeps_heap_value_to_term v t _ _ _ H) as E.
  now injection E.
Qed.

Lemma value_to_term_heap_witness :
  blocks (set_refs [TListPair (TString "ab") TNil; TString "ab"; TNil] boot)
    = blocks boot /\
  avail (set_refs [TListPair (TString "ab") TNil; TString "ab"; TNil] boot)
    = avail boot.
Proof.
  apply (value_to_term_heap (VCons (VString "ab") (VSymbol "nil")) 1%nat
           (set_refs [TVariable] boot) TRUE).
  vm_compute. reflexivity.
Defined.

Lemma keeps_heap_open_query ctx p a : keeps heap (PL_open_query ctx p a).
Proof. unfold PL_open_query, the_program. keeps_tac. Qed.

Lemma keeps_heap_et : keeps heap et.
Proof. unfold et. keeps_tac. Qed.

#[export] Hint Resolve keeps_heap_open_query keeps_heap_et : keeps.

Lemma free_inv p s u s' :
  free p s = Ok u s' ->
  exists n, blocks s !! p = Some n /\
            s' = set_heap (delete p (blocks s)) (avail s + n) s.
Proof.
  unfold free. destruct (blocks s !! p) as [n|]; [|discriminate].
  intros H. injection H as _ <-. eauto.
Qed.

(** [cleanup] gives back exactly the blocks of the buffers it is handed. *)
Lemma cleanup_frees c m f s v s' :
  cleanup c m f s = Ok v s' ->
  let drop (b : option cbuf) (B : gmap positive Z) :=
    match b with Some x => delete (c_ptr x) B | None => B end in
  let size (b : option cbuf) (B : gmap positive Z) :=
    match b with Some x => default 0 (B !! c_ptr x) | None => 0 end in
  blocks s' = drop f (drop m (drop c (blocks s))) /\
  avail s' = avail s + size c (blocks s) + size m (drop c (blocks s))
             + size f (drop m (drop c (blocks s))).
Proof.
  intros H. unfold cleanup in H.
  apply bind_inv in H as (u1 & s1 & H1 & H).
  apply bind_inv in H as (u2 & s2 & H2 & H).
  apply bind_inv in H as (u3 & s3 & H3 & H).
  pose proof (keeps_heap_et _ _ _ H) as E. injection E as -> ->.
  assert (step : forall b s u s',
             match b with Some x => free (c_ptr x) | None => ret tt end s
             = Ok u s' ->
             blocks s' = match b with
                         | Some x => delete (c_ptr x) (blocks s)
                         | None => blocks s
                         end /\
             avail s' = avail s + match b with
                                  | Some x => default 0 (blocks s !! c_ptr x)
                                  | None => 0
                                  end).
  { intros [x|] t u t' E.
    - apply free_inv in E as (n & -> & ->). simpl. split; [reflexivity | lia].
    - injection E as _ <-. split; [reflexivity | lia]. }
  apply step in H1 as (B1 & A1). apply step in H2 as (B2 & A2).
  apply step in H3 as (B3 & A3). simpl.
  rewrite B3, B2, B1, A3, A2, A1, B2, B1. split; [reflexivity | lia].
Qed.

(** X4. However [sweep_open_query] ends (a query already open, a name
    that cannot be transferred, an input it cannot convert, or success)
    the label [cleanup] has freed exactly the buffers that were allocated:
    the heap is as it was before the call. *)
Theorem open_query_heap a0 a1 a2 a3 s v s' :
  sweep_open_query a0 a1 a2 a3 s = Ok v s' ->
  blocks s' = blocks s /\ avail s' = avail s.
Proof.
  intros H. unfold sweep_open_query in H.
  apply bind_inv in H as (a & s0 & Ha & H).
  assert (E0 : blocks s0 = blocks s /\ avail s0 = avail s)
    by (injection Ha as _ <-; split; reflexivity).
  destruct E0 as (<- & <-). clear Ha.
  apply bind_inv in H as (d & s1 & Hd & H).
  injection Hd as <- <-.
  destruct (negb _).
  { assert (K : keeps heap (ethrow "Prolog is already executing a query" ;;;
                            cleanup NULL NULL NULL))
      by (unfold cleanup, NULL; keeps_tac).
    pose proof (K _ _ _ H) as E. now injection E. }
  apply bind_inv in H as ([c n1] & s1 & H1 & H). cbn [fst] in H.
  apply estring_to_cstring_cases in H1
    as [(-> & p & ->) | (tc & _ & _ & _ & -> & -> & ->)].
  { apply cleanup_frees in H as (B & A). simpl in B, A. split; [exact B | lia]. }
  cbv beta iota in H.
  apply bind_inv in H as ([m n2] & s2 & H2 & H). cbn [fst] in H.
  apply estring_to_cstring_cases in H2
    as [(-> & p & ->) | (tm & _ & _ & _ & -> & -> & ->)].
  { apply cleanup_frees in H as (B & A). simpl in B, A.
    rewrite lookup_insert_eq in A. rewrite delete_insert_id in B by apply fresh_block.
    simpl in A. split; [exact B | lia]. }
  cbv beta iota in H.
  apply bind_inv in H as ([f n3] & s3 & H3 & H). cbn [fst] in H.
  pose proof (two_blocks (blocks s0) (Z.of_nat (String.length tc) + 1)
                (Z.of_nat (String.length tm) + 1)) as (L1 & L2 & D2).
  apply estring_to_cstring_cases in H3
    as [(-> & p & ->) | (tf & _ & _ & _ & -> & -> & ->)].
  { apply cleanup_frees in H as (B & A). simpl in B, A.
    rewrite L1, L2 in A. rewrite D2 in B. simpl in A. split; [exact B | lia]. }
  cbv beta iota in H.
  pose proof (three_blocks (blocks s0) (Z.of_nat (String.length tc) + 1)
                (Z.of_nat (String.length tm) + 1)
                (Z.of_nat (String.length tf) + 1)) as (M1 & M2 & M3 & D3).
  apply bind_inv in H as (r & s4 & H4 & H).
  apply value_to_term_heap in H4 as (B4 & A4). simpl in B4, A4.
  assert (Hc : forall s5 w, blocks s5 = blocks s4 -> avail s5 = avail s4 ->
             cleanup
               (Some {| c_ptr := fresh (dom (blocks s0));
                        c_bytes := String.append tc (zeros 1) |})
               (Some {| c_ptr :=
                          fresh (dom (<[fresh (dom (blocks s0)) :=
                                          Z.of_nat (String.length tc) + 1]>
                                        (blocks s0)));
                        c_bytes := String.append tm (zeros 1) |})
               (Some {| c_ptr :=
                          fresh (dom (<[fresh (dom (<[fresh (dom (blocks s0)) :=
                                          Z.of_nat (String.length tc) + 1]>
                                        (blocks s0))) :=
                                          Z.of_nat (String.length tm) + 1]>
                                        (<[fresh (dom (blocks s0)) :=
                                          Z.of_nat (String.length tc) + 1]>
                                        (blocks s0))));
                        c_bytes := String.append tf (zeros 1) |}) s5
             = Ok w s' ->
             blocks s' = blocks s0 /\ avail s' = avail s0).
  { intros s5 w B5 A5 E. apply cleanup_frees in E as (B & A). simpl in B, A.
    rewrite B5, B4 in B, A. rewrite A5, A4 in A.
    rewrite M1, M2, M3 in A. rewrite D3 in B. simpl in A.
    split; [exact B | lia]. }
  destruct (r <? 0).
  - eapply Hc; [reflexivity | reflexivity | exact H].
  - apply bind_inv in H as (u & s5 & H5 & H).
    apply bind_inv in H as (u' & s6 & H6 & H).
    injection H6 as _ <-.
    pose proof (keeps_heap_open_query _ _ _ _ _ _ H5) as E. injection E as B5 A5.
    eapply Hc; [| | exact H]; simpl; assumption.
Qed.

Lemma open_query_heap_witness :
  blocks (set_pending (Some (VSymbol "wrong-type-argument", VInteger 3))
            (set_refs [TVariable; TVariable] boot)) = blocks boot /\
  avail (set_pending (Some (VSymbol "wrong-type-argument", VInteger 3))
           (set_refs [TVariable; TVariable] boot)) = avail boot.
Proof.
  apply (open_query_heap (VString "user") (VInteger 3) (VString "pair")
           (VInteger 1) boot NULL).
  vm_compute. reflexivity.
Defined.

(** ** From a term to a value and back *)


Lemma common_term_representable t :
  common_term t = true -> representable (value_of_term t) = true.
Proof.
  induction t as [ | text | text | i | | | head tail IHh IHt
                   | name args _ | | | tag] using term_ind_nested;
    simpl; try congruence.
  intros H. apply andb_prop in H as (Hh & Ht). now rewrite IHh, IHt.
Qed.




Lemma value_to_term_list_cons a d t s :
  pending s = None ->
  value_to_term_list value_to_term (VCons a d) t s =
  (r <- value_to_term a (S (length (refs s))) ;;
   if r <? 0 then ret r
   else
     r <- value_to_term d (S (S (length (refs s)))) ;;
     if r <? 0 then ret r
     else PL_cons_list t (S (length (refs s))) (S (S (length (refs s)))))
    (set_refs (refs s ++ [TVariable; TVariable]) s).
Proof.
  intros idle. unfold value_to_term_list.
  rewrite (bind_ok _ _ _ _ _ (new_term_ref_run s)).
  rewrite (bind_ok _ _ _ _ _ (new_term_ref_run _)).
  cbn [refs set_refs]. rewrite set_refs_twice, <- app_assoc. cbn [app].
  rewrite length_app. cbn [length]. rewrite Nat.add_1_r.
  rewrite (bind_ok _ _ _ _ _
             (ecar_idle (set_refs (refs s ++ [TVariable; TVariable]) s)
                idle a d)).
  rewrite (bind_ok _ _ _ _ _
             (ecdr_idle (set_refs (refs s ++ [TVariable; TVariable]) s)
                idle a d)).
  reflexivity.
Qed.

(** A plain term outside the common subset: its value does not convert
    back, and nothing is signalled. *)
Lemma value_of_term_rejected t :
  plain t = true ->
  common_term t = false ->
  forall s h,
    pending s = None ->
    string_room (value_of_term t) <= avail s ->
    exists s',
      value_to_term (value_of_term t) h s = Ok (-1) s' /\
      pending s' = None /\ avail s' = avail s.
Proof.
  induction t as [ | text | text | i | | | head tail IHh IHt
                   | name args _ | | | tag] using term_ind_nested;
    intros Hp Hc s h idle room; simpl in Hp, Hc; try congruence;
    cbn [value_of_term].
  1, 3, 5-7: rewrite value_to_term_dispatch by exact idle;
          match goal with
          | |- context [String.eqb ?a ?b] =>
              let r := eval vm_compute in (String.eqb a b) in
              change (String.eqb a b) with r
          end; cbv iota; eauto.
  - (* an atom: the pair, whose car is the symbol atom *)
    rewrite value_to_term_dispatch by exact idle.
    rewrite value_to_term_list_cons by exact idle.
    erewrite bind_ok;
      [| rewrite value_to_term_dispatch by exact idle; reflexivity].
    change (-1 <? 0) with true. cbv iota. eexists. split; [reflexivity|].
    split; [exact idle | reflexivity].
  - (* a list pair *)
    apply andb_prop in Hp as (Hph & Hpt).
    cbn [string_room value_of_term] in room.
    rewrite value_to_term_dispatch by exact idle.
    rewrite value_to_term_list_cons by exact idle.
    set (s1 := set_refs (refs s ++ [TVariable; TVariable]) s).
    assert (room_h : string_room (value_of_term head) <= avail s1)
      by (change (avail s1) with (avail s); lia).
    assert (room_t : string_room (value_of_term tail) <= avail s1)
      by (change (avail s1) with (avail s); lia).
    destruct (common_term head) eqn:Hch.
    + simpl in Hc.
      assert (valid1 : valid_ref s1 (S (length (refs s)))).
      { unfold valid_ref, s1. simpl. rewrite length_app. simpl. lia. }
      destruct (value_to_term_representable _
                  (common_term_representable head Hch) s1 _ idle
                  room_h valid1) as [extra Hhead].
      rewrite (bind_ok _ _ _ _ _ Hhead).
      change (TRUE <? 0) with false. cbv iota.
      destruct (IHt Hpt Hc
                  (set_refs
                     (<[pred (S (length (refs s))) :=
                          term_of_value (value_of_term head)]> (refs s1)
                      ++ extra) s1)
                  (S (S (length (refs s)))) idle room_t)
        as (s' & Htail & idle' & room').
      rewrite (bind_ok _ _ _ _ _ Htail).
      change (-1 <? 0) with true. cbv iota. eauto.
    + destruct (IHh Hph eq_refl s1 (S (length (refs s))) idle
                  room_h) as (s' & Hhead & idle' & room').
      rewrite (bind_ok _ _ _ _ _ Hhead).
      change (-1 <? 0) with true. cbv iota. eauto.
Qed.

(** X6. The other terms [term_to_value] handles (variables, atoms, floats,
    dicts, blobs, terms of an unknown type, and lists holding one) come
    out as tagged values that [value_to_term] does not take back: it
    returns -1 and signals nothing. *)
Theorem tagged_value_rejected t s h :
  plain t = true ->
  common_term t = false ->
  pending s = None ->
  string_room (value_of_term t) <= avail s ->
  exists v s1 s2,
    term_to_value t s = Ok (Some v) s1 /\
    value_to_term v h s1 = Ok (-1) s2 /\
    pending s2 = None.
Proof.
  intros Hp Hc idle room.
  destruct (term_to_value_plain t Hp s idle) as [extra Hto].
  destruct (value_of_term_rejected t Hp Hc (set_refs (refs s ++ extra) s) h
              idle room) as (s2 & Hback & idle2 & _).
  eauto 6.
Qed.

Lemma tagged_value_rejected_witness :
  exists v s1 s2,
    term_to_value (TListPair (TAtom "foo") TNil) boot = Ok (Some v) s1 /\
    value_to_term v 1%nat s1 = Ok (-1) s2 /\
    pending s2 = None.
Proof.
  apply (tagged_value_rejected (TListPair (TAtom "foo") TNil) boot 1%nat).
  - reflexivity.
  - reflexivity.
  - reflexivity.
  - vm_compute. discriminate.
Defined.

(** ** What [ethrow] signals *)

Lemma take_chars_strlen message :
  take_chars (strlen message) message = c_str message.
Proof.
  unfold take_chars, strlen. rewrite Nat2Z.id.
  induction message as [|c rest IH]; [reflexivity|].
  simpl. destruct (Ascii.eqb c Ascii.zero); [reflexivity|].
  simpl. now rewrite IH.
Qed.

(** X7. [ethrow] signals [error] with the one-element list holding the
    message up to its first zero byte.  While an exit is already pending
    it changes nothing: the first signal is the one the caller sees. *)
Theorem ethrow_signal message s :
  (pending s = None ->
   ethrow message s
   = Ok tt (set_pending (Some (error_signal (c_str message))) s)) /\
  (pending s <> None -> ethrow message s = Ok tt s).
Proof.
  split; intros H.
  - rewrite (ethrow_idle s H). now rewrite take_chars_strlen.
  - now apply ethrow_busy.
Qed.

(** ** Conversions the host has already given up on *)

(** X8. With an exit pending, [type_of] returns NULL and [is_not_nil]
    false, so [value_to_term] takes its last branch whatever the object
    is: it stores the empty list in [t] and returns what [PL_put_nil]
    returns. *)
Theorem value_to_term_busy v t s :
  pending s <> None -> value_to_term v t s = PL_put_nil t s.
Proof.
  intros H. rewrite value_to_term_eq.
  erewrite bind_ok; [| unfold type_of; now apply host_busy].
  erewrite bind_ok; [| unfold is_not_nil; now apply host_busy].
  reflexivity.
Qed.

Lemma value_to_term_busy_witness :
  value_to_term (VString "kept?") 1%nat
    (set_pending (Some (error_signal "earlier")) (set_refs [TVariable] boot))
  = PL_put_nil 1%nat
      (set_pending (Some (error_signal "earlier")) (set_refs [TVariable] boot)).
Proof.
  apply (value_to_term_busy (VString "kept?") 1%nat
           (set_pending (Some (error_signal "earlier"))
              (set_refs [TVariable] boot))).
  simpl. discriminate.
Defined.

(** X9. [value_to_term_integer] does not check whether [extract_integer]
    succeeded.  On an integer beyond [intmax_t] the host signals
    [overflow-error] and returns 0; that 0 is stored in [t] and the
    conversion reports success with the exit pending. *)
Theorem integer_overflow_stores_zero i t s :
  fits_int64 i = false ->
  pending s = None ->
  valid_ref s t ->
  value_to_term (VInteger i) t s
  = Ok TRUE
       (set_refs (<[pred t := TInteger 0]> (refs s))
          (set_pending (Some (VSymbol "overflow-error", VInteger i)) s)).
Proof.
  intros Hi idle valid. rewrite value_to_term_dispatch by exact idle.
  unfold value_to_term_integer.
  erewrite bind_ok; cycle 1.
  { unfold extract_integer. rewrite host_idle by exact idle.
    cbn [arg bind ret]. rewrite Hi. reflexivity. }
  unfold PL_put_int64. now rewrite put_term_valid.
Qed.

Lemma integer_overflow_stores_zero_witness :
  value_to_term (VInteger (2 ^ 63)) 1%nat (set_refs [TVariable] boot)
  = Ok TRUE
       (set_refs (<[pred 1%nat := TInteger 0]>
                    (refs (set_refs [TVariable] boot)))
          (set_pending (Some (VSymbol "overflow-error", VInteger (2 ^ 63)))
             (set_refs [TVariable] boot))).
Proof.
  apply (integer_overflow_stores_zero (2 ^ 63) 1%nat
           (set_refs [TVariable] boot)).
  - reflexivity.
  - reflexivity.
  - unfold valid_ref. simpl. lia.
Defined.

(** ** Discarding a query that raises *)

Lemma raise_exception_run e s :
  raise_exception e s
  = Ok tt (set_exception_term (S (length (refs s)))
             (set_refs (refs s ++ [e]) s)).
Proof.
  unfold raise_exception.
  rewrite (bind_ok _ _ _ _ _ (new_term_ref_run _)).
  erewrite bind_ok; cycle 1.
  { apply put_term_valid. unfold valid_ref. simpl.
    rewrite length_app. simpl. lia. }
  unfold modify. f_equal. state_eq.
  rewrite (insert_app_r_alt (refs s) _ (length (refs s))) by lia.
  now rewrite Nat.sub_diag.
Qed.

Lemma exception_converted rc_state e :
  pending rc_state = None ->
  plain e = true ->
  exists s',
    (x <- PL_exception 1 ;; term_to_value_at x)
      (set_exception_term (S (length (refs rc_state)))
         (set_refs (refs rc_state ++ [e]) rc_state))
    = Ok (Some (value_of_term e)) s' /\
    pending s' = None.
Proof.
  intros idle He.
  set (s1 := set_exception_term _ _).
  assert (Hd : deref s1 (S (length (refs rc_state))) = Some e).
  { unfold s1. simpl. rewrite lookup_app_r by lia.
    now rewrite Nat.sub_diag. }
  destruct (term_to_value_at_plain s1 _ e Hd He idle) as (s' & Hrun).
  exists s'. split.
  - unfold PL_exception. unfold bind at 1. exact Hrun.
  - unfold term_to_value_at in Hrun.
    apply bind_inv in Hrun as (tm & s2 & _ & Hrun).
    eapply term_to_value_value_idle, Hrun.
Qed.

(** X10. Cut and Close on a query whose discarding raises: [PL_cut_query]
    (or [PL_close_query]) returns FALSE, and the function returns the
    conversion of the exception term instead of [t]; nothing is
    signalled and the query is closed. *)
Theorem discard_exception_returned s q e :
  pending s = None ->
  query s = Some q ->
  q_discard q = Some e ->
  plain e = true ->
  (exists s',
      call sweep_cut_query s = Ok (Returned (value_of_term e)) s' /\
      query s' = None) /\
  (valid_ref s (S (q_args q)) ->
   exists s',
     call sweep_close_query s = Ok (Returned (value_of_term e)) s' /\
     query s' = None).
Proof.
  intros idle Hq Hd He. split; [|intros valid].
  - destruct (exception_converted (set_query None s) e idle He)
      as (s' & Hrun & idle').
    assert (Hcut : sweep_cut_query s = Ok (Some (value_of_term e)) s').
    { unfold sweep_cut_query.
      rewrite (bind_ok _ _ _ _ _ (current_query_run s)). rewrite Hq.
      cbn [Z.eqb]. unfold PL_cut_query, discard_query.
      erewrite bind_ok; cycle 1.
      { rewrite (bind_ok _ _ _ _ _ (the_query_run s q Hq)).
        cbn [bind ret modify]. rewrite Hd.
        rewrite (bind_ok _ _ _ _ _ (raise_exception_run e _)). reflexivity. }
      change (FALSE =? FALSE) with true. cbv iota. exact Hrun. }
    exists s'. split.
    + unfold call. now rewrite Hcut, idle'.
    + eapply cut_query_closes; [|exact Hcut]. congruence.
  - set (s0 := set_refs (<[q_args q := TVariable]> (refs s)) s).
    destruct (exception_converted (set_query None s0) e idle He)
      as (s' & Hrun & idle').
    assert (Hclose : sweep_close_query s = Ok (Some (value_of_term e)) s').
    { unfold sweep_close_query.
      rewrite (bind_ok _ _ _ _ _ (current_query_run s)). rewrite Hq.
      cbn [Z.eqb]. unfold PL_close_query, discard_query.
      erewrite bind_ok; cycle 1.
      { rewrite (bind_ok _ _ _ _ _ (the_query_run s q Hq)).
        rewrite (bind_ok _ _ _ _ _ (put_term_valid s _ TVariable valid)).
        cbn [bind ret modify pred]. rewrite Hd.
        rewrite (bind_ok _ _ _ _ _ (raise_exception_run e _)). reflexivity. }
      change (FALSE =? FALSE) with true. cbv iota. exact Hrun. }
    exists s'. split.
    + unfold call. now rewrite Hclose, idle'.
    + eapply close_query_closes; [|exact Hclose]. congruence.
Qed.

Lemma discard_exception_returned_witness :
  (exists s',
      call sweep_cut_query
        (set_query (Some {| q_args := 1%nat; q_answers := [];
                            q_discard := Some (TAtom "aborted") |})
           (set_refs [TNil; TVariable] boot))
      = Ok (Returned (value_of_term (TAtom "aborted"))) s' /\
      query s' = None) /\
  (valid_ref
     (set_query (Some {| q_args := 1%nat; q_answers := [];
                         q_discard := Some (TAtom "aborted") |})
        (set_refs [TNil; TVariable] boot)) 2%nat ->
   exists s',
     call sweep_close_query
       (set_query (Some {| q_args := 1%nat; q_answers := [];
                           q_discard := Some (TAtom "aborted") |})
          (set_refs [TNil; TVariable] boot))
     = Ok (Returned (value_of_term (TAtom "aborted"))) s' /\
     query s' = None).
Proof.
  apply (discard_exception_returned
           (set_query (Some {| q_args := 1%nat; q_answers := [];
                               q_discard := Some (TAtom "aborted") |})
              (set_refs [TNil; TVariable] boot))
           {| q_args := 1%nat; q_answers := [];
              q_discard := Some (TAtom "aborted") |}
           (TAtom "aborted")); reflexivity.
Defined.

(** ** Step leaves the query open *)

Lemma next_solution_open d s rc s1 q :
  PL_next_solution d s = Ok rc s1 ->
  query s = Some q ->
  exists rest,
    query s1 = Some (set_answers rest q) /\
    (length rest <= length (q_answers q))%nat.
Proof.
  unfold PL_next_solution. intros H Hq.
  rewrite (bind_ok _ _ _ _ _ (the_query_run s q Hq)) in H.
  destruct (q_answers q) as [|[e|binding last] rest] eqn:Ha.
  - apply bind_inv in H as (r & s2 & H2 & H). injection H as _ <-.
    exists []. split; [|simpl; lia].
    rewrite (put_term_query _ _ _ _ _ H2), Hq. f_equal.
    destruct q. simpl in Ha. unfold set_answers. simpl. now rewrite Ha.
  - apply bind_inv in H as (u & s2 & H2 & H). injection H2 as _ <-.
    apply bind_inv in H as (u' & s3 & H3 & H). injection H as _ <-.
    exists rest. split; [|simpl; lia].
    now rewrite (raise_exception_query _ _ _ _ H3).
  - apply bind_inv in H as (u & s2 & H2 & H). injection H2 as _ <-.
    apply bind_inv in H as (r & s3 & H3 & H). injection H as _ <-.
    exists rest. split; [|simpl; lia].
    now rewrite (put_term_query _ _ _ _ _ H3).
Qed.

(** X11. [sweep_next_solution] never closes the query: whatever the
    engine answers (a solution, the last solution, failure, an
    exception), the query is still open afterwards, on the same argument
    block and with the same outcome on discard; only planned answers
    have been consumed. *)
Theorem step_leaves_query_open s v s' q :
  query s = Some q ->
  sweep_next_solution s = Ok v s' ->
  exists rest,
    query s' = Some (set_answers rest q) /\
    (length rest <= length (q_answers q))%nat.
Proof.
  intros Hq H. unfold sweep_next_solution in H.
  rewrite (bind_ok _ _ _ _ _ (current_query_run s)) in H. rewrite Hq in H.
  cbn [Z.eqb] in H.
  apply bind_inv in H as (rc & s1 & H1 & H).
  destruct (next_solution_open _ _ _ _ _ H1 Hq) as (rest & Hq' & Hlen).
  exists rest. split; [|exact Hlen]. rewrite <- Hq'.
  eapply commutes_keeps_query; [|exact H].
  intros q0.
  pose proof (commutes_exception_query q0).
  pose proof (commutes_read_o_query q0).
  repeat first
    [ match goal with
      | |- commutes _ (if ?b then _ else _) => destruct b
      end
    | commute_step ].
Qed.

Lemma step_leaves_query_open_witness :
  exists rest,
    query
      (set_refs [TInteger 1; TListPair (TInteger 1) TNil; TInteger 1; TNil]
         (set_query
            (Some {| q_args := 1%nat;
                     q_answers := [Solution (TInteger 7) true];
                     q_discard := None |}) opened))
    = Some (set_answers rest
              {| q_args := 1%nat;
                 q_answers :=
                   [Solution (TListPair (TInteger 1) TNil) false;
                    Solution (TInteger 7) true];
                 q_discard := None |}) /\
    (length rest <= 2)%nat.
Proof.
  apply (step_leaves_query_open opened
           (Some (VCons (VSymbol "t")
                    (VCons (VInteger 1) (VSymbol "nil"))))).
  - reflexivity.
  - vm_compute. reflexivity.
Defined.

(** ** Open and the term references *)

Lemma keeps_refs_estring_to_cstring v : keeps refs (estring_to_cstring v).
Proof. unfold estring_to_cstring. keeps_tac. Qed.

Lemma keeps_refs_cleanup c m f : keeps refs (cleanup c m f).
Proof. unfold cleanup, et. keeps_tac. Qed.

Lemma keeps_refs_open_query ctx p a : keeps refs (PL_open_query ctx p a).
Proof. unfold PL_open_query, the_program. keeps_tac. Qed.

(** X12. [sweep_open_query] creates its two argument references before
    it checks anything, so every call that returns leaves at least two
    more term references, also a call that is refused; and it changes no
    reference that existed before the call. *)
Theorem open_query_refs a0 a1 a2 a3 s v s' :
  sweep_open_query a0 a1 a2 a3 s = Ok v s' ->
  (length (refs s) + 2 <= length (refs s'))%nat /\
  forall i tm, refs s !! i = Some tm -> refs s' !! i = Some tm.
Proof.
  intros H. unfold sweep_open_query in H.
  apply bind_inv in H as (a & s0 & Ha & H).
  assert (E0 : refs s0 = refs s ++ [TVariable; TVariable] /\
               a = S (length (refs s)))
    by (injection Ha as <- <-; split; reflexivity).
  destruct E0 as (E0 & ->). clear Ha.
  assert (L0 : (length (refs s) + 2 <= length (refs s0))%nat)
    by (rewrite E0, length_app; simpl; lia).
  assert (R0 : same_refs s s0).
  { intros i tm Hi. rewrite E0. now apply lookup_app_l_Some. }
  assert (G : (length (refs s0) <= length (refs s'))%nat).
  { revert H. apply grows_bind; [grows_tac | intro].
    unfold PL_current_query, write_o. grows_tac. }
  split; [lia|].
  cut (same_refs s0 s' \/
       exists s3 s4 r, refs s3 = refs s0 /\
                       value_to_term a3 (S (length (refs s)) + 0)%nat s3
                       = Ok r s4 /\ refs s' = refs s4).
  { intros [R | (s3 & s4 & r & E3 & Hv & E4)].
    - exact (same_refs_trans _ _ _ R0 R).
    - intros i tm Hi. rewrite E4.
      destruct (value_to_term_refs _ _ _ _ _ Hv) as (F & _).
      apply F; [rewrite E3; now apply R0|].
      apply lookup_lt_Some in Hi. lia. }
  apply bind_inv in H as (d & s1 & Hd & H). injection Hd as _ <-.
  destruct (negb _).
  { left. eapply same_refs_keeps; [|exact H].
    unfold cleanup, NULL, et. keeps_tac. }
  pose proof keeps_refs_estring_to_cstring as Ke.
  pose proof keeps_refs_cleanup as Kc.
  apply bind_inv in H as (r1 & s1 & H1 & H). apply Ke in H1.
  destruct (fst r1) as [c|];
    [| left; apply same_refs_refl; rewrite (Kc _ _ _ _ _ _ H); exact H1].
  apply bind_inv in H as (r2 & s2 & H2 & H). apply Ke in H2.
  destruct (fst r2) as [m|];
    [| left; apply same_refs_refl; rewrite (Kc _ _ _ _ _ _ H); congruence].
  apply bind_inv in H as (r3 & s3 & H3 & H). apply Ke in H3.
  destruct (fst r3) as [f|];
    [| left; apply same_refs_refl; rewrite (Kc _ _ _ _ _ _ H); congruence].
  apply bind_inv in H as (r & s4 & H4 & H).
  right. exists s3, s4, r. split; [congruence|]. split; [exact H4|].
  destruct (r <? 0).
  - exact (Kc _ _ _ _ _ _ H).
  - apply bind_inv in H as (u & s5 & H5 & H).
    apply bind_inv in H as (u' & s6 & H6 & H). injection H6 as _ <-.
    rewrite (Kc _ _ _ _ _ _ H). simpl.
    exact (keeps_refs_open_query _ _ _ _ _ _ H5).
Qed.

Lemma open_query_refs_witness :
  (length (refs opened) + 2
   <= length (refs (set_refs (refs opened ++ [TVariable; TVariable])
                      (set_pending
                         (Some (error_signal
                                  "Prolog is already executing a query"))
                         opened))))%nat /\
  forall i tm,
    refs opened !! i = Some tm ->
    refs (set_refs (refs opened ++ [TVariable; TVariable])
            (set_pending
               (Some (error_signal "Prolog is already executing a query"))
               opened)) !! i = Some tm.
Proof.
  apply (open_query_refs (VString "user") (VString "user") (VString "pair")
           (VInteger 2) opened NULL).
  vm_compute. reflexivity.
Defined.


(** ** Open on a name it cannot transfer *)

Lemma estring_to_cstring_fails s v sg :
  pending s = None ->
  transfer_failure (avail s) v = Some sg ->
  exists len,
    estring_to_cstring (Some v) s = Ok (NULL, len) (set_pending (Some sg) s).
Proof.
  intros idle Hf. destruct (is_string v) eqn:Hs.
  - destruct v as [| text | | |]; try discriminate. simpl in Hf.
    destruct (Z.ltb_spec (avail s) (Z.of_nat (String.length text) + 1))
      as [Hlt|]; [|discriminate].
    injection Hf as <-. eexists. unfold estring_to_cstring.
    rewrite (bind_ok _ _ _ _ _ (probe_idle s idle text)).
    cbn [fst snd negb].
    rewrite (bind_ok _ _ _ _ _ (malloc_full _ s Hlt)).
    unfold NULL. cbv beta iota.
    rewrite (bind_ok _ _ _ _ _ (ethrow_idle s idle _)). reflexivity.
  - assert (sg = (VSymbol "wrong-type-argument", v)) as ->
      by (destruct v; simpl in Hf, Hs; congruence).
    eexists. now apply estring_to_cstring_not_string.
Qed.

(** X13. When one of the three names cannot be transferred (it is not a
    string, or the heap has no room for it) while the names before it
    could, Open comes back with the signal [estring_to_cstring] raised,
    the buffers of the earlier names freed and no query open: apart from
    the two new term references the state is as before the call. *)
Theorem open_query_name_failure s :
  pending s = None ->
  query s = None ->
  (forall a0 a1 a2 a3 sg,
      transfer_failure (avail s) a0 = Some sg ->
      call (sweep_open_query a0 a1 a2 a3) s
      = Ok (Signaled sg) (set_refs (refs s ++ [TVariable; TVariable]) s)) /\
  (forall c a1 a2 a3 sg,
      Z.of_nat (String.length c) + 1 <= avail s ->
      transfer_failure (avail s - (Z.of_nat (String.length c) + 1)) a1
      = Some sg ->
      call (sweep_open_query (VString c) a1 a2 a3) s
      = Ok (Signaled sg) (set_refs (refs s ++ [TVariable; TVariable]) s)) /\
  (forall c m a2 a3 sg,
      (Z.of_nat (String.length c) + 1) + (Z.of_nat (String.length m) + 1)
        <= avail s ->
      transfer_failure
        (avail s - (Z.of_nat (String.length c) + 1)
         - (Z.of_nat (String.length m) + 1)) a2 = Some sg ->
      call (sweep_open_query (VString c) (VString m) a2 a3) s
      = Ok (Signaled sg) (set_refs (refs s ++ [TVariable; TVariable]) s)).
Proof.
  intros idle Hq. split; [| split].
  - intros a0 a1 a2 a3 sg Hbad. unfold call, sweep_open_query.
    unfold PL_new_term_refs at 1. unfold bind at 1. cbn [replicate].
    set (s1 := set_refs (refs s ++ [TVariable; TVariable]) s).
    rewrite (bind_ok _ _ _ _ _ (current_query_run s1)).
    change (query s1) with (query s). rewrite Hq. cbn [Z.eqb negb].
    destruct (estring_to_cstring_fails s1 a0 sg idle Hbad) as (len & Hrun).
    rewrite (bind_ok _ _ _ _ _ Hrun).
    cbn [fst]. unfold cleanup. cbn [bind ret].
    rewrite et_busy by discriminate.
    cbn [pending set_pending]. f_equal. state_eq. now rewrite idle.
  - intros c a1 a2 a3 sg room Hbad. unfold call, sweep_open_query.
    unfold PL_new_term_refs at 1. unfold bind at 1. cbn [replicate].
    set (s1 := set_refs (refs s ++ [TVariable; TVariable]) s).
    rewrite (bind_ok _ _ _ _ _ (current_query_run s1)).
    change (query s1) with (query s). rewrite Hq. cbn [Z.eqb negb].
    rewrite (bind_ok _ _ _ _ _
               (estring_to_cstring_string s1 c idle ltac:(simpl; lia))).
    cbn [fst snd c_bytes c_ptr].
    set (s2 := set_heap _ _ s1).
    destruct (estring_to_cstring_fails s2 a1 sg idle Hbad) as (len & Hrun).
    rewrite (bind_ok _ _ _ _ _ Hrun).
    cbn [fst]. unfold cleanup, NULL. cbv beta iota. cbn [c_ptr].
    erewrite bind_ok; [| apply free_live; simpl; apply lookup_insert_eq].
    cbn [bind ret].
    rewrite et_busy by discriminate.
    cbn [pending set_pending set_heap s2 s1]. f_equal. state_eq.
    + now rewrite idle.
    + apply delete_insert_id, fresh_block.
  - intros c m a2 a3 sg room Hbad. unfold call, sweep_open_query.
    unfold PL_new_term_refs at 1. unfold bind at 1. cbn [replicate].
    set (s1 := set_refs (refs s ++ [TVariable; TVariable]) s).
    rewrite (bind_ok _ _ _ _ _ (current_query_run s1)).
    change (query s1) with (query s). rewrite Hq. cbn [Z.eqb negb].
    rewrite (bind_ok _ _ _ _ _
               (estring_to_cstring_string s1 c idle ltac:(simpl; lia))).
    cbn [fst snd c_bytes c_ptr].
    set (s2 := set_heap _ _ s1).
    rewrite (bind_ok _ _ _ _ _
               (estring_to_cstring_string s2 m idle ltac:(simpl; lia))).
    cbn [fst snd c_bytes c_ptr].
    set (s3 := set_heap _ _ s2).
    destruct (estring_to_cstring_fails s3 a2 sg idle Hbad) as (len & Hrun).
    rewrite (bind_ok _ _ _ _ _ Hrun).
    cbn [fst]. unfold cleanup, NULL. cbv beta iota. cbn [c_ptr].
    cbn [blocks avail s3 s2 s1 set_heap set_refs] in *.
    destruct (two_blocks (blocks s)
                (Z.of_nat (String.length c) + 1)
                (Z.of_nat (String.length m) + 1))
      as (L1 & L2 & Lall).
    erewrite bind_ok; [| apply free_live; exact L1].
    erewrite bind_ok; [| apply free_live; exact L2].
    cbn [bind ret].
    rewrite et_busy by discriminate.
    cbn [pending set_pending set_heap s3 s2 s1]. f_equal. state_eq.
    + now rewrite idle.
    + exact Lall.
Qed.

Lemma open_query_name_failure_witness :
  (forall a0 a1 a2 a3 sg,
      transfer_failure (avail boot) a0 = Some sg ->
      call (sweep_open_query a0 a1 a2 a3) boot
      = Ok (Signaled sg)
           (set_refs (refs boot ++ [TVariable; TVariable]) boot)) /\
  (forall c a1 a2 a3 sg,
      Z.of_nat (String.length c) + 1 <= avail boot ->
      transfer_failure (avail boot - (Z.of_nat (String.length c) + 1)) a1
      = Some sg ->
      call (sweep_open_query (VString c) a1 a2 a3) boot
      = Ok (Signaled sg)
           (set_refs (refs boot ++ [TVariable; TVariable]) boot)) /\
  (forall c m a2 a3 sg,
      (Z.of_nat (String.length c) + 1) + (Z.of_nat (String.length m) + 1)
        <= avail boot ->
      transfer_failure
        (avail boot - (Z.of_nat (String.length c) + 1)
         - (Z.of_nat (String.length m) + 1)) a2 = Some sg ->
      call (sweep_open_query (VString c) (VString m) a2 a3) boot
      = Ok (Signaled sg)
           (set_refs (refs boot ++ [TVariable; TVariable]) boot)).
Proof.
  apply (open_query_name_failure boot); reflexivity.
Defined.

(** ** What a successful Open leaves *)

(** X14. What a successful Open leaves: the query the engine planned for
    the predicate and modules named by the three strings (each cut at its
    first zero byte) on the converted input; the input term in the first
    reference of the argument block; [o] the second reference of the
    block, an unbound variable; the heap as before the call. *)
Theorem open_query_effect s c m f v :
  pending s = None ->
  query s = None ->
  representable v = true ->
  (Z.of_nat (String.length c) + 1) + (Z.of_nat (String.length m) + 1)
    + (Z.of_nat (String.length f) + 1) + string_room v <= avail s ->
  exists s',
    call (sweep_open_query (VString c) (VString m) (VString f) v) s
    = Ok (Returned (VSymbol "t")) s' /\
    query s' =
      Some {| q_args := S (length (refs s));
              q_answers :=
                fst (program s (c_str c) (c_str m) (c_str f) (term_of_value v));
              q_discard :=
                snd (program s (c_str c) (c_str m) (c_str f) (term_of_value v))
           |} /\
    o s' = S (S (length (refs s))) /\
    deref s' (S (length (refs s))) = Some (term_of_value v) /\
    deref s' (o s') = Some TVariable /\
    blocks s' = blocks s /\
    avail s' = avail s.
Proof.
  intros idle Hq rep room.
  destruct (open_query_succeeds s c m f v idle Hq rep room)
    as (s' & Hrun & idle' & Hq' & Ho & Hb & Ha & extra & Hrefs).
  exists s'. split; [unfold call; now rewrite Hrun, idle'|].
  split; [exact Hq'|]. split; [exact Ho|].
  rewrite Ho. cbn [deref]. rewrite Hrefs.
  split; [| split; [| split; [exact Hb | exact Ha]]].
  - rewrite lookup_app_r by lia. now rewrite Nat.sub_diag.
  - rewrite lookup_app_r by lia.
    now replace (S (length (refs s)) - length (refs s))%nat with 1%nat by lia.
Qed.

Lemma open_query_effect_witness :
  exists s',
    call (sweep_open_query (VString "user") (VString "user") (VString "pair")
            (VInteger 1)) boot
    = Ok (Returned (VSymbol "t")) s' /\
    query s' =
      Some {| q_args := S (length (refs boot));
              q_answers :=
                fst (program boot (c_str "user") (c_str "user") (c_str "pair")
                       (term_of_value (VInteger 1)));
              q_discard :=
                snd (program boot (c_str "user") (c_str "user") (c_str "pair")
                       (term_of_value (VInteger 1)))
           |} /\
    o s' = S (S (length (refs boot))) /\
    deref s' (S (length (refs boot))) = Some (term_of_value (VInteger 1)) /\
    deref s' (o s') = Some TVariable /\
    blocks s' = blocks boot /\
    avail s' = avail boot.
Proof.
  apply (open_query_effect boot "user" "user" "pair" (VInteger 1)).
  - reflexivity.
  - reflexivity.
  - reflexivity.
  - vm_compute. discriminate.
Defined.

(** ** Step on an integer beyond 64 bits *)

(** X15. Step on a solution that binds the output to an integer beyond
    64 bits: [term_to_value_integer] returns NULL, and
    [sweep_next_solution] passes that NULL on to [econs] unchecked: the
    host is handed a NULL object. *)
Theorem step_big_integer s q i last rest :
  pending s = None ->
  query s = Some q ->
  o s = S (q_args q) ->
  valid_ref s (o s) ->
  q_answers q = Solution (TInteger i) last :: rest ->
  fits_int64 i = false ->
  sweep_next_solution s = Fault NullValue.
Proof.
  intros idle Hq Ho valid Ha Hi. unfold sweep_next_solution.
  rewrite (bind_ok _ _ _ _ _ (current_query_run s)). rewrite Hq.
  cbn [Z.eqb]. rewrite Ho in valid.
  rewrite (bind_ok _ _ _ _ _
             (next_solution_binding s q _ last rest Hq Ha valid)).
  set (s1 := set_refs _ _).
  assert (idle1 : pending s1 = None) by exact idle.
  assert (Hout : deref s1 (o s1) = Some (TInteger i)).
  { unfold s1. cbn [o set_refs set_query]. rewrite Ho. cbn [deref refs].
    apply list_lookup_insert_eq. unfold valid_ref in valid. lia. }
  assert (Hconv : term_to_value_at (o s1) s1 = Ok NULL s1).
  { unfold term_to_value_at.
    rewrite (bind_ok _ _ _ _ _ (get_term_valid _ _ _ Hout)).
    cbn [term_to_value PL_term_type]. unfold term_to_value_integer.
    cbn [PL_get_int64]. now rewrite Hi. }
  assert (Hcons : forall tag, econs (Some tag) NULL s1 = Fault NullValue).
  { intros tag. unfold econs.
    rewrite (bind_ok _ _ _ _ _ (intern_idle s1 idle1 "cons")).
    unfold funcall. rewrite host_idle by exact idle1. reflexivity. }
  destruct last.
  - change (PL_S_LAST =? PL_S_EXCEPTION) with false.
    change (PL_S_LAST =? PL_S_FALSE) with false.
    change (PL_S_LAST =? PL_S_TRUE) with false.
    change (PL_S_LAST =? PL_S_LAST) with true. cbv iota.
    rewrite (bind_ok _ _ _ _ _ (intern_idle s1 idle1 "!")).
    unfold read_o at 1. unfold bind at 1.
    rewrite (bind_ok _ _ _ _ _ Hconv). apply Hcons.
  - change (PL_S_TRUE =? PL_S_EXCEPTION) with false.
    change (PL_S_TRUE =? PL_S_FALSE) with false.
    change (PL_S_TRUE =? PL_S_TRUE) with true. cbv iota.
    unfold et. rewrite (bind_ok _ _ _ _ _ (intern_idle s1 idle1 "t")).
    unfold read_o at 1. unfold bind at 1.
    rewrite (bind_ok _ _ _ _ _ Hconv). apply Hcons.
Qed.

Lemma step_big_integer_witness :
  sweep_next_solution
    (set_query (Some {| q_args := 1%nat;
                        q_answers := [Solution (TInteger (2 ^ 64)) true];
                        q_discard := None |}) opened)
  = Fault NullValue.
Proof.
  apply (step_big_integer
           (set_query (Some {| q_args := 1%nat;
                               q_answers := [Solution (TInteger (2 ^ 64)) true];
                               q_discard := None |}) opened)
           {| q_args := 1%nat;
              q_answers := [Solution (TInteger (2 ^ 64)) true];
              q_discard := None |}
           (2 ^ 64) true []).
  - reflexivity.
  - reflexivity.
  - reflexivity.
  - unfold valid_ref. simpl. lia.
  - reflexivity.
  - reflexivity.
Defined.

(** ** Starting the engine *)

Lemma total_size_nonneg texts : 0 <= total_size texts.
Proof. induction texts; simpl; lia. Qed.

Lemma fill_argv_strings argv texts :
  forall rest done s,
    pending s = None ->
    total_size texts <= avail s ->
    fill_argv argv (map VString texts ++ rest) done s =
    fill_argv argv rest (done ++ snd (alloc_texts (blocks s) texts))
      (set_heap (fst (alloc_texts (blocks s) texts))
                (avail s - total_size texts) s).
Proof.
  induction texts as [|t texts IH]; intros rest done s idle room.
  - simpl. rewrite app_nil_r, Z.sub_0_r. now rewrite set_heap_same.
  - cbn [map app fill_argv total_size fold_right alloc_texts fst snd] in *.
    fold (total_size texts) in *.
    pose proof (total_size_nonneg texts) as Hn.
    rewrite (bind_ok _ _ _ _ _
               (estring_to_cstring_string s t idle ltac:(lia))).
    cbn [fst snd].
    rewrite IH; [| exact idle | simpl; lia].
    cbn [blocks avail set_heap]. rewrite <- app_assoc. cbn [app].
    f_equal. unfold set_heap. simpl. f_equal. lia.
Qed.

Lemma drop_blocks_delete p bufs B :
  drop_blocks bufs (delete p B) = delete p (drop_blocks bufs B).
Proof.
  induction bufs as [|b bufs IH]; [reflexivity|].
  simpl. rewrite IH. apply delete_delete.
Qed.

Lemma drop_blocks_lookup p bufs B :
  p ∉ c_ptr <$> bufs -> drop_blocks bufs B !! p = B !! p.
Proof.
  induction bufs as [|b bufs IH]; [reflexivity|].
  simpl. intros H. apply not_elem_of_cons in H as (Hne & Hnot).
  rewrite lookup_delete_ne by congruence. now apply IH.
Qed.

(** The buffers are distinct fresh blocks of the sizes asked for, and
    freeing them gives the block table back. *)
Lemma alloc_texts_spec texts :
  forall B,
    NoDup (c_ptr <$> snd (alloc_texts B texts)) /\
    (forall b, b ∈ snd (alloc_texts B texts) -> B !! c_ptr b = None) /\
    (forall b, b ∈ snd (alloc_texts B texts) ->
               fst (alloc_texts B texts) !! c_ptr b = Some (buf_size b)) /\
    drop_blocks (snd (alloc_texts B texts)) (fst (alloc_texts B texts)) = B /\
    fold_right (fun b acc => buf_size b + acc) 0 (snd (alloc_texts B texts))
    = total_size texts /\
    map (fun b => c_str (c_bytes b)) (snd (alloc_texts B texts))
    = map c_str texts.
Proof.
  induction texts as [|t texts IH]; intros B.
  - simpl. repeat split; try constructor; intros b Hb; inversion Hb.
  - cbn [alloc_texts fst snd].
    set (p := fresh (dom B)).
    set (n := Z.of_nat (String.length t) + 1).
    destruct (IH (<[p := n]> B)) as (ND & Hnew & Hsize & Hdrop & Hsum & Hstr).
    set (F := fst (alloc_texts (<[p := n]> B) texts)) in *.
    set (bufs := snd (alloc_texts (<[p := n]> B) texts)) in *.
    assert (Hp : p ∉ c_ptr <$> bufs).
    { intros Hin. apply list_elem_of_fmap in Hin as (b & Hb & Hin).
      specialize (Hnew b Hin). rewrite <- Hb, lookup_insert_eq in Hnew.
      discriminate. }
    assert (HF : F !! p = Some n).
    { rewrite <- (drop_blocks_lookup p bufs F Hp), Hdrop.
      apply lookup_insert_eq. }
    repeat split.
    + simpl. constructor; assumption.
    + intros b Hb. apply elem_of_cons in Hb as [-> | Hb].
      * apply fresh_block.
      * specialize (Hnew b Hb).
        destruct (decide (c_ptr b = p)) as [E|NE].
        -- rewrite E, lookup_insert_eq in Hnew. discriminate.
        -- now rewrite lookup_insert_ne in Hnew by congruence.
    + intros b Hb. apply elem_of_cons in Hb as [-> | Hb].
      * cbn [c_ptr]. rewrite HF. f_equal. unfold buf_size, n. simpl.
        rewrite string_length_append. simpl. lia.
      * now apply Hsize.
    + simpl. rewrite Hdrop. apply delete_insert_id, fresh_block.
    + simpl. rewrite Hsum. unfold buf_size. simpl.
      rewrite string_length_append. simpl. lia.
    + simpl. now rewrite Hstr, c_str_terminated.
Qed.

Lemma free_argv_run bufs :
  forall s,
    NoDup (c_ptr <$> bufs) ->
    (forall b, b ∈ bufs -> blocks s !! c_ptr b = Some (buf_size b)) ->
    free_argv bufs s =
    Ok tt (set_heap (drop_blocks bufs (blocks s))
             (avail s + fold_right (fun b acc => buf_size b + acc) 0 bufs) s).
Proof.
  induction bufs as [|b bufs IH]; intros s ND Hlive.
  - simpl. rewrite Z.add_0_r. now rewrite set_heap_same.
  - cbn [free_argv].
    rewrite (bind_ok _ _ _ _ _
               (free_live _ _ s (Hlive b ltac:(apply list_elem_of_here)))).
    simpl in ND. apply NoDup_cons in ND as (Hnot & ND).
    rewrite IH; [| exact ND |].
    + cbn [blocks avail set_heap fold_right drop_blocks].
      rewrite drop_blocks_delete. unfold set_heap. simpl. f_equal. f_equal.
      lia.
    + intros b' Hb'. cbn [blocks set_heap].
      rewrite lookup_delete_ne.
      * apply Hlive. now apply list_elem_of_further.
      * intros E. apply Hnot. rewrite E. apply list_elem_of_fmap. eauto.
Qed.

(** X16. [sweep_initialize] on strings, with room on the heap for [argv]
    and the transferred strings: the engine is started on the arguments,
    each cut at its first zero byte, the result is [t] or [nil] as
    [PL_initialise] says, and every block has been freed: the state is
    the one before the call. *)
Theorem initialize_strings (PL_initialise : list string -> bool) texts s :
  pending s = None ->
  sizeof_char_ptr * Z.of_nat (length texts) + total_size texts <= avail s ->
  sweep_initialize PL_initialise (map VString texts) s
  = Ok (Some (VSymbol (if PL_initialise (map c_str texts) then "t" else "nil")))
       s.
Proof.
  intros idle room. unfold sweep_initialize. rewrite length_map.
  pose proof (total_size_nonneg texts) as Hn.
  assert (Hfit : sizeof_char_ptr * Z.of_nat (length texts) <= avail s) by lia.
  rewrite (bind_ok _ _ _ _ _ (malloc_fits _ s Hfit)).
  set (p := fresh (dom (blocks s))).
  set (n := sizeof_char_ptr * Z.of_nat (length texts)).
  set (s1 := set_heap _ _ s).
  rewrite <- (app_nil_r (map VString texts)).
  erewrite bind_ok; cycle 1.
  { rewrite (fill_argv_strings p texts [] [] s1 idle
               ltac:(unfold s1; simpl; lia)). reflexivity. }
  cbn [app blocks avail set_heap s1].
  destruct (alloc_texts_spec texts (<[p := n]> (blocks s)))
    as (ND & Hnew & Hsize & Hdrop & Hsum & Hstr).
  rewrite Hstr.
  erewrite bind_ok; cycle 1.
  { apply free_argv_run; [exact ND | exact Hsize]. }
  cbn [blocks avail set_heap]. rewrite Hdrop, Hsum.
  erewrite bind_ok; [| apply free_live; simpl; apply lookup_insert_eq].
  cbn [blocks avail set_heap].
  rewrite intern_idle by exact idle.
  f_equal. rewrite delete_insert_id by apply fresh_block.
  state_eq.
Qed.

Lemma initialize_strings_witness :
  sweep_initialize (fun argv => Nat.leb 1 (length argv))
    (map VString ["swipl"; "-q"]) boot
  = Ok (Some (VSymbol (if Nat.leb 1 (length (map c_str ["swipl"; "-q"]))
                       then "t" else "nil")))
       boot.
Proof.
  apply (initialize_strings (fun argv => Nat.leb 1 (length argv))
           ["swipl"; "-q"] boot).
  - reflexivity.
  - vm_compute. discriminate.
Defined.

(** X17. [sweep_initialize] on an argument that is not a string: the host's
    wrong-type signal is pending and NULL is returned, [argv] is freed,
    but the buffers of the arguments transferred before it are not: each
    of them is still a live block, and their bytes are lost to the
    heap. *)
Theorem initialize_leaks (PL_initialise : list string -> bool)
    (texts : list string) bad rest s :
  pending s = None ->
  is_string bad = false ->
  sizeof_char_ptr * Z.of_nat (length (map VString texts ++ bad :: rest))
    + total_size texts <= avail s ->
  exists s' bufs,
    sweep_initialize PL_initialise (map VString texts ++ bad :: rest) s
    = Ok NULL s' /\
    pending s' = Some (VSymbol "wrong-type-argument", bad) /\
    avail s' = avail s - total_size texts /\
    length bufs = length texts /\
    NoDup (c_ptr <$> bufs) /\
    forall b, b ∈ bufs ->
              blocks s !! c_ptr b = None /\
              blocks s' !! c_ptr b = Some (buf_size b).
Proof.
  intros idle Hbad room. unfold sweep_initialize.
  pose proof (total_size_nonneg texts) as Hn.
  set (n := sizeof_char_ptr
            * Z.of_nat (length (map VString texts ++ bad :: rest))) in *.
  assert (Hfit : n <= avail s) by lia.
  rewrite (bind_ok _ _ _ _ _ (malloc_fits _ s Hfit)).
  set (p := fresh (dom (blocks s))).
  set (s1 := set_heap _ _ s).
  destruct (alloc_texts_spec texts (<[p := n]> (blocks s)))
    as (ND & Hnew & Hsize & Hdrop & Hsum & Hstr).
  set (F := fst (alloc_texts (<[p := n]> (blocks s)) texts)) in *.
  set (bufs := snd (alloc_texts (<[p := n]> (blocks s)) texts)) in *.
  assert (Hp : p ∉ c_ptr <$> bufs).
  { intros Hin. apply list_elem_of_fmap in Hin as (b & Hb & Hin).
    specialize (Hnew b Hin). rewrite <- Hb, lookup_insert_eq in Hnew.
    discriminate. }
  assert (HF : F !! p = Some n).
  { rewrite <- (drop_blocks_lookup p bufs F Hp), Hdrop.
    apply lookup_insert_eq. }
  set (s2 := set_heap F (avail s1 - total_size texts) s1).
  assert (Hfill : fill_argv p (map VString texts ++ bad :: rest) [] s1
                  = Ok NULL
                       (set_heap (delete p F) (avail s2 + n)
                          (set_pending
                             (Some (VSymbol "wrong-type-argument", bad)) s2))).
  { rewrite (fill_argv_strings p texts (bad :: rest) [] s1 idle
               ltac:(unfold s1; simpl; lia)).
    cbn [app fill_argv]. fold F bufs s2.
    rewrite (bind_ok _ _ _ _ _
               (estring_to_cstring_not_string s2 bad idle Hbad)).
    cbn [fst]. unfold NULL at 1. cbv beta iota.
    erewrite bind_ok; [| apply free_live; exact HF]. reflexivity. }
  rewrite (bind_ok _ _ _ _ _ Hfill). unfold NULL at 1. cbv beta iota.
  eexists _, bufs. split; [reflexivity|].
  split; [reflexivity|]. split; [simpl; lia|].
  split.
  { apply (f_equal (@length string)) in Hstr.
    now rewrite !length_map in Hstr. }
  split; [exact ND|].
  intros b Hb. specialize (Hnew b Hb). specialize (Hsize b Hb).
  assert (NE : c_ptr b <> p).
  { intros E. rewrite E, lookup_insert_eq in Hnew. discriminate. }
  split.
  - now rewrite lookup_insert_ne in Hnew by congruence.
  - cbn [blocks set_heap set_pending].
    now rewrite lookup_delete_ne by congruence.
Qed.

Lemma initialize_leaks_witness :
  exists s' bufs,
    sweep_initialize (fun _ => true)
      (map VString ["swipl"] ++ VInteger 1 :: []) boot
    = Ok NULL s' /\
    pending s' = Some (VSymbol "wrong-type-argument", VInteger 1) /\
    avail s' = avail boot - total_size ["swipl"] /\
    length bufs = length ["swipl"] /\
    NoDup (c_ptr <$> bufs) /\
    forall b, b ∈ bufs ->
              blocks boot !! c_ptr b = None /\
              blocks s' !! c_ptr b = Some (buf_size b).
Proof.
  apply (initialize_leaks (fun _ => true) ["swipl"] (VInteger 1) [] boot).
  - reflexivity.
  - reflexivity.
  - vm_compute. discriminate.
Defined.

(** ** The invariant on the example state *)

Lemma reachable_recorded_witness : pending opened = None /\ recorded opened.
Proof.
  apply (reachable_recorded opened).
  apply (reach_call
           (sweep_open_query (VString "user") (VString "user")
              (VString "pair") (VInteger 1))
           boot (Returned (VSymbol "t")) opened).
  - apply reach_loaded.
  - apply entry_open.
  - vm_compute. reflexivity.
Defined.

(** ** Runs of the module *)

(** The engine list [[1,2,3]] becomes the Lisp list [(1 2 3)]. *)
Example list_conversion :
  result_of
    (term_to_value
       (TListPair (TInteger 1)
          (TListPair (TInteger 2) (TListPair (TInteger 3) TNil))) boot)
  = inr (Some (list_value [VInteger 1; VInteger 2; VInteger 3])).
Proof. vm_compute. reflexivity. Qed.

(** An atom comes back as a tagged pair, a variable as a symbol. *)
Example atom_conversion :
  result_of (term_to_value (TListPair (TAtom "foo") TVariable) boot)
  = inr (Some (VCons (VCons (VSymbol "atom") (VString "foo"))
                     (VSymbol "variable"))).
Proof. vm_compute. reflexivity. Qed.

(** Open, three Steps and Close: the first solution, the last solution
    marked [!], no further solution, and [t]. *)
Example pair_session :
  result_of
    (session [open_pair; sweep_next_solution; sweep_next_solution;
              sweep_next_solution; sweep_close_query] [] boot)
  = inr [Returned (VSymbol "t");
         Returned (VSymbol "nil");
         Returned (VCons (VSymbol "!") (VInteger 7));
         Returned (VCons (VSymbol "t") (list_value [VInteger 1]));
         Returned (VSymbol "t")].
Proof. vm_compute. reflexivity. Qed.

(** Step before any Open, and Open twice. *)
Example misuse_session :
  result_of (session [sweep_next_solution; open_pair; open_pair] [] boot)
  = inr [Signaled (error_signal "Prolog is already executing a query");
         Returned (VSymbol "t");
         Signaled (error_signal "No current query")].
Proof. vm_compute. reflexivity. Qed.

(** A predicate that raises: Step returns the tagged exception and the
    query stays open until Close. *)
Example exception_session :
  result_of
    (session [sweep_open_query (VString "user") (VString "user")
                (VString "nope") (VSymbol "nil");
              sweep_next_solution; sweep_close_query; sweep_close_query]
       [] boot)
  = inr [Signaled (error_signal "No current query");
         Returned (VSymbol "t");
         Returned (VCons (VSymbol "exception")
                     (VCons (VSymbol "atom") (VString "existence_error")));
         Returned (VSymbol "t")].
Proof. vm_compute. reflexivity. Qed.

(** A value of an unsupported type inside a list: the conversion of the
    list fails as a whole. *)
Example nested_unsupported :
  result_of
    (value_to_term (VCons (VInteger 1) (VCons VFloat (VSymbol "nil")))
       1%nat (set_refs [TVariable] boot))
  = inr (-1).
Proof. vm_compute. reflexivity. Qed.

(** An integer the host cannot hand over as [intmax_t]: the host signals
    the overflow, [value_to_term] does not see a failure, and the query
    is opened, on [0], with the signal on its way to the caller. *)
Example overflow_session :
  result_of
    (session [sweep_open_query (VString "user") (VString "user")
                (VString "pair") (VInteger (2 ^ 63));
              sweep_next_solution] [] boot)
  = inr [Returned (VCons (VSymbol "t") (list_value [VInteger 0]));
         Signaled (VSymbol "overflow-error", VInteger (2 ^ 63))].
Proof. vm_compute. reflexivity. Qed.
